(** * F1 Strategist: the hybrid retrieval pipeline (server/rag.ts, server/storage.ts)

    A shallow embedding of the retrieval core of the F1 Strategist
    assistant: the sentence chunker, the BM25 keyword scorer, the cosine
    vector scorer, the query expander, score fusion with the metadata
    boost, and the in-memory storage the pipeline reads.

    Modelling conventions.
    - JavaScript strings are modelled as [string], a sequence of ASCII code
      units; [toLowerCase], the whitespace class of [\s] and [trim] are
      the ASCII restrictions of the JavaScript ones.
    - JavaScript numbers that carry scores are modelled as exact rationals
      [Q] (every finite double is a rational); rounding, NaN and the
      infinities are not modelled, except where the source can divide
      zero by zero, which is written out.  Lengths, indices and positions
      are integers ([nat] and [Z]).
    - The built-ins whose results are not rational functions of their
      arguments ([Math.log], [Math.sqrt]) and the ones that interpret a
      string as a program ([new RegExp(term)], [JSON.parse]) are fields of
      the class [Host]; the theorems hold for every host.
    - A JavaScript [Map] is an insertion-ordered association list
      ([JSMap]); [Array.prototype.sort] is the stable sort ECMAScript
      requires.
    - Calls to the remote providers are nodes of the program tree [Prog];
      a property of "whatever the providers answer" is [returns_all]. *)

From Stdlib Require Import String Ascii List Bool Arith ZArith QArith Qminmax Lia Lqa.
From Stdlib Require Import Sorting.Sorted Permutation.
From ExtLib Require Import Structures.Monad.
Import ListNotations.
Import MonadNotation.

Local Open Scope string_scope.
Local Open Scope list_scope.
Local Open Scope monad_scope.

Set Warnings "-register-all".

(* ================================================================= *)
(** ** JavaScript strings *)

Module JSString.

(** The ASCII members of the [\s] class (and of what [trim] removes):
    TAB, LF, VT, FF, CR and SPACE. *)
Definition isWhitespace (c : ascii) : bool :=
  let n := nat_of_ascii c in
  ((9 <=? n)%nat && (n <=? 13)%nat) || (n =? 32)%nat.

Definition lowerChar (c : ascii) : ascii :=
  let n := nat_of_ascii c in
  if ((65 <=? n)%nat && (n <=? 90)%nat)%bool then ascii_of_nat (n + 32) else c.

(** [s.toLowerCase()] *)
Fixpoint toLowerCase (s : string) : string :=
  match s with
  | EmptyString => EmptyString
  | String c s' => String (lowerChar c) (toLowerCase s')
  end.

(** [s.includes(t)] *)
Fixpoint includes (s t : string) : bool :=
  prefix t s ||
  match s with
  | EmptyString => false
  | String _ s' => includes s' t
  end.

(** [s.slice(n)] for [0 <= n] *)
Fixpoint sliceFrom (n : nat) (s : string) : string :=
  match n, s with
  | O, _ => s
  | S n', String _ s' => sliceFrom n' s'
  | S _, EmptyString => EmptyString
  end.

(** [s.slice(0, n)] for [0 <= n] *)
Fixpoint sliceTo (n : nat) (s : string) : string :=
  match n, s with
  | O, _ => EmptyString
  | S n', String c s' => String c (sliceTo n' s')
  | S _, EmptyString => EmptyString
  end.

Fixpoint trimStart (s : string) : string :=
  match s with
  | EmptyString => EmptyString
  | String c s' => if isWhitespace c then trimStart s' else s
  end.

Definition reverse (s : string) : string :=
  string_of_list_ascii (rev (list_ascii_of_string s)).

(** [s.trim()] *)
Definition trim (s : string) : string :=
  reverse (trimStart (reverse (trimStart s))).

Definition ofRev (cur : list ascii) : string := string_of_list_ascii (rev cur).

(** [s.split(/\s+/)]: the pieces between the maximal whitespace runs;
    a leading or trailing run leaves an empty piece, as in JavaScript.
    [inSep] says that the scan is inside a separator, [cur] is the piece
    being read, reversed. *)
Fixpoint splitWsFrom (inSep : bool) (cur : list ascii) (s : string) : list string :=
  match s with
  | EmptyString => [ofRev cur]
  | String c s' =>
      if isWhitespace c then
        if inSep then splitWsFrom true cur s'
        else ofRev cur :: splitWsFrom true [] s'
      else splitWsFrom false (c :: cur) s'
  end.

Definition splitWhitespace (s : string) : list string := splitWsFrom false [] s.

Definition isSentenceEnd (c : ascii) : bool :=
  (nat_of_ascii c =? 46)%nat || (nat_of_ascii c =? 33)%nat || (nat_of_ascii c =? 63)%nat.

(** [s.split(/(?<=[.!?])\s+/)]: a separator is a maximal whitespace run
    that starts right after one of [.], [!], [?]; whitespace elsewhere
    stays inside its piece.  [afterEnd] says that the character just read
    is a sentence end. *)
Fixpoint splitSentFrom (inSep afterEnd : bool) (cur : list ascii) (s : string)
  : list string :=
  match s with
  | EmptyString => [ofRev cur]
  | String c s' =>
      if isWhitespace c then
        if inSep then splitSentFrom true false cur s'
        else if afterEnd then ofRev cur :: splitSentFrom true false [] s'
        else splitSentFrom false false (c :: cur) s'
      else splitSentFrom false (isSentenceEnd c) (c :: cur) s'
  end.

Definition splitSentences (s : string) : list string :=
  splitSentFrom false false [] s.

(** A string is truthy when it is not empty. *)
Definition truthy (s : string) : bool :=
  match s with EmptyString => false | _ => true end.

(** [n] copies of [s]. *)
Fixpoint repeat (s : string) (n : nat) : string :=
  match n with
  | O => EmptyString
  | S n' => s ++ repeat s n'
  end.

End JSString.

(* ================================================================= *)
(** ** shared/schema.ts *)

Inductive DocumentType : Type :=
| article | analysis | rules | performance | news.

Record Document : Type := mkDocument {
  doc_id : string;
  doc_title : string;
  doc_content : string;
  doc_type : DocumentType;
  doc_source : option string;
  doc_url : option string
}.

Record ChunkMetadata : Type := mkChunkMetadata {
  documentTitle : string;
  documentType : DocumentType;
  source : option string;
  startPosition : Z;
  endPosition : Z;
  keywords : list string
}.

(** [Omit<Chunk, "id">], what the chunker produces. *)
Record InsertChunk : Type := mkInsertChunk {
  ins_documentId : string;
  ins_content : string;
  ins_chunkIndex : Z;
  ins_embedding : option (list Q);
  ins_metadata : option ChunkMetadata
}.

Record Chunk : Type := mkChunk {
  id : string;
  documentId : string;
  content : string;
  chunkIndex : Z;
  embedding : option (list Q);
  metadata : option ChunkMetadata
}.

Record RetrievedChunk : Type := mkRetrievedChunk {
  r_id : string;
  r_content : string;
  r_documentId : string;
  r_metadata : option ChunkMetadata;
  vectorScore : Q;
  bm25Score : Q;
  combinedScore : Q
}.

(* ================================================================= *)
(** ** rag.ts: document processing *)

Definition CHUNK_SIZE : Z := 500.
Definition CHUNK_OVERLAP : Z := 100.
Definition TOP_K : Z := 5.

Definition f1Terms : list string :=
  [ "pit stop"; "tire"; "strategy"; "DRS"; "overtake"; "qualifying";
    "pole position"; "fastest lap"; "safety car"; "VSC"; "red flag";
    "undercut"; "overcut"; "medium"; "soft"; "hard"; "intermediate";
    "wet"; "slick"; "degradation"; "graining"; "blistering";
    "downforce"; "drag"; "aero"; "ERS"; "battery"; "deployment";
    "sector"; "lap time"; "gap"; "delta"; "pace"; "stint" ].

Definition entities : list string :=
  [ "verstappen"; "hamilton"; "leclerc"; "norris"; "sainz"; "russell";
    "perez"; "alonso"; "stroll"; "gasly"; "ocon"; "tsunoda";
    "red bull"; "ferrari"; "mercedes"; "mclaren"; "aston martin";
    "alpine"; "williams"; "haas"; "alfa romeo"; "alphatauri";
    "monaco"; "silverstone"; "monza"; "spa"; "suzuka"; "interlagos" ].

(** [keywords.add(term)] on a [Set<string>] kept in insertion order. *)
Definition setAdd (term : string) (keywords : list string) : list string :=
  if existsb (String.eqb term) keywords then keywords else keywords ++ [term].

Definition extractKeywords (text : string) : list string :=
  let lower := JSString.toLowerCase text in
  let addIfIncluded kws term :=
    if JSString.includes lower term then setAdd term kws else kws in
  let keywords := fold_left addIfIncluded f1Terms [] in
  let keywords := fold_left addIfIncluded entities keywords in
  firstn 10 keywords.

Definition strlen (s : string) : Z := Z.of_nat (String.length s).

(** [document.source || undefined] *)
Definition sourceOrUndefined (s : option string) : option string :=
  match s with
  | Some v => if JSString.truthy v then Some v else None
  | None => None
  end.

(** The state of the loop of [chunkDocument]. *)
Record ChunkerState : Type := mkChunkerState {
  cs_chunks : list InsertChunk;
  cs_currentChunk : string;
  cs_chunkIndex : Z;
  cs_startPosition : Z
}.

Definition emitChunk (document : Document) (st : ChunkerState) : InsertChunk :=
  let metadata :=
    {| documentTitle := doc_title document;
       documentType := doc_type document;
       source := sourceOrUndefined (doc_source document);
       startPosition := cs_startPosition st;
       endPosition := cs_startPosition st + strlen (cs_currentChunk st);
       keywords := extractKeywords (cs_currentChunk st) |} in
  {| ins_documentId := doc_id document;
     ins_content := JSString.trim (cs_currentChunk st);
     ins_chunkIndex := cs_chunkIndex st;
     ins_embedding := None;
     ins_metadata := Some metadata |}.

(** One iteration of [for (const sentence of sentences)]. *)
Definition chunkStep (document : Document) (st : ChunkerState) (sentence : string)
  : ChunkerState :=
  let currentChunk := cs_currentChunk st in
  if ((strlen currentChunk + strlen sentence >? CHUNK_SIZE)
      && (strlen currentChunk >? 0))%Z%bool
  then
    let overlapStart := Z.max 0 (strlen currentChunk - CHUNK_OVERLAP) in
    {| cs_chunks := cs_chunks st ++ [emitChunk document st];
       cs_currentChunk :=
         JSString.sliceFrom (Z.to_nat overlapStart) currentChunk ++ sentence;
       cs_chunkIndex := cs_chunkIndex st + 1;
       cs_startPosition := cs_startPosition st + overlapStart |}
  else
    {| cs_chunks := cs_chunks st;
       cs_currentChunk :=
         currentChunk ++ (if JSString.truthy currentChunk then " " else "") ++ sentence;
       cs_chunkIndex := cs_chunkIndex st;
       cs_startPosition := cs_startPosition st |}.

Definition chunkDocument (document : Document) : list InsertChunk :=
  let sentences := JSString.splitSentences (doc_content document) in
  let st := fold_left (chunkStep document) sentences
              {| cs_chunks := []; cs_currentChunk := "";
                 cs_chunkIndex := 0; cs_startPosition := 0 |} in
  if JSString.truthy (JSString.trim (cs_currentChunk st))
  then cs_chunks st ++ [emitChunk document st]
  else cs_chunks st.

(** The [startPosition, endPosition) span of an emitted chunk. *)
Definition span (c : InsertChunk) : Z * Z :=
  match ins_metadata c with
  | Some m => (startPosition m, endPosition m)
  | None => (0, 0)%Z
  end.

(* ================================================================= *)
(** ** JavaScript [Map]: an association list in insertion order *)

Module JSMap.
Section Ops.
Context {V : Type}.

Definition t : Type := list (string * V).

Definition empty : t := [].

(** [m.get(k)]; [None] is [undefined]. *)
Fixpoint get (k : string) (m : t) : option V :=
  match m with
  | [] => None
  | (k', v) :: m' => if String.eqb k k' then Some v else get k m'
  end.

(** [m.set(k, v)]: an existing key keeps its place. *)
Fixpoint set (k : string) (v : V) (m : t) : t :=
  match m with
  | [] => [(k, v)]
  | (k', v') :: m' =>
      if String.eqb k k' then (k, v) :: m' else (k', v') :: set k v m'
  end.

(** [m.delete(k)] *)
Fixpoint delete (k : string) (m : t) : t :=
  match m with
  | [] => []
  | (k', v') :: m' =>
      if String.eqb k k' then m' else (k', v') :: delete k m'
  end.

Definition keys (m : t) : list string := map fst m.
Definition values (m : t) : list V := map snd m.
Definition size (m : t) : nat := length m.

(** The invariant of a [Map]: no key occurs twice. *)
Definition wf (m : t) : Prop := NoDup (keys m).
End Ops.
Arguments t : clear implicits.
End JSMap.

(* ================================================================= *)
(** ** JavaScript values, exceptions and the host *)

(** What [JSON.parse] can return. *)
Inductive JSON : Type :=
| JNull
| JBool (b : bool)
| JNum (q : Q)
| JStr (s : string)
| JArr (elements : list JSON)
| JObj (fields : JSMap.t JSON).

Inductive Exn : Type :=
| SyntaxError
| TypeError
| ApiError (status : Z)
| RetriesExhausted.

(** [error?.status] *)
Definition statusOf (e : Exn) : option Z :=
  match e with ApiError s => Some s | _ => None end.

(** The built-ins the pipeline calls and this development does not
    define: [Math.log] and [Math.sqrt] on numbers;
    [(content.match(new RegExp(term, "gi")) || []).length], [None] when
    the constructor throws a SyntaxError; [JSON.parse], [None] when it
    throws. *)
Class Host : Type := {
  Math_log : Q -> Q;
  Math_sqrt : Q -> Q;
  RegExp_matchCount : string -> string -> option nat;
  JSON_parse : string -> option JSON
}.

(** [a < b] on numbers. *)
Definition Qlt_bool (a b : Q) : bool := negb (Qle_bool b a).

(** [arr.slice(0, end)] for an integer [end]; a negative [end] counts
    from the end of the array. *)
Definition slice0 {A : Type} (end_ : Z) (l : list A) : list A :=
  if (end_ <? 0)%Z
  then firstn (Z.to_nat (Z.max 0 (Z.of_nat (length l) + end_))) l
  else firstn (Z.to_nat end_) l.

(** [arr.sort((a, b) => score(b) - score(a))]: the stable sort in
    descending order of [score].  An element moves behind a later one
    only when its score is strictly smaller. *)
Fixpoint insertDesc {A : Type} (score : A -> Q) (x : A) (l : list A) : list A :=
  match l with
  | [] => [x]
  | y :: l' =>
      if Qlt_bool (score x) (score y) then y :: insertDesc score x l'
      else x :: l
  end.

Definition sortDesc {A : Type} (score : A -> Q) (l : list A) : list A :=
  fold_right (insertDesc score) [] l.

(** [Math.max(...values, floor)] *)
Definition maxWithFloor (values : list Q) (floor : Q) : Q :=
  fold_right Qmax floor values.

(* ================================================================= *)
(** ** storage.ts: MemStorage *)

(** The two maps the retrieval core reads and [deleteDocument] writes;
    users, conversations and messages are not touched by any operation
    below. *)
Record MemStorage : Type := mkMemStorage {
  documents : JSMap.t Document;
  chunks : JSMap.t Chunk
}.

Definition getDocument (st : MemStorage) (id : string) : option Document :=
  JSMap.get id (documents st).

(** One iteration of [for (const [chunkId, chunk] of this.chunks)]. *)
Definition deleteIfOwned (id : string) (m : JSMap.t Chunk) (entry : string * Chunk)
  : JSMap.t Chunk :=
  let (chunkId, chunk) := entry in
  if String.eqb (documentId chunk) id then JSMap.delete chunkId m else m.

(** The loop deletes only the entry it is visiting, so that iterating the
    live map visits every entry the map had when the loop started. *)
Definition deleteDocument (st : MemStorage) (id : string) : MemStorage :=
  {| documents := JSMap.delete id (documents st);
     chunks := fold_left (deleteIfOwned id) (chunks st) (chunks st) |}.

Definition getChunks (st : MemStorage) : list Chunk :=
  JSMap.values (chunks st).

Definition getChunksByDocumentId (st : MemStorage) (docId : string) : list Chunk :=
  filter (fun chunk => String.eqb (documentId chunk) docId) (JSMap.values (chunks st)).

(** [chunk.embedding && chunk.embedding.length > 0] *)
Definition hasEmbedding (chunk : Chunk) : bool :=
  match embedding chunk with
  | Some e => (0 <? length e)%nat
  | None => false
  end.

Section WithHost.
Context {host : Host}.

Definition cosineStep (acc : Q * Q * Q) (xy : Q * Q) : Q * Q * Q :=
  let '(dotProduct, normA, normB) := acc in
  let (x, y) := xy in
  (dotProduct + x * y, normA + x * x, normB + y * y).

Definition cosineSimilarity (a b : list Q) : Q :=
  if negb (length a =? length b)%nat || (length a =? 0)%nat then 0
  else
    let '(dotProduct, normA, normB) := fold_left cosineStep (combine a b) (0, 0, 0) in
    let denominator := Math_sqrt normA * Math_sqrt normB in
    if Qeq_bool denominator 0 then 0 else dotProduct / denominator.

Definition scoreChunk (queryEmbedding : list Q) (chunk : Chunk) : RetrievedChunk :=
  let vectorScore :=
    cosineSimilarity queryEmbedding
      (match embedding chunk with Some e => e | None => [] end) in
  {| r_id := id chunk;
     r_content := content chunk;
     r_documentId := documentId chunk;
     r_metadata := metadata chunk;
     vectorScore := vectorScore;
     bm25Score := 0;
     combinedScore := vectorScore |}.

Definition searchChunksByEmbedding (st : MemStorage) (queryEmbedding : list Q) (topK : Z)
  : list RetrievedChunk :=
  let chunks := filter hasEmbedding (JSMap.values (chunks st)) in
  let scoredChunks := map (scoreChunk queryEmbedding) chunks in
  slice0 topK (sortDesc combinedScore scoredChunks).

End WithHost.

(* ================================================================= *)
(** ** Programs that call the remote providers *)

(** An [async] function as a tree: it returns, throws, or awaits a
    provider (or a timer) and continues with the answer.  A provider
    answers with a value or rejects with an exception.
    - [ChatCompletionsCreate q k]: [openai.chat.completions.create] with
      user content [q]; the answer is the list of
      [choices[i].message.content], each a string or null.
    - [EmbeddingsCreate x k]: [openai.embeddings.create] with input [x];
      the answer is [response.data[0].embedding].
    - [SetTimeout d k]: [await new Promise(r => setTimeout(r, d))]. *)
Inductive Prog (A : Type) : Type :=
| Ret (a : A)
| Throw (e : Exn)
| ChatCompletionsCreate (userContent : string)
    (k : Exn + list (option string) -> Prog A)
| EmbeddingsCreate (input : JSON) (k : Exn + list Q -> Prog A)
| SetTimeout (delay : Z) (k : Prog A).

Arguments Ret {A} a.
Arguments Throw {A} e.
Arguments ChatCompletionsCreate {A} userContent k.
Arguments EmbeddingsCreate {A} input k.
Arguments SetTimeout {A} delay k.

Fixpoint Prog_bind {A B : Type} (p : Prog A) (f : A -> Prog B) : Prog B :=
  match p with
  | Ret a => f a
  | Throw e => Throw e
  | ChatCompletionsCreate q k => ChatCompletionsCreate q (fun r => Prog_bind (k r) f)
  | EmbeddingsCreate x k => EmbeddingsCreate x (fun r => Prog_bind (k r) f)
  | SetTimeout d k => SetTimeout d (Prog_bind k f)
  end.

#[global] Instance Monad_Prog : Monad Prog :=
  {| ret := @Ret; bind := @Prog_bind |}.

(** [try { p } catch (e) { handler(e) }] *)
Fixpoint tryCatch {A : Type} (p : Prog A) (handler : Exn -> Prog A) : Prog A :=
  match p with
  | Ret a => Ret a
  | Throw e => handler e
  | ChatCompletionsCreate q k => ChatCompletionsCreate q (fun r => tryCatch (k r) handler)
  | EmbeddingsCreate x k => EmbeddingsCreate x (fun r => tryCatch (k r) handler)
  | SetTimeout d k => SetTimeout d (tryCatch k handler)
  end.

(** A synchronous computation that may throw, as a program. *)
Definition liftResult {A : Type} (r : Exn + A) : Prog A :=
  match r with inl e => Throw e | inr a => Ret a end.

(** A program run to its end, its outcome kept as a value: what a
    promise settles to. *)
Definition settle {A : Type} (p : Prog A) : Prog (Exn + A) :=
  tryCatch (Prog_bind p (fun a => Ret (inr a))) (fun e => Ret (inl e)).

(** [Promise.all(l.map(f))].  [map] starts every call before any of them
    is awaited, so each call runs to its end and makes all its provider
    calls whether or not another one rejects.  The result is the list of
    the values, or a rejection when some call rejects.  The provider
    calls are listed call by call, where the engine interleaves them; on
    several rejections the one reported here is the first of the array,
    where the engine reports the first in time. *)
Fixpoint promiseAll {A B : Type} (f : A -> Prog B) (l : list A) : Prog (list B) :=
  match l with
  | [] => Ret []
  | x :: l' =>
      Prog_bind (settle (f x)) (fun r =>
      Prog_bind (settle (promiseAll f l')) (fun rs =>
        match r, rs with
        | inl e, _ => Throw e
        | inr _, inl e => Throw e
        | inr y, inr ys => Ret (y :: ys)
        end))
  end.

(** [P] holds of every value the program can return, whatever the
    providers answer. *)
Fixpoint returns_all {A : Type} (P : A -> Prop) (p : Prog A) : Prop :=
  match p with
  | Ret a => P a
  | Throw _ => True
  | ChatCompletionsCreate _ k => forall r, returns_all P (k r)
  | EmbeddingsCreate _ k => forall r, returns_all P (k r)
  | SetTimeout _ k => returns_all P k
  end.

(** The program never throws, whatever the providers answer. *)
Fixpoint never_throws {A : Type} (p : Prog A) : Prop :=
  match p with
  | Ret _ => True
  | Throw _ => False
  | ChatCompletionsCreate _ k => forall r, never_throws (k r)
  | EmbeddingsCreate _ k => forall r, never_throws (k r)
  | SetTimeout _ k => never_throws k
  end.

(** Providers that answer each request by its content. *)
Record Providers : Type := mkProviders {
  chatAnswer : string -> Exn + list (option string);
  embeddingAnswer : JSON -> Exn + list Q
}.

(** Running a program against given providers. *)
Fixpoint run {A : Type} (env : Providers) (p : Prog A) : Exn + A :=
  match p with
  | Ret a => inr a
  | Throw e => inl e
  | ChatCompletionsCreate q k => run env (k (chatAnswer env q))
  | EmbeddingsCreate x k => run env (k (embeddingAnswer env x))
  | SetTimeout _ k => run env k
  end.

(** The provider calls a run makes, in order. *)
Inductive Call : Type :=
| CallChat (userContent : string)
| CallEmbedding (input : JSON)
| CallTimer (delay : Z).

Fixpoint calls {A : Type} (env : Providers) (p : Prog A) : list Call :=
  match p with
  | Ret _ | Throw _ => []
  | ChatCompletionsCreate q k => CallChat q :: calls env (k (chatAnswer env q))
  | EmbeddingsCreate x k => CallEmbedding x :: calls env (k (embeddingAnswer env x))
  | SetTimeout d k => CallTimer d :: calls env k
  end.

(* ================================================================= *)
(** ** rag.ts: embedding generation and query enhancement *)

Definition maxRetries : Z := 3.

(** The retry loop of [generateEmbedding] from attempt number [attempt],
    with [remaining] iterations left. *)
Fixpoint generateEmbeddingFrom (remaining : nat) (attempt delay : Z) (text : JSON)
  : Prog (list Q) :=
  match remaining with
  | O => Throw RetriesExhausted
  | S remaining' =>
      EmbeddingsCreate text (fun answer =>
        match answer with
        | inr embedding => Ret embedding
        | inl error =>
            if (match statusOf error with Some s => (s =? 429)%Z | None => false end
                && (attempt <? maxRetries - 1)%Z)%bool
            then SetTimeout delay
                   (generateEmbeddingFrom remaining' (attempt + 1) (delay * 2) text)
            else Throw error
        end)
  end.

Definition generateEmbedding (text : JSON) : Prog (list Q) :=
  generateEmbeddingFrom (Z.to_nat maxRetries) 0 1000 text.

(** Truthiness of a value. *)
Definition truthy (v : JSON) : bool :=
  match v with
  | JNull => false
  | JBool b => b
  | JNum q => negb (Qeq_bool q 0)
  | JStr s => JSString.truthy s
  | JArr _ | JObj _ => true
  end.

(** [v.name] for a data property name that no prototype defines
    ("variations", "queries"): [None] is [undefined]; reading a property
    of [null] throws. *)
Definition getProperty (v : JSON) (name : string) : Exn + option JSON :=
  match v with
  | JNull => inl TypeError
  | JObj fields => inr (JSMap.get name fields)
  | _ => inr None
  end.

(** [a || b] where either side may be [undefined]. *)
Definition orElse (a b : option JSON) : option JSON :=
  match a with
  | Some v => if truthy v then a else b
  | None => b
  end.

(** The elements spread by [...v.slice(0, 2)]: arrays and strings have a
    [slice] method, and a string spreads into its characters; on anything
    else [v.slice] is not a function. *)
Definition spreadSlice2 (v : JSON) : Exn + list JSON :=
  match v with
  | JArr elements => inr (firstn 2 elements)
  | JStr s =>
      inr (map (fun c => JStr (String c EmptyString))
             (list_ascii_of_string (JSString.sliceTo 2 s)))
  | _ => inl TypeError
  end.

(* ================================================================= *)
(** ** rag.ts: constants and helpers of the BM25 keyword search *)

Definition k1 : Q := 1.2.
Definition b : Q := 0.75.

Definition ofNat (n : nat) : Q := inject_Z (Z.of_nat n).

(** [query.toLowerCase().split(/\s+/).filter(t => t.length > 2)] *)
Definition queryTermsOf (query : string) : list string :=
  filter (fun t => (2 <? String.length t)%nat)
    (JSString.splitWhitespace (JSString.toLowerCase query)).

(** [chunks.reduce((sum, c) => sum + c.content.length, 0) / chunks.length] *)
Definition avgDLOf (chunks : list Chunk) : Q :=
  ofNat (fold_left (fun sum c => (sum + String.length (content c))%nat) chunks O)
  / ofNat (length chunks).

(** [dl / avgDL]; [None] is NaN.  [avgDL] is zero only when every chunk
    is empty, and then [dl] is zero as well: the quotient is [0 / 0]. *)
Definition lengthRatio (dl avgDL : Q) : option Q :=
  if Qeq_bool avgDL 0 then None else Some (dl / avgDL).

(** The summand of one query term, for [tf] matches. *)
Definition termContribution (idfValue : Q) (tf : nat) (ratio : Q) : Q :=
  idfValue * ((ofNat tf * (k1 + 1)) / (ofNat tf + k1 * (1 - b + b * ratio))).

(** [score > 0], false for NaN. *)
Definition positive (score : option Q) : bool :=
  match score with Some s => Qlt_bool 0 s | None => false end.

(** Whether [content.toLowerCase()] includes [term]. *)
Definition containsTerm (term : string) (c : Chunk) : bool :=
  JSString.includes (JSString.toLowerCase (content c)) term.

Section Retrieval.
Context {host : Host}.

(** [response.choices[0].message.content || "{}"]; reading [message] of
    a missing first choice throws. *)
Definition contentText (response : list (option string)) : Exn + string :=
  match response with
  | [] => inl TypeError
  | content :: _ =>
      inr (match content with
           | Some s => if JSString.truthy s then s else "{}"
           | None => "{}"
           end)
  end.

(** [result.variations || result.queries || []] *)
Definition selectVariations (result : JSON) : Exn + JSON :=
  match getProperty result "variations", getProperty result "queries" with
  | inr a, inr b =>
      inr (match orElse a b with
           | Some v => if truthy v then v else JArr []
           | None => JArr []
           end)
  | inl e, _ => inl e
  | _, inl e => inl e
  end.

(** The body of the [try] block of [enhanceQuery]. *)
Definition parseVariations (query : string) (response : list (option string))
  : Exn + list JSON :=
  match contentText response with
  | inl e => inl e
  | inr text =>
      match JSON_parse text with
      | None => inl SyntaxError
      | Some result =>
          match selectVariations result with
          | inl e => inl e
          | inr variations =>
              match spreadSlice2 variations with
              | inr vs => inr (JStr query :: vs)
              | inl e => inl e
              end
          end
      end
  end.

Definition enhanceQuery (query : string) : Prog (list JSON) :=
  ChatCompletionsCreate query (fun answer =>
    match answer with
    | inl e => Throw e
    | inr response =>
        match parseVariations query response with
        | inr variations => Ret variations
        | inl _ => Ret [JStr query]
        end
    end).

(* ----------------------------------------------------------------- *)
(** BM25 keyword search and hybrid retrieval *)

(** One iteration of the loop that fills [idf]. *)
Definition idfStep (chunks : list Chunk) (idf : JSMap.t Q) (term : string) : JSMap.t Q :=
  let df := ofNat (length (filter (containsTerm term) chunks)) in
  JSMap.set term
    (Math_log ((ofNat (length chunks) - df + 0.5) / (df + 0.5) + 1)) idf.

(** One iteration of [for (const term of queryTerms)] inside the scoring
    loop; the accumulated [score] is [None] when it is NaN, and the
    iteration throws when the term is not a regular expression. *)
Definition scoreStep (idf : JSMap.t Q) (avgDL : Q) (content : string)
  (acc : Exn + option Q) (term : string) : Exn + option Q :=
  match acc with
  | inl e => inl e
  | inr score =>
      match RegExp_matchCount term content with
      | None => inl SyntaxError
      | Some tf =>
          let idfValue := match JSMap.get term idf with Some v => v | None => 0 end in
          let dl := ofNat (String.length content) in
          inr (match score, lengthRatio dl avgDL with
               | Some s, Some ratio => Some (s + termContribution idfValue tf ratio)
               | _, _ => None
               end)
      end
  end.

(** The summed contribution of a chunk. *)
Definition chunkScore (idf : JSMap.t Q) (avgDL : Q) (queryTerms : list string)
  (chunk : Chunk) : Exn + option Q :=
  fold_left (scoreStep idf avgDL (JSString.toLowerCase (content chunk)))
    queryTerms (inr (Some 0)).

(** One iteration of [for (const chunk of chunks)]. *)
Definition bm25Step (idf : JSMap.t Q) (avgDL : Q) (queryTerms : list string)
  (acc : Exn + JSMap.t Q) (chunk : Chunk) : Exn + JSMap.t Q :=
  match acc with
  | inl e => inl e
  | inr scores =>
      match chunkScore idf avgDL queryTerms chunk with
      | inl e => inl e
      | inr score =>
          inr (if positive score
               then JSMap.set (id chunk) (match score with Some s => s | None => 0 end) scores
               else scores)
      end
  end.

(** The [idf] map of the query terms. *)
Definition idfOf (queryTerms : list string) (chunks : list Chunk) : JSMap.t Q :=
  fold_left (idfStep chunks) queryTerms JSMap.empty.

Definition bm25Search (query : string) (chunks : list Chunk) (topK : Z)
  : Exn + JSMap.t Q :=
  let queryTerms := queryTermsOf query in
  let avgDL := avgDLOf chunks in
  let idf := idfOf queryTerms chunks in
  fold_left (bm25Step idf avgDL queryTerms) chunks (inr JSMap.empty).

(** The summed term contribution of a chunk of the corpus, as the
    scoring loop computes it. *)
Definition summedContribution (query : string) (chunks : list Chunk) (chunk : Chunk)
  : Exn + option Q :=
  chunkScore (idfOf (queryTermsOf query) chunks) (avgDLOf chunks)
    (queryTermsOf query) chunk.

(** The entries of [combinedScores]. *)
Record Scores : Type := mkScores {
  s_vector : Q;
  s_bm25 : Q;
  s_combined : Q
}.

(** [m.get(k) || 0] *)
Definition getOrZero (k : string) (m : JSMap.t Q) : Q :=
  match JSMap.get k m with Some v => v | None => 0 end.

(** The body of [for (const result of results)] in the vector search. *)
Definition mergeResult (vectorScores : JSMap.t Q) (result : RetrievedChunk) : JSMap.t Q :=
  let existing := getOrZero (r_id result) vectorScores in
  JSMap.set (r_id result) (Qmax existing (vectorScore result)) vectorScores.

(** The body of [for (const embedding of queryEmbeddings)]. *)
Definition mergeVariant (st : MemStorage) (topK : Z) (vectorScores : JSMap.t Q)
  (embedding : list Q) : JSMap.t Q :=
  fold_left mergeResult (searchChunksByEmbedding st embedding (topK * 2)) vectorScores.

Definition vectorWeightOf (useVectorSearch : bool) : Q :=
  if useVectorSearch then 0.6 else 0.
Definition bm25WeightOf (useVectorSearch : bool) : Q :=
  if useVectorSearch then 0.4 else 1.0.

(** The body of the loop that fills [combinedScores]. *)
Definition combineStep (vectorScores bm25Scores : JSMap.t Q)
  (combinedScores : JSMap.t Scores) (chunk : Chunk) : JSMap.t Scores :=
  let maxVectorScore := maxWithFloor (JSMap.values vectorScores) 0.001 in
  let maxBM25Score := maxWithFloor (JSMap.values bm25Scores) 0.001 in
  let useVectorSearch := (0 <? JSMap.size vectorScores)%nat in
  let vectorScore :=
    if useVectorSearch then getOrZero (id chunk) vectorScores / maxVectorScore else 0 in
  let bm25Score := getOrZero (id chunk) bm25Scores / maxBM25Score in
  let combined :=
    vectorWeightOf useVectorSearch * vectorScore + bm25WeightOf useVectorSearch * bm25Score in
  if Qlt_bool 0 combined
  then JSMap.set (id chunk)
         {| s_vector := vectorScore; s_bm25 := bm25Score; s_combined := combined |}
         combinedScores
  else combinedScores.

(** The metadata boost: 1.0 plus 0.1 for every stored keyword that the
    lowercased query includes. *)
Definition boostOf (query : string) (metadata : option ChunkMetadata) : Q :=
  match metadata with
  | Some m =>
      fold_left
        (fun boost keyword =>
           if JSString.includes (JSString.toLowerCase query) keyword
           then boost + 0.1 else boost)
        (keywords m) 1.0
  | None => 1.0
  end.

(** The body of [for (const [chunkId, scores] of combinedScores)]. *)
Definition rerankStep (allChunks : list Chunk) (query : string)
  (rerankedResults : list RetrievedChunk) (entry : string * Scores)
  : list RetrievedChunk :=
  let (chunkId, scores) := entry in
  match find (fun c => String.eqb (id c) chunkId) allChunks with
  | None => rerankedResults
  | Some chunk =>
      let boost := boostOf query (metadata chunk) in
      rerankedResults ++
      [ {| r_id := id chunk;
           r_content := content chunk;
           r_documentId := documentId chunk;
           r_metadata := metadata chunk;
           vectorScore := s_vector scores;
           bm25Score := s_bm25 scores;
           combinedScore := Qmin (s_combined scores * boost) 1.0 |} ]
  end.

(** The candidates before sorting: steps 5 and 7 of [hybridRetrieval]. *)
Definition rerank (vectorScores bm25Scores : JSMap.t Q) (allChunks : list Chunk)
  (query : string) : list RetrievedChunk :=
  let combinedScores :=
    fold_left (combineStep vectorScores bm25Scores) allChunks JSMap.empty in
  fold_left (rerankStep allChunks query) combinedScores [].

(** The vector search of step 3, with its fallback. *)
Definition vectorSearch (st : MemStorage) (allChunks : list Chunk)
  (queryVariations : list JSON) (topK : Z) : Prog (JSMap.t Q) :=
  if existsb hasEmbedding allChunks then
    tryCatch
      (queryEmbeddings <- promiseAll generateEmbedding queryVariations ;;
       ret (fold_left (mergeVariant st topK) queryEmbeddings JSMap.empty))
      (fun _ => Ret JSMap.empty)
  else Ret JSMap.empty.

Definition hybridRetrieval (st : MemStorage) (query : string) (topK : Z)
  : Prog (list RetrievedChunk) :=
  let allChunks := getChunks st in
  if (length allChunks =? 0)%nat then Ret []
  else
    queryVariations <- tryCatch (enhanceQuery query) (fun _ => Ret [JStr query]) ;;
    vectorScores <- vectorSearch st allChunks queryVariations topK ;;
    bm25Scores <- liftResult (bm25Search query allChunks (topK * 2)) ;;
    ret (slice0 topK
           (sortDesc combinedScore (rerank vectorScores bm25Scores allChunks query))).

End Retrieval.

(* ================================================================= *)
(** ** A host to run the model on concrete inputs *)

(** Regular expressions made of ordinary characters and [.] only, with
    the flags [gi]: on these, [new RegExp(term, "gi")] never throws, an
    ordinary character matches itself up to case, and [.] matches every
    character but a line terminator.  Every match has the length of the
    pattern, and a global match restarts after the end of the previous
    match. *)
Module RegExpFragment.

Definition isSyntaxCharacter (c : ascii) : bool :=
  existsb (Ascii.eqb c) (list_ascii_of_string "^$\.*+?()[]{}|").

Definition isDot (c : ascii) : bool := (nat_of_ascii c =? 46)%nat.

Definition isLineTerminator (c : ascii) : bool :=
  (nat_of_ascii c =? 10)%nat || (nat_of_ascii c =? 13)%nat.

Definition supported (pattern : string) : bool :=
  JSString.truthy pattern &&
  forallb (fun c => isDot c || negb (isSyntaxCharacter c)) (list_ascii_of_string pattern).

Definition matchChar (p c : ascii) : bool :=
  if isDot p then negb (isLineTerminator c)
  else Ascii.eqb (JSString.lowerChar p) (JSString.lowerChar c).

(** Whether the pattern matches at the start of [s]. *)
Fixpoint matchHere (pattern s : string) : bool :=
  match pattern, s with
  | EmptyString, _ => true
  | String p pattern', String c s' => matchChar p c && matchHere pattern' s'
  | String _ _, EmptyString => false
  end.

(** The number of matches of a global search in [s]; [skip] characters
    of [s] belong to the previous match. *)
Fixpoint countFrom (pattern : string) (skip : nat) (s : string) : nat :=
  match s with
  | EmptyString => O
  | String _ s' =>
      match skip with
      | S skip' => countFrom pattern skip' s'
      | O =>
          if matchHere pattern s
          then S (countFrom pattern (String.length pattern - 1) s')
          else countFrom pattern O s'
      end
  end.

Definition matchCount (pattern s : string) : option nat :=
  if supported pattern then Some (countFrom pattern O s) else None.

End RegExpFragment.

(** The double quote, for JSON texts. *)
Definition dq : string := String (ascii_of_nat 34) EmptyString.

(** [{"variations":"ab"}] *)
Definition textVariationsString : string :=
  "{" ++ dq ++ "variations" ++ dq ++ ":" ++ dq ++ "ab" ++ dq ++ "}".

(** [{"variations":["p1","p2","p3"]}] *)
Definition textVariationsList : string :=
  "{" ++ dq ++ "variations" ++ dq ++ ":[" ++ dq ++ "p1" ++ dq ++ "," ++ dq ++ "p2"
      ++ dq ++ "," ++ dq ++ "p3" ++ dq ++ "]}".

(** [JSON.parse] on the three texts used below; any other text is taken
    as unparseable. *)
Definition sampleParse (text : string) : option JSON :=
  if String.eqb text "{}" then Some (JObj [])
  else if String.eqb text textVariationsString
  then Some (JObj [("variations", JStr "ab")])
  else if String.eqb text textVariationsList
  then Some (JObj [("variations", JArr [JStr "p1"; JStr "p2"; JStr "p3"])])
  else None.

(** The square root of a rational whose numerator and denominator are
    perfect squares; the integer square roots otherwise. *)
Definition sampleSqrt (x : Q) : Q :=
  Z.sqrt (Qnum x) # Pos.sqrt (Qden x).

(** A rational stand-in for the natural logarithm with its sign:
    [1 - 1/x], which is a lower bound of [ln x] for positive [x]. *)
Definition sampleLog (x : Q) : Q := 1 - / x.

Definition sampleHost : Host :=
  {| Math_log := sampleLog;
     Math_sqrt := sampleSqrt;
     RegExp_matchCount := RegExpFragment.matchCount;
     JSON_parse := sampleParse |}.

(** The logarithm of a host is positive above 1. *)
Definition log_positive (host : Host) : Prop :=
  forall x : Q, 1 < x -> 0 < Math_log x.

(* ================================================================= *)
(** ** Vocabulary of the statements *)

(** What the fusion loop stores in [combinedScores]. *)
Definition entry_ok (useVectorSearch : bool) (s : Scores) : Prop :=
  (0 <= s_vector s /\ s_vector s <= 1) /\
  (0 <= s_bm25 s /\ s_bm25 s <= 1) /\
  0 < s_combined s /\
  s_combined s =
    vectorWeightOf useVectorSearch * s_vector s + bm25WeightOf useVectorSearch * s_bm25 s /\
  (useVectorSearch = false -> s_vector s = 0).

(** What the fusion and reranking steps establish for a result when the
    vector search was used ([useVectorSearch]) or not. *)
Definition fused (query : string) (useVectorSearch : bool) (r : RetrievedChunk) : Prop :=
  let combined :=
    vectorWeightOf useVectorSearch * vectorScore r
    + bm25WeightOf useVectorSearch * bm25Score r in
  (0 <= vectorScore r /\ vectorScore r <= 1) /\
  (0 <= bm25Score r /\ bm25Score r <= 1) /\
  0 < combined /\
  combinedScore r = Qmin (combined * boostOf query (r_metadata r)) 1.0 /\
  (useVectorSearch = false -> vectorScore r = 0).

(** [x] occurs before [y] in [l]. *)
Definition precedes {A : Type} (x y : A) (l : list A) : Prop :=
  exists l1 l2 l3, l = l1 ++ x :: l2 ++ y :: l3.

(** [l1] is [l2] with some elements left out. *)
Inductive subseq {A : Type} : list A -> list A -> Prop :=
| subseq_nil : subseq [] []
| subseq_skip (x : A) (l1 l2 : list A) : subseq l1 l2 -> subseq l1 (x :: l2)
| subseq_keep (x : A) (l1 l2 : list A) : subseq l1 l2 -> subseq (x :: l1) (x :: l2).

(** No chunk of the corpus has a non-empty embedding. *)
Definition noEmbeddings (st : MemStorage) : Prop :=
  Forall (fun c => hasEmbedding c = false) (getChunks st).

(** The spans of a chunk list that starts at 0 and leaves no gap: every
    further span starts at or before the end reached so far and ends at or
    after it.  [chain spans e] says so and that [e] is the end reached. *)
Inductive chain : list (Z * Z) -> Z -> Prop :=
| chain_first (e : Z) : (0 <= e)%Z -> chain [(0, e)%Z] e
| chain_next (spans : list (Z * Z)) (reached s e : Z) :
    chain spans reached -> (0 <= s)%Z -> (s <= reached)%Z -> (reached <= e)%Z ->
    chain (spans ++ [(s, e)]) e.

(** The invariant of the loop of [chunkDocument]: the emitted spans chain
    up to an end that the current buffer reaches. *)
Definition chunkerInvariant (st : ChunkerState) : Prop :=
  (cs_chunks st = [] /\ cs_startPosition st = 0%Z) \/
  (exists reached,
     chain (map span (cs_chunks st)) reached /\
     (0 <= cs_startPosition st)%Z /\
     (cs_startPosition st <= reached)%Z /\
     (reached <= cs_startPosition st + strlen (cs_currentChunk st))%Z).

(* ================================================================= *)
(** ** Sample data *)

(** A stored chunk without embedding whose keywords are the ones the
    chunker extracts from its text. *)
Definition sampleChunk (uuid docId text : string) (index : Z) : Chunk :=
  {| id := uuid; documentId := docId; content := text; chunkIndex := index;
     embedding := None;
     metadata :=
       Some {| documentTitle := "Pit stops"; documentType := article;
               source := None; startPosition := 0; endPosition := strlen text;
               keywords := extractKeywords text |} |}.

Definition chunkA : Chunk := sampleChunk "a" "d1" "stop in the pit" 0.
Definition chunkB : Chunk := sampleChunk "b" "d1" "a pit stop is slow" 1.
Definition chunkM : Chunk := sampleChunk "m" "d2" "pit stop pit stop" 0.

Definition sampleDocument (uuid : string) : Document :=
  {| doc_id := uuid; doc_title := "Pit stops"; doc_content := "";
     doc_type := article; doc_source := None; doc_url := None |}.

Definition sampleStorage : MemStorage :=
  {| documents := [("d1", sampleDocument "d1"); ("d2", sampleDocument "d2")];
     chunks := [("a", chunkA); ("b", chunkB); ("m", chunkM)] |}.

Definition emptyStorage : MemStorage := {| documents := []; chunks := [] |}.

(** Providers that reject every request. *)
Definition failingProviders : Providers :=
  {| chatAnswer := fun _ => inl (ApiError 500);
     embeddingAnswer := fun _ => inl (ApiError 500) |}.


(** A sentence of 300 characters, and a document of two such sentences
    separated by one space: 601 characters. *)
Definition longSentence : string := JSString.repeat "a" 299 ++ ".".

Definition twoSentenceDocument : Document :=
  {| doc_id := "d3"; doc_title := "Two sentences";
     doc_content := longSentence ++ " " ++ longSentence;
     doc_type := article; doc_source := None; doc_url := None |}.

(** Two short sentences separated by two spaces. *)
Definition doubleSpaceDocument : Document :=
  {| doc_id := "d4"; doc_title := "Two spaces"; doc_content := "A.  B.";
     doc_type := article; doc_source := None; doc_url := None |}.

(** A chunk that mentions tires, and a query that ends in a full stop. *)
Definition tiresChunk : Chunk := sampleChunk "t" "d5" "Tires wear" 0.
Definition tiresQuery : string := "Tires.".

(** A text-generation provider that answers [{"variations":"ab"}]. *)
Definition stringVariationProviders : Providers :=
  {| chatAnswer := fun _ => inr [Some textVariationsString];
     embeddingAnswer := fun _ => inl (ApiError 500) |}.

(* ================================================================= *)
(** ** storage.ts: writing chunks *)

(** [createChunk(chunk)], with the identifier that [randomUUID()]
    returns as an argument; the result is the stored chunk and the
    storage after the call. *)
Definition createChunk (st : MemStorage) (uuid : string) (chunk : InsertChunk)
  : Chunk * MemStorage :=
  let newChunk :=
    {| id := uuid;
       documentId := ins_documentId chunk;
       content := ins_content chunk;
       chunkIndex := ins_chunkIndex chunk;
       embedding := ins_embedding chunk;
       metadata := ins_metadata chunk |} in
  (newChunk,
   {| documents := documents st; chunks := JSMap.set uuid newChunk (chunks st) |}).

(** [chunk.embedding = embedding] on a stored chunk. *)
Definition withEmbedding (chunk : Chunk) (e : list Q) : Chunk :=
  {| id := id chunk;
     documentId := documentId chunk;
     content := content chunk;
     chunkIndex := chunkIndex chunk;
     embedding := Some e;
     metadata := metadata chunk |}.

(** [updateChunkEmbedding(id, embedding)]: nothing happens when no chunk
    is stored under [id]. *)
Definition updateChunkEmbedding (st : MemStorage) (chunkId : string) (e : list Q)
  : MemStorage :=
  match JSMap.get chunkId (chunks st) with
  | Some chunk =>
      {| documents := documents st;
         chunks := JSMap.set chunkId (withEmbedding chunk e) (chunks st) |}
  | None => st
  end.

(* ================================================================= *)
(** ** rag.ts: document processing and embedding initialization *)

(** The body of a loop iteration that embeds the text of a stored chunk
    and attaches the embedding, the failure being logged and dropped:
    [try { embedding = await generateEmbedding(content);
           await storage.updateChunkEmbedding(id, embedding) } catch {}]. *)
Definition embedChunk (st : MemStorage) (chunkId text : string) : Prog MemStorage :=
  tryCatch
    (Prog_bind (generateEmbedding (JStr text))
       (fun e => Ret (updateChunkEmbedding st chunkId e)))
    (fun _ => Ret st).

(** The loop of [processDocument] over the chunks still to store;
    [uuids n] is what the [n]-th call of [randomUUID()] returns. *)
Fixpoint storeChunks (uuids : nat -> string) (n : nat) (st : MemStorage)
  (pending : list InsertChunk) : Prog MemStorage :=
  match pending with
  | [] => Ret st
  | chunk :: pending' =>
      let (createdChunk, st1) := createChunk st (uuids n) chunk in
      Prog_bind (embedChunk st1 (id createdChunk) (content createdChunk))
        (fun st2 => storeChunks uuids (S n) st2 pending')
  end.

(** [processDocument(document)], and [processExistingDocument], which
    only calls it. *)
Definition processDocument (uuids : nat -> string) (st : MemStorage)
  (document : Document) : Prog MemStorage :=
  storeChunks uuids O st (chunkDocument document).

Definition processExistingDocument (uuids : nat -> string) (st : MemStorage)
  (document : Document) : Prog MemStorage :=
  processDocument uuids st document.

(** The loop of [initializeEmbeddings] over the chunks still to embed. *)
Fixpoint embedChunks (st : MemStorage) (pending : list Chunk) : Prog MemStorage :=
  match pending with
  | [] => Ret st
  | chunk :: pending' =>
      Prog_bind (embedChunk st (id chunk) (content chunk))
        (fun st' => embedChunks st' pending')
  end.

Definition initializeEmbeddings (st : MemStorage) : Prog MemStorage :=
  embedChunks st (filter (fun c => negb (hasEmbedding c)) (getChunks st)).

(* ================================================================= *)
(** ** rag.ts: response generation *)

Record SourceCitation : Type := mkSourceCitation {
  sc_documentId : string;
  sc_chunkId : string;
  sc_title : string;
  sc_excerpt : string;
  sc_relevanceScore : Q;
  sc_type : DocumentType
}.

(** [content.slice(0, 200) + (content.length > 200 ? "..." : "")] *)
Definition excerptOf (text : string) : string :=
  JSString.sliceTo 200 text ++ (if (200 <? String.length text)%nat then "..." else "").

(** One source citation; reading [chunk.metadata.documentTitle] throws
    when the stored metadata is null. *)
Definition citationOf (chunk : RetrievedChunk) : Exn + SourceCitation :=
  match r_metadata chunk with
  | None => inl TypeError
  | Some m =>
      inr {| sc_documentId := r_documentId chunk;
             sc_chunkId := r_id chunk;
             sc_title := documentTitle m;
             sc_excerpt := excerptOf (r_content chunk);
             sc_relevanceScore := combinedScore chunk;
             sc_type := documentType m |}
  end.

(** [retrievedChunks.map(chunk => ({ ... }))] *)
Fixpoint sourcesOf (retrievedChunks : list RetrievedChunk) : Exn + list SourceCitation :=
  match retrievedChunks with
  | [] => inr []
  | chunk :: rest =>
      match citationOf chunk with
      | inl e => inl e
      | inr c =>
          match sourcesOf rest with
          | inl e => inl e
          | inr cs => inr (c :: cs)
          end
      end
  end.

Definition apology : string :=
  "I apologize, but I couldn't generate a response. Please try again.".

Record GeneratedResponse : Type := mkGeneratedResponse {
  response : string;
  sources : list SourceCitation
}.

(** [response.choices[0].message.content || apology] *)
Definition responseText (contentOfFirstChoice : option string) : string :=
  match contentOfFirstChoice with
  | Some s => if JSString.truthy s then s else apology
  | None => apology
  end.

(** [generateResponse(query, conversationHistory, retrievedChunks)].  The
    context and the citations read the metadata of every chunk before the
    provider is called.  The system message (the prompt with the context)
    and the history are part of the request; the event records the user
    content only. *)
Definition generateResponse (query : string) (retrievedChunks : list RetrievedChunk)
  : Prog GeneratedResponse :=
  match sourcesOf retrievedChunks with
  | inl e => Throw e
  | inr citations =>
      ChatCompletionsCreate query (fun answer =>
        match answer with
        | inl e => Throw e
        | inr [] => Throw TypeError
        | inr (contentOfFirstChoice :: _) =>
            Ret {| response := responseText contentOfFirstChoice;
                   sources := citations |}
        end)
  end.

(* ================================================================= *)
(** ** storage.ts: conversations and messages *)

Inductive Role : Type := roleUser | roleAssistant.

Record Conversation : Type := mkConversation {
  conv_id : string;
  conv_title : string;
  conv_createdAt : option Z
}.

Record InsertMessage : Type := mkInsertMessage {
  im_conversationId : string;
  im_role : Role;
  im_content : string;
  im_sources : option (list SourceCitation)
}.

Record Message : Type := mkMessage {
  msg_id : string;
  msg_conversationId : string;
  msg_role : Role;
  msg_content : string;
  msg_sources : option (list SourceCitation);
  msg_createdAt : option Z
}.

(** The maps of [MemStorage] that hold the chat; the operations on them
    read and write no other map.  A date is its time in milliseconds. *)
Record ChatStorage : Type := mkChatStorage {
  conversations : JSMap.t Conversation;
  messages : JSMap.t Message
}.

(** [new Date(createdAt || 0).getTime()] *)
Definition timeOf (createdAt : option Z) : Z :=
  match createdAt with Some t => t | None => 0%Z end.

(** [arr.sort(compare)]: the stable sort; an element moves behind a
    later one only when the comparator is positive on the pair. *)
Fixpoint insertBy {A : Type} (compare : A -> A -> Z) (x : A) (l : list A) : list A :=
  match l with
  | [] => [x]
  | y :: l' =>
      if (0 <? compare x y)%Z then y :: insertBy compare x l' else x :: l
  end.

Definition sortBy {A : Type} (compare : A -> A -> Z) (l : list A) : list A :=
  fold_right (insertBy compare) [] l.

(** [createMessage(message)], with the identifier of [randomUUID()] and
    the time of [new Date()] as arguments. *)
Definition createMessage (st : ChatStorage) (uuid : string) (now : Z)
  (message : InsertMessage) : Message * ChatStorage :=
  let msg :=
    {| msg_id := uuid;
       msg_conversationId := im_conversationId message;
       msg_role := im_role message;
       msg_content := im_content message;
       msg_sources := im_sources message;
       msg_createdAt := Some now |} in
  (msg, {| conversations := conversations st;
           messages := JSMap.set uuid msg (messages st) |}).

Definition getMessages (st : ChatStorage) (conversationId : string) : list Message :=
  sortBy (fun a c => (timeOf (msg_createdAt a) - timeOf (msg_createdAt c))%Z)
    (filter (fun msg => String.eqb (msg_conversationId msg) conversationId)
       (JSMap.values (messages st))).

Definition getConversations (st : ChatStorage) : list Conversation :=
  sortBy (fun a c => (timeOf (conv_createdAt c) - timeOf (conv_createdAt a))%Z)
    (JSMap.values (conversations st)).

(** One iteration of [for (const [msgId, msg] of this.messages)]. *)
Definition deleteIfInConversation (conversationId : string) (m : JSMap.t Message)
  (entry : string * Message) : JSMap.t Message :=
  let (msgId, msg) := entry in
  if String.eqb (msg_conversationId msg) conversationId then JSMap.delete msgId m else m.

Definition deleteConversation (st : ChatStorage) (conversationId : string) : ChatStorage :=
  {| conversations := JSMap.delete conversationId (conversations st);
     messages :=
       fold_left (deleteIfInConversation conversationId) (messages st) (messages st) |}.

(* ================================================================= *)
(** ** More vocabulary *)

(** [P] holds of every exception the program can throw, whatever the
    providers answer. *)
Fixpoint throws_all {A : Type} (P : Exn -> Prop) (p : Prog A) : Prop :=
  match p with
  | Ret _ => True
  | Throw e => P e
  | ChatCompletionsCreate _ k => forall r, throws_all P (k r)
  | EmbeddingsCreate _ k => forall r, throws_all P (k r)
  | SetTimeout _ k => throws_all P k
  end.

(** The program calls the providers at most [n] times, whatever they
    answer. *)
Fixpoint callsAtMost {A : Type} (n : nat) (p : Prog A) : Prop :=
  match p with
  | Ret _ | Throw _ => True
  | ChatCompletionsCreate _ k =>
      match n with O => False | S n' => forall r, callsAtMost n' (k r) end
  | EmbeddingsCreate _ k =>
      match n with O => False | S n' => forall r, callsAtMost n' (k r) end
  | SetTimeout _ k => callsAtMost n k
  end.

(** The timers the program awaits add up to at most [ms] milliseconds,
    whatever the providers answer. *)
Fixpoint waitsAtMost {A : Type} (ms : Z) (p : Prog A) : Prop :=
  match p with
  | Ret _ | Throw _ => (0 <= ms)%Z
  | ChatCompletionsCreate _ k => forall r, waitsAtMost ms (k r)
  | EmbeddingsCreate _ k => forall r, waitsAtMost ms (k r)
  | SetTimeout d k => waitsAtMost (ms - d) k
  end.

(** A retrieved chunk without metadata. *)
Definition chunkWithoutMetadata : RetrievedChunk :=
  {| r_id := "c1"; r_content := "Soft tires degrade."; r_documentId := "d1";
     r_metadata := None; vectorScore := 0; bm25Score := 0; combinedScore := 0 |}.


(** [entry] is what [createChunk] stores for the pending chunk: the
    pending chunk's fields under the chunk's own identifier.  The
    embedding is not constrained. *)
Definition storedAs (pending : InsertChunk) (entry : string * Chunk) : Prop :=
  id (snd entry) = fst entry /\
  documentId (snd entry) = ins_documentId pending /\
  content (snd entry) = ins_content pending /\
  chunkIndex (snd entry) = ins_chunkIndex pending /\
  metadata (snd entry) = ins_metadata pending.

(** Every chunk is stored under its own identifier, as [createChunk]
    stores it. *)
Definition keyedById (m : JSMap.t Chunk) : Prop :=
  Forall (fun entry => id (snd entry) = fst entry) m.

(** [new] is the entry [old], possibly with another embedding, which is
    allowed only for the keys that satisfy [touched]. *)
Definition reembedded (touched : string -> Prop) (old new : string * Chunk) : Prop :=
  fst new = fst old /\
  (snd new = snd old \/
   (touched (fst old) /\ exists e, snd new = withEmbedding (snd old) e)).


(** Identifiers that differ from each other: [n + 1] letters for the
    [n]-th one. *)
Definition sampleUuids (n : nat) : string := JSString.repeat "u" (S n).


(** [new] is the entry [old] under the same key, either unchanged or,
    when [old] has no non-empty embedding, with an embedding attached. *)
Definition embeddingAdded (old new : string * Chunk) : Prop :=
  fst new = fst old /\
  (snd new = snd old \/
   (hasEmbedding (snd old) = false /\ exists e, snd new = withEmbedding (snd old) e)).


(* ================================================================= *)
(** ** storage.ts: creating and reading a conversation *)

Record InsertConversation : Type := mkInsertConversation {
  ic_title : string
}.

(** [createConversation(conv)], with the identifier of [randomUUID()]
    and the time of [new Date()] as arguments. *)
Definition createConversation (st : ChatStorage) (uuid : string) (now : Z)
  (conv : InsertConversation) : Conversation * ChatStorage :=
  let conversation :=
    {| conv_id := uuid; conv_title := ic_title conv; conv_createdAt := Some now |} in
  (conversation,
   {| conversations := JSMap.set uuid conversation (conversations st);
      messages := messages st |}).

Definition getConversation (st : ChatStorage) (conversationId : string)
  : option Conversation :=
  JSMap.get conversationId (conversations st).

(** A chat of two conversations; the messages of the first one were
    stored around a message of the second one. *)
Definition sampleMessage (uuid conversationId text : string) (time : Z) : Message :=
  {| msg_id := uuid; msg_conversationId := conversationId; msg_role := roleUser;
     msg_content := text; msg_sources := None; msg_createdAt := Some time |}.

Definition sampleChat : ChatStorage :=
  {| conversations :=
       [("k1", {| conv_id := "k1"; conv_title := "Monaco"; conv_createdAt := Some 10%Z |});
        ("k2", {| conv_id := "k2"; conv_title := "Tires"; conv_createdAt := Some 20%Z |})];
     messages :=
       [("m1", sampleMessage "m1" "k1" "Which tires?" 11%Z);
        ("m2", sampleMessage "m2" "k2" "When to pit?" 21%Z);
        ("m3", sampleMessage "m3" "k1" "And in the rain?" 12%Z)] |}.


(** The sample storage after the chunk [a] was given an embedding, and
    providers that answer every chat request with three variations and
    reject every embedding request with the given status. *)
Definition embeddedStorage : MemStorage := updateChunkEmbedding sampleStorage "a" [1; 0].

Definition rejectingProviders (status : Z) : Providers :=
  {| chatAnswer := fun _ => inr [Some textVariationsList];
     embeddingAnswer := fun _ => inl (ApiError status) |}.

(* ================================================================= *)
(** * Properties *)

(** ** Numbers *)

Lemma Qlt_bool_iff (a b : Q) : Qlt_bool a b = true <-> a < b.
Proof.
  unfold Qlt_bool. rewrite negb_true_iff.
  split; intro H.
  - apply Qnot_le_lt. intro Hle. apply Qle_bool_iff in Hle. congruence.
  - destruct (Qle_bool b a) eqn:E; [| reflexivity].
    apply Qle_bool_iff in E. exfalso. apply (Qlt_not_le _ _ H E).
Qed.

Lemma Qlt_bool_false_iff (a b : Q) : Qlt_bool a b = false <-> b <= a.
Proof.
  unfold Qlt_bool. rewrite negb_false_iff. apply Qle_bool_iff.
Qed.

Lemma maxWithFloor_floor (values : list Q) (floor : Q) :
  floor <= maxWithFloor values floor.
Proof.
  induction values as [| v values IH]; simpl.
  - apply Qle_refl.
  - eapply Qle_trans; [exact IH | apply Q.le_max_r].
Qed.

Lemma maxWithFloor_upper (values : list Q) (floor v : Q) :
  In v values -> v <= maxWithFloor values floor.
Proof.
  induction values as [| w values IH]; simpl; intros Hin.
  - contradiction.
  - destruct Hin as [-> | Hin].
    + apply Q.le_max_l.
    + eapply Qle_trans; [apply IH, Hin | apply Q.le_max_r].
Qed.

(** A non-negative number divided by a bound of it lies in [0, 1]. *)
Lemma normalized_bounds (x m : Q) :
  0 <= x -> x <= m -> 0 < m -> 0 <= x / m /\ x / m <= 1.
Proof.
  intros Hx Hxm Hm. split.
  - apply Qle_shift_div_l; [exact Hm |]. lra.
  - apply Qle_shift_div_r; [exact Hm |]. lra.
Qed.

(** ** Maps *)

Lemma JSMap_get_In {V : Type} (k : string) (m : JSMap.t V) (v : V) :
  JSMap.get k m = Some v -> In v (JSMap.values m).
Proof.
  induction m as [| [k' v'] m IH]; simpl; intros H.
  - discriminate.
  - destruct (String.eqb k k').
    + left. congruence.
    + right. auto.
Qed.

Lemma JSMap_values_set {V : Type} (P : V -> Prop) (k : string) (v : V) (m : JSMap.t V) :
  P v -> Forall P (JSMap.values m) -> Forall P (JSMap.values (JSMap.set k v m)).
Proof.
  intros Hv. induction m as [| [k' v'] m IH]; simpl; intros Hm.
  - constructor; [exact Hv | constructor].
  - inversion Hm as [| ? ? Hv' Hm']; subst.
    destruct (String.eqb k k'); simpl; constructor; auto.
Qed.

Lemma getOrZero_cases (k : string) (m : JSMap.t Q) :
  getOrZero k m = 0 \/ In (getOrZero k m) (JSMap.values m).
Proof.
  unfold getOrZero. destruct (JSMap.get k m) as [v |] eqn:E.
  - right. eapply JSMap_get_In; eauto.
  - left. reflexivity.
Qed.

(** ** Programs *)

Lemma returns_all_bind {A B : Type} (P : B -> Prop) (p : Prog A) (f : A -> Prog B) :
  returns_all (fun a => returns_all P (f a)) p -> returns_all P (Prog_bind p f).
Proof.
  induction p as [a | e | q k IH | x k IH | d k IH]; simpl; auto.
Qed.

Lemma returns_all_mono {A : Type} (P P' : A -> Prop) (p : Prog A) :
  (forall a, P a -> P' a) -> returns_all P p -> returns_all P' p.
Proof.
  intros HPP'. induction p as [a | e | q k IH | x k IH | d k IH]; simpl; auto.
Qed.

Lemma returns_all_any {A : Type} (P : A -> Prop) (p : Prog A) :
  (forall a, P a) -> returns_all P p.
Proof.
  intros HP. induction p as [a | e | q k IH | x k IH | d k IH]; simpl; auto.
Qed.

Lemma returns_all_tryCatch {A : Type} (P : A -> Prop) (p : Prog A) (h : Exn -> Prog A) :
  returns_all P p -> (forall e, returns_all P (h e)) -> returns_all P (tryCatch p h).
Proof.
  intros Hp Hh. induction p as [a | e | q k IH | x k IH | d k IH]; simpl in *; auto.
Qed.

Lemma run_returns_all {A : Type} (P : A -> Prop) (env : Providers) (p : Prog A) (a : A) :
  returns_all P p -> run env p = inr a -> P a.
Proof.
  induction p as [a' | e | q k IH | x k IH | d k IH]; simpl; intros HP Hrun.
  - congruence.
  - discriminate.
  - eapply IH; eauto.
  - eapply IH; eauto.
  - eapply IH; eauto.
Qed.

(** ** Vector and keyword score maps *)

Section RetrievalProperties.
Context {host : Host}.

Lemma mergeResult_nonneg (vectorScores : JSMap.t Q) (result : RetrievedChunk) :
  Forall (fun v => 0 <= v) (JSMap.values vectorScores) ->
  Forall (fun v => 0 <= v) (JSMap.values (mergeResult vectorScores result)).
Proof.
  intros Hvs. unfold mergeResult.
  apply JSMap_values_set; [| exact Hvs].
  eapply Qle_trans; [| apply Q.le_max_l].
  destruct (getOrZero_cases (r_id result) vectorScores) as [-> | Hin].
  - apply Qle_refl.
  - rewrite Forall_forall in Hvs. apply Hvs, Hin.
Qed.

Lemma mergeVariant_nonneg (st : MemStorage) (topK : Z) (embeddings : list (list Q))
  (vectorScores : JSMap.t Q) :
  Forall (fun v => 0 <= v) (JSMap.values vectorScores) ->
  Forall (fun v => 0 <= v)
    (JSMap.values (fold_left (mergeVariant st topK) embeddings vectorScores)).
Proof.
  revert vectorScores.
  induction embeddings as [| e embeddings IH]; simpl; intros vs Hvs; [exact Hvs |].
  apply IH. unfold mergeVariant.
  generalize (searchChunksByEmbedding st e (topK * 2)). intros results.
  revert vs Hvs. induction results as [| r results IHr]; simpl; intros vs Hvs.
  - exact Hvs.
  - apply IHr, mergeResult_nonneg, Hvs.
Qed.

Lemma vectorSearch_nonneg (st : MemStorage) (allChunks : list Chunk)
  (queryVariations : list JSON) (topK : Z) :
  returns_all
    (fun vs => Forall (fun v => 0 <= v) (JSMap.values vs) /\
               (existsb hasEmbedding allChunks = false -> vs = JSMap.empty))
    (vectorSearch st allChunks queryVariations topK).
Proof.
  unfold vectorSearch. destruct (existsb hasEmbedding allChunks); simpl.
  - apply returns_all_tryCatch.
    + apply returns_all_bind. apply returns_all_any. intros embeddings. simpl.
      split; [| discriminate].
      apply mergeVariant_nonneg. constructor.
    + intros e. simpl. split; [constructor | discriminate].
  - split; [constructor | reflexivity].
Qed.

Lemma positive_iff (score : option Q) :
  positive score = true <-> exists s, score = Some s /\ 0 < s.
Proof.
  destruct score as [s |]; simpl.
  - rewrite Qlt_bool_iff. split.
    + intros H. exists s. auto.
    + intros [s' [E H]]. congruence.
  - split; [discriminate | intros [s [E _]]; discriminate].
Qed.

Lemma bm25Step_positive (idf : JSMap.t Q) (avgDL : Q) (queryTerms : list string)
  (chunks : list Chunk) (acc : Exn + JSMap.t Q) (m : JSMap.t Q) :
  fold_left (bm25Step idf avgDL queryTerms) chunks acc = inr m ->
  (forall m0, acc = inr m0 -> Forall (fun v => 0 < v) (JSMap.values m0)) ->
  Forall (fun v => 0 < v) (JSMap.values m).
Proof.
  revert acc. induction chunks as [| c chunks IH]; simpl; intros acc Hfold Hacc.
  - apply Hacc, Hfold.
  - apply (IH _ Hfold). intros m0 Hstep.
    unfold bm25Step in Hstep.
    destruct acc as [e | scores]; [discriminate |].
    destruct (chunkScore idf avgDL queryTerms c) as [e | score]; [discriminate |].
    injection Hstep as <-.
    destruct (positive score) eqn:Hpos.
    + apply positive_iff in Hpos. destruct Hpos as [s [-> Hs]].
      apply JSMap_values_set; [exact Hs | apply Hacc; reflexivity].
    + apply Hacc. reflexivity.
Qed.

Lemma bm25Search_positive (query : string) (chunks : list Chunk) (topK : Z)
  (m : JSMap.t Q) :
  bm25Search query chunks topK = inr m -> Forall (fun v => 0 < v) (JSMap.values m).
Proof.
  unfold bm25Search. intros H.
  apply (bm25Step_positive _ _ _ _ _ _ H).
  intros m0 E. injection E as <-. constructor.
Qed.

End RetrievalProperties.

(** ** Sorting and slicing *)

Lemma insertDesc_Permutation {A : Type} (score : A -> Q) (x : A) (l : list A) :
  Permutation (insertDesc score x l) (x :: l).
Proof.
  induction l as [| y l IH]; simpl.
  - apply Permutation_refl.
  - destruct (Qlt_bool (score x) (score y)).
    + eapply perm_trans; [apply perm_skip, IH | apply perm_swap].
    + apply Permutation_refl.
Qed.

Lemma sortDesc_Permutation {A : Type} (score : A -> Q) (l : list A) :
  Permutation (sortDesc score l) l.
Proof.
  induction l as [| x l IH]; simpl.
  - apply perm_nil.
  - eapply perm_trans; [apply insertDesc_Permutation | apply perm_skip, IH].
Qed.

Lemma firstn_In {A : Type} (n : nat) (l : list A) (x : A) :
  In x (firstn n l) -> In x l.
Proof.
  revert l. induction n as [| n IH]; intros [| y l]; simpl; try contradiction.
  intros [-> | H]; [left; reflexivity | right; apply IH, H].
Qed.

Lemma slice0_In {A : Type} (k : Z) (l : list A) (x : A) :
  In x (slice0 k l) -> In x l.
Proof.
  unfold slice0. destruct (k <? 0)%Z; apply firstn_In.
Qed.

Lemma slice0_length {A : Type} (k : Z) (l : list A) :
  (0 <= k)%Z -> (Z.of_nat (length (slice0 k l)) <= k)%Z.
Proof.
  intros Hk. unfold slice0.
  destruct (k <? 0)%Z eqn:E; [apply Z.ltb_lt in E; lia |].
  rewrite length_firstn. lia.
Qed.

Lemma sorted_sliced_Forall {A : Type} (P : A -> Prop) (score : A -> Q) (k : Z)
  (l : list A) :
  Forall P l -> Forall P (slice0 k (sortDesc score l)).
Proof.
  rewrite !Forall_forall. intros H x Hin.
  apply H. apply slice0_In in Hin.
  eapply Permutation_in; [apply sortDesc_Permutation | exact Hin].
Qed.

(** ** Fusion and reranking *)

Section FusionProperties.
Context {host : Host}.

Lemma boostOf_ge_1 (query : string) (metadata : option ChunkMetadata) :
  1 <= boostOf query metadata.
Proof.
  unfold boostOf. destruct metadata as [m |]; [| lra].
  assert (H : forall kws acc, 1 <= acc ->
            1 <= fold_left
                   (fun boost keyword =>
                      if JSString.includes (JSString.toLowerCase query) keyword
                      then boost + 0.1 else boost) kws acc).
  { induction kws as [| kw kws IH]; simpl; intros acc Hacc; [exact Hacc |].
    apply IH. destruct (JSString.includes _ kw); lra. }
  apply H. lra.
Qed.

(** The boost accumulates 0.1 for every stored keyword that occurs in
    the lowercased query, without a bound of its own. *)
Lemma boostOf_count (query : string) (m : ChunkMetadata) :
  boostOf query (Some m) ==
  1 + 0.1 * ofNat (length (filter (JSString.includes (JSString.toLowerCase query))
                             (keywords m))).
Proof.
  unfold boostOf.
  assert (H : forall kws acc,
            fold_left
              (fun boost keyword =>
                 if JSString.includes (JSString.toLowerCase query) keyword
                 then boost + 0.1 else boost) kws acc
            == acc + 0.1 * ofNat (length (filter (JSString.includes
                                                     (JSString.toLowerCase query)) kws))).
  { induction kws as [| kw kws IH]; intros acc.
    - simpl. unfold ofNat. simpl. ring.
    - cbn [fold_left filter]. rewrite IH.
      destruct (JSString.includes (JSString.toLowerCase query) kw); [| reflexivity].
      cbn [length]. unfold ofNat. rewrite Nat2Z.inj_succ, <- Z.add_1_r, inject_Z_plus.
      ring. }
  rewrite H. ring.
Qed.

Lemma normalized_in_unit (k : string) (m : JSMap.t Q) :
  Forall (fun v => 0 <= v) (JSMap.values m) ->
  0 <= getOrZero k m / maxWithFloor (JSMap.values m) 0.001 /\
  getOrZero k m / maxWithFloor (JSMap.values m) 0.001 <= 1.
Proof.
  intros Hm.
  assert (Hfloor := maxWithFloor_floor (JSMap.values m) 0.001).
  apply normalized_bounds.
  - destruct (getOrZero_cases k m) as [-> | Hin]; [lra |].
    rewrite Forall_forall in Hm. apply Hm, Hin.
  - destruct (getOrZero_cases k m) as [-> | Hin]; [lra |].
    apply maxWithFloor_upper, Hin.
  - lra.
Qed.

Lemma combineStep_ok (vectorScores bm25Scores : JSMap.t Q)
  (combinedScores : JSMap.t Scores) (chunk : Chunk) :
  Forall (fun v => 0 <= v) (JSMap.values vectorScores) ->
  Forall (fun v => 0 <= v) (JSMap.values bm25Scores) ->
  Forall (entry_ok (0 <? JSMap.size vectorScores)%nat) (JSMap.values combinedScores) ->
  Forall (entry_ok (0 <? JSMap.size vectorScores)%nat)
    (JSMap.values (combineStep vectorScores bm25Scores combinedScores chunk)).
Proof.
  intros Hvs Hbm Hcs. unfold combineStep.
  set (u := (0 <? JSMap.size vectorScores)%nat).
  set (v := if u then _ else 0).
  set (bs := getOrZero (id chunk) bm25Scores / _).
  destruct (Qlt_bool 0 (vectorWeightOf u * v + bm25WeightOf u * bs)) eqn:Hpos;
    [| exact Hcs].
  apply JSMap_values_set; [| exact Hcs].
  apply Qlt_bool_iff in Hpos.
  unfold entry_ok; simpl. repeat split; try exact Hpos.
  - subst v. destruct u; [apply normalized_in_unit, Hvs | lra].
  - subst v. destruct u; [apply normalized_in_unit, Hvs | lra].
  - apply normalized_in_unit, Hbm.
  - apply normalized_in_unit, Hbm.
  - intros Hu. subst v. rewrite Hu. reflexivity.
Qed.

Lemma rerankStep_fused (allChunks : list Chunk) (query : string) (u : bool)
  (results : list RetrievedChunk) (entry : string * Scores) :
  entry_ok u (snd entry) ->
  Forall (fused query u) results ->
  Forall (fused query u) (rerankStep allChunks query results entry).
Proof.
  intros Hentry Hres. unfold rerankStep. destruct entry as [chunkId scores].
  destruct (find _ allChunks) as [chunk |]; [| exact Hres].
  apply Forall_app. split; [exact Hres |].
  constructor; [| constructor].
  destruct Hentry as [Hv [Hb [Hc [Heq Hzero]]]]. simpl in *.
  unfold fused; simpl. rewrite <- Heq. auto.
Qed.

Lemma rerank_fused (vectorScores bm25Scores : JSMap.t Q) (allChunks : list Chunk)
  (query : string) :
  Forall (fun v => 0 <= v) (JSMap.values vectorScores) ->
  Forall (fun v => 0 < v) (JSMap.values bm25Scores) ->
  Forall (fused query (0 <? JSMap.size vectorScores)%nat)
    (rerank vectorScores bm25Scores allChunks query).
Proof.
  intros Hvs Hbm. unfold rerank.
  set (u := (0 <? JSMap.size vectorScores)%nat).
  assert (Hbm' : Forall (fun v => 0 <= v) (JSMap.values bm25Scores)).
  { eapply Forall_impl; [| exact Hbm]. intros v Hv. apply Qlt_le_weak, Hv. }
  assert (Hentries : forall cs acc,
             Forall (entry_ok u) (JSMap.values acc) ->
             Forall (entry_ok u)
               (JSMap.values (fold_left (combineStep vectorScores bm25Scores) cs acc))).
  { induction cs as [| c cs IH]; simpl; intros acc Hacc; [exact Hacc |].
    apply IH. apply combineStep_ok; assumption. }
  specialize (Hentries allChunks JSMap.empty (Forall_nil _)).
  revert Hentries.
  generalize (fold_left (combineStep vectorScores bm25Scores) allChunks JSMap.empty).
  intros entries Hentries.
  assert (Hres : forall es acc,
             Forall (fun e => entry_ok u (snd e)) es ->
             Forall (fused query u) acc ->
             Forall (fused query u) (fold_left (rerankStep allChunks query) es acc)).
  { induction es as [| e es IH]; simpl; intros acc Hes Hacc; [exact Hacc |].
    inversion Hes as [| ? ? He Hes']; subst.
    apply IH; [exact Hes' |]. apply rerankStep_fused; assumption. }
  apply Hres; [| constructor].
  unfold JSMap.values in Hentries. rewrite Forall_map in Hentries. exact Hentries.
Qed.

End FusionProperties.

(* ================================================================= *)
(** * The order of the results *)

(** ** Occurring before, and leaving elements out *)

Lemma precedes_nil {A : Type} (x y : A) : ~ precedes x y [].
Proof.
  intros [l1 [l2 [l3 H]]]. destruct l1; discriminate.
Qed.

Lemma precedes_cons {A : Type} (a x y : A) (l : list A) :
  precedes x y l -> precedes x y (a :: l).
Proof.
  intros [l1 [l2 [l3 ->]]]. exists (a :: l1), l2, l3. reflexivity.
Qed.

Lemma precedes_head {A : Type} (x y : A) (l : list A) :
  In y l -> precedes x y (x :: l).
Proof.
  intros Hin. apply in_split in Hin. destruct Hin as [l2 [l3 ->]].
  exists [], l2, l3. reflexivity.
Qed.

Lemma precedes_inv {A : Type} (a x y : A) (l : list A) :
  precedes x y (a :: l) -> (a = x /\ In y l) \/ precedes x y l.
Proof.
  intros [l1 [l2 [l3 H]]]. destruct l1 as [| a' l1]; simpl in H.
  - injection H as -> ->. left. split; [reflexivity |].
    apply in_or_app. right. left. reflexivity.
  - injection H as -> ->. right. exists l1, l2, l3. reflexivity.
Qed.

Lemma subseq_In {A : Type} (l1 l2 : list A) (x : A) :
  subseq l1 l2 -> In x l1 -> In x l2.
Proof.
  induction 1 as [| a l1 l2 _ IH | a l1 l2 _ IH]; simpl; intros Hin.
  - contradiction.
  - right. auto.
  - destruct Hin as [-> | Hin]; [left; reflexivity | right; auto].
Qed.


Lemma subseq_nil_l {A : Type} (l : list A) : subseq [] l.
Proof.
  induction l; constructor; assumption.
Qed.

Lemma subseq_trans {A : Type} (l1 l2 l3 : list A) :
  subseq l1 l2 -> subseq l2 l3 -> subseq l1 l3.
Proof.
  intros H12 H23. revert l1 H12.
  induction H23 as [| a l2 l3 _ IH | a l2 l3 _ IH]; intros l1 H12.
  - exact H12.
  - constructor. auto.
  - inversion H12; subst.
    + apply subseq_skip. auto.
    + apply subseq_keep. auto.
Qed.


Lemma subseq_filter {A : Type} (p : A -> bool) (l : list A) :
  subseq (filter p l) l.
Proof.
  induction l as [| a l IH]; simpl; [constructor |].
  destruct (p a); [apply subseq_keep | apply subseq_skip]; exact IH.
Qed.

Lemma subseq_firstn {A : Type} (n : nat) (l : list A) : subseq (firstn n l) l.
Proof.
  revert l. induction n as [| n IH]; intros [| a l]; simpl.
  - constructor.
  - apply subseq_nil_l.
  - constructor.
  - apply subseq_keep, IH.
Qed.

Lemma precedes_subseq {A : Type} (x y : A) (l1 l2 : list A) :
  subseq l1 l2 -> precedes x y l1 -> precedes x y l2.
Proof.
  induction 1 as [| a l1 l2 _ IH | a l1 l2 Hsub IH]; intros Hp.
  - exact Hp.
  - apply precedes_cons. auto.
  - apply precedes_inv in Hp. destruct Hp as [[-> Hin] | Hp].
    + apply precedes_head. eapply subseq_In; eauto.
    + apply precedes_cons. auto.
Qed.

Lemma precedes_map {A B : Type} (f : A -> B) (x y : A) (l : list A) :
  precedes x y l -> precedes (f x) (f y) (map f l).
Proof.
  intros [l1 [l2 [l3 ->]]].
  exists (map f l1), (map f l2), (map f l3).
  rewrite map_app. simpl. rewrite map_app. reflexivity.
Qed.

Lemma precedes_filter {A : Type} (p : A -> bool) (x y : A) (l : list A) :
  p x = true -> p y = true -> precedes x y l -> precedes x y (filter p l).
Proof.
  intros Hx Hy [l1 [l2 [l3 ->]]].
  exists (filter p l1), (filter p l2), (filter p l3).
  rewrite filter_app. simpl. rewrite Hx. rewrite filter_app. simpl. rewrite Hy.
  reflexivity.
Qed.

(** ** The stable descending sort *)

Lemma insertDesc_sorted {A : Type} (score : A -> Q) (x : A) (l : list A) :
  StronglySorted (fun a c => score c <= score a) l ->
  StronglySorted (fun a c => score c <= score a) (insertDesc score x l).
Proof.
  induction l as [| y l IH]; simpl; intros Hs.
  - constructor; constructor.
  - inversion Hs as [| ? ? Hl Hy]; subst.
    destruct (Qlt_bool (score x) (score y)) eqn:E.
    + apply Qlt_bool_iff in E. constructor; [apply IH, Hl |].
      eapply Permutation_Forall.
      * apply Permutation_sym, insertDesc_Permutation.
      * constructor; [apply Qlt_le_weak, E | exact Hy].
    + apply Qlt_bool_false_iff in E. constructor; [exact Hs |].
      constructor; [exact E |].
      eapply Forall_impl; [| exact Hy]. intros z Hz. simpl in Hz.
      eapply Qle_trans; eauto.
Qed.

Lemma sortDesc_sorted {A : Type} (score : A -> Q) (l : list A) :
  StronglySorted (fun a c => score c <= score a) (sortDesc score l).
Proof.
  induction l as [| x l IH]; simpl; [constructor |].
  apply insertDesc_sorted, IH.
Qed.

Lemma sorted_precedes {A : Type} (R : A -> A -> Prop) (x y : A) (l : list A) :
  StronglySorted R l -> precedes x y l -> R x y.
Proof.
  induction 1 as [| a l Hl IH Ha]; intros Hp.
  - exfalso. eapply precedes_nil; eauto.
  - apply precedes_inv in Hp. destruct Hp as [[-> Hin] | Hp]; [| auto].
    rewrite Forall_forall in Ha. auto.
Qed.

(** Stability: the elements of any one score keep their order. *)
Lemma insertDesc_stable {A : Type} (score : A -> Q) (v : Q) (x : A) (l : list A) :
  filter (fun r => Qeq_bool (score r) v) (insertDesc score x l) =
  filter (fun r => Qeq_bool (score r) v) (x :: l).
Proof.
  induction l as [| y l IH]; [reflexivity |].
  simpl insertDesc. destruct (Qlt_bool (score x) (score y)) eqn:E; [| reflexivity].
  apply Qlt_bool_iff in E.
  simpl in *. rewrite IH.
  destruct (Qeq_bool (score x) v) eqn:Ex; [| reflexivity].
  destruct (Qeq_bool (score y) v) eqn:Ey; [| reflexivity].
  apply Qeq_bool_iff in Ex. apply Qeq_bool_iff in Ey. lra.
Qed.

Lemma sortDesc_stable {A : Type} (score : A -> Q) (v : Q) (l : list A) :
  filter (fun r => Qeq_bool (score r) v) (sortDesc score l) =
  filter (fun r => Qeq_bool (score r) v) l.
Proof.
  induction l as [| x l IH]; [reflexivity |].
  simpl sortDesc. rewrite insertDesc_stable. simpl. rewrite IH. reflexivity.
Qed.

Lemma sortDesc_ties {A : Type} (score : A -> Q) (x y : A) (l : list A) :
  precedes x y (sortDesc score l) -> score x == score y -> precedes x y l.
Proof.
  intros Hp Heq.
  apply (precedes_subseq x y (filter (fun r => Qeq_bool (score r) (score x)) l));
    [apply subseq_filter |].
  rewrite <- sortDesc_stable.
  apply precedes_filter; [| | exact Hp].
  - apply Qeq_bool_iff. reflexivity.
  - apply Qeq_bool_iff. symmetry. exact Heq.
Qed.

Lemma slice0_subseq {A : Type} (k : Z) (l : list A) : subseq (slice0 k l) l.
Proof.
  unfold slice0. destruct (k <? 0)%Z; apply subseq_firstn.
Qed.

(** ** The candidates follow the corpus *)

Lemma JSMap_keys_set {V : Type} (k : string) (v : V) (m : JSMap.t V) :
  JSMap.keys (JSMap.set k v m) = JSMap.keys m \/
  JSMap.keys (JSMap.set k v m) = JSMap.keys m ++ [k].
Proof.
  induction m as [| [k' v'] m IH]; simpl.
  - right. reflexivity.
  - destruct (String.eqb_spec k k') as [-> | Hne]; simpl.
    + left. reflexivity.
    + destruct IH as [-> | ->]; [left | right]; reflexivity.
Qed.

Section OrderProperties.
Context {host : Host}.

Lemma combined_keys (vectorScores bm25Scores : JSMap.t Q) (cs : list Chunk)
  (acc : JSMap.t Scores) :
  exists extra,
    JSMap.keys (fold_left (combineStep vectorScores bm25Scores) cs acc)
    = JSMap.keys acc ++ extra
    /\ subseq extra (map id cs).
Proof.
  revert acc. induction cs as [| c cs IH]; simpl; intros acc.
  - exists []. rewrite app_nil_r. split; [reflexivity | constructor].
  - destruct (IH (combineStep vectorScores bm25Scores acc c)) as [extra [Hk Hs]].
    rewrite Hk. unfold combineStep.
    match goal with |- context [if ?t then _ else _] => destruct t end.
    + match goal with
      | |- context [JSMap.set ?k ?v acc] =>
          destruct (JSMap_keys_set k v acc) as [-> | ->]
      end.
      * exists extra. split; [reflexivity | apply subseq_skip, Hs].
      * exists (id c :: extra). rewrite <- app_assoc. split; [reflexivity |].
        apply subseq_keep, Hs.
    + exists extra. split; [reflexivity | apply subseq_skip, Hs].
Qed.

Lemma reranked_ids (allChunks : list Chunk) (query : string)
  (entries : JSMap.t Scores) (acc : list RetrievedChunk) :
  exists extra,
    map r_id (fold_left (rerankStep allChunks query) entries acc)
    = map r_id acc ++ extra
    /\ subseq extra (JSMap.keys entries).
Proof.
  revert acc. induction entries as [| [chunkId scores] entries IH]; simpl; intros acc.
  - exists []. rewrite app_nil_r. split; [reflexivity | constructor].
  - destruct (find (fun c => String.eqb (id c) chunkId) allChunks) as [chunk |] eqn:Hfind.
    + destruct (IH (acc ++
          [ {| r_id := id chunk; r_content := content chunk;
               r_documentId := documentId chunk; r_metadata := metadata chunk;
               vectorScore := s_vector scores; bm25Score := s_bm25 scores;
               combinedScore :=
                 Qmin (s_combined scores * boostOf query (metadata chunk)) 1.0 |} ]))
        as [extra [Hk Hs]].
      rewrite Hk. rewrite map_app. simpl. rewrite <- app_assoc. simpl.
      apply find_some in Hfind. destruct Hfind as [_ Heq].
      apply String.eqb_eq in Heq. rewrite Heq.
      exists (chunkId :: extra). split; [reflexivity | apply subseq_keep, Hs].
    + destruct (IH acc) as [extra [Hk Hs]].
      exists extra. split; [exact Hk | apply subseq_skip, Hs].
Qed.

(** The candidates are pushed in the order of the corpus. *)
Lemma rerank_follows_corpus (vectorScores bm25Scores : JSMap.t Q)
  (allChunks : list Chunk) (query : string) :
  subseq (map r_id (rerank vectorScores bm25Scores allChunks query)) (map id allChunks).
Proof.
  unfold rerank.
  destruct (reranked_ids allChunks query
              (fold_left (combineStep vectorScores bm25Scores) allChunks JSMap.empty) [])
    as [extra [-> Hs]].
  destruct (combined_keys vectorScores bm25Scores allChunks JSMap.empty)
    as [extra' [Hk Hs']].
  rewrite Hk in Hs. simpl in *.
  eapply subseq_trans; eauto.
Qed.

(** The ranking of a candidate list: sorted by descending [combinedScore],
    ties in the order of the corpus, at most [topK] long for a
    non-negative [topK]. *)
Lemma ranking_spec (vectorScores bm25Scores : JSMap.t Q) (allChunks : list Chunk)
  (query : string) (topK : Z) (r1 r2 : RetrievedChunk) :
  precedes r1 r2
    (slice0 topK
       (sortDesc combinedScore (rerank vectorScores bm25Scores allChunks query))) ->
  combinedScore r2 <= combinedScore r1 /\
  (combinedScore r1 == combinedScore r2 ->
   precedes (r_id r1) (r_id r2) (map id allChunks)).
Proof.
  intros Hp.
  apply (precedes_subseq _ _ _ _ (slice0_subseq _ _)) in Hp.
  split.
  - apply (sorted_precedes _ _ _ _ (sortDesc_sorted combinedScore _) Hp).
  - intros Heq.
    apply (precedes_subseq _ _ _ _
             (rerank_follows_corpus vectorScores bm25Scores allChunks query)).
    apply precedes_map.
    eapply sortDesc_ties; eauto.
Qed.

End OrderProperties.

(* ================================================================= *)
(** * What hybridRetrieval returns *)

Section PipelineProperties.
Context {host : Host}.

(** Every list [hybridRetrieval] returns went through the fusion and the
    reranking of one of the two weightings, the keyword-only one when no
    stored chunk has an embedding, and is ranked. *)
Lemma hybridRetrieval_spec (st : MemStorage) (query : string) (topK : Z) :
  returns_all
    (fun results =>
       exists u,
         (existsb hasEmbedding (getChunks st) = false -> u = false) /\
         Forall (fused query u) results /\
         ((0 <= topK)%Z -> (Z.of_nat (length results) <= topK)%Z) /\
         forall r1 r2,
           precedes r1 r2 results ->
           combinedScore r2 <= combinedScore r1 /\
           (combinedScore r1 == combinedScore r2 ->
            precedes (r_id r1) (r_id r2) (map id (getChunks st))))
    (hybridRetrieval st query topK).
Proof.
  unfold hybridRetrieval.
  destruct (length (getChunks st) =? 0)%nat.
  - simpl. exists false.
    split; [reflexivity | split; [constructor | split]].
    + intros Hk. exact Hk.
    + intros r1 r2 Hp. exfalso. eapply precedes_nil; eauto.
  - cbn [bind ret Monad_Prog].
    apply returns_all_bind. apply returns_all_any. intros queryVariations.
    apply returns_all_bind.
    eapply returns_all_mono; [| apply vectorSearch_nonneg].
    intros vectorScores [Hvs Hempty].
    apply returns_all_bind.
    destruct (bm25Search query (getChunks st) (topK * 2)) as [e | bm25Scores] eqn:Hbm;
      simpl; [exact I |].
    exists (0 <? JSMap.size vectorScores)%nat.
    split; [| split; [| split]].
    + intros Hno. rewrite (Hempty Hno). reflexivity.
    + apply sorted_sliced_Forall.
      apply rerank_fused; [exact Hvs |].
      eapply bm25Search_positive, Hbm.
    + apply slice0_length.
    + intros r1 r2. apply ranking_spec.
Qed.

End PipelineProperties.

(* ================================================================= *)
(** * The score bounds of hybridRetrieval *)

(** C1.  Whatever the query, the stored corpus, [topK] and the answers of
    the providers, every chunk [hybridRetrieval] returns has a
    [combinedScore] between 0 and 1, and that score is
    [min(combined * boost, 1.0)], where [combined] is the weighted sum of
    the two normalized scores and [boost] the metadata keyword boost. *)
Theorem hybridRetrieval_combinedScore_capped
  (host : Host) (st : MemStorage) (query : string) (topK : Z) :
  returns_all
    (Forall (fun r =>
       (0 <= combinedScore r /\ combinedScore r <= 1) /\
       exists useVectorSearch,
         combinedScore r =
           Qmin ((vectorWeightOf useVectorSearch * vectorScore r
                  + bm25WeightOf useVectorSearch * bm25Score r)
                 * boostOf query (r_metadata r)) 1.0))
    (hybridRetrieval st query topK).
Proof.
  eapply returns_all_mono; [| apply hybridRetrieval_spec].
  intros results [u [_ [Hfused _]]].
  eapply Forall_impl; [| exact Hfused].
  intros r [_ [_ [Hpos [Heq _]]]].
  split; [| exists u; exact Heq].
  rewrite Heq.
  assert (Hboost := boostOf_ge_1 query (r_metadata r)).
  split.
  - apply Q.min_glb; [| lra].
    apply Qmult_le_0_compat; lra.
  - eapply Qle_trans; [apply Q.le_min_r | lra].
Qed.

(** C3.  Whatever the query, the stored corpus, [topK] and the answers of
    the providers, every chunk [hybridRetrieval] returns has a
    [vectorScore] and a [bm25Score] between 0 and 1. *)
Theorem hybridRetrieval_normalized_scores
  (host : Host) (st : MemStorage) (query : string) (topK : Z) :
  returns_all
    (Forall (fun r =>
       (0 <= vectorScore r /\ vectorScore r <= 1) /\
       (0 <= bm25Score r /\ bm25Score r <= 1)))
    (hybridRetrieval st query topK).
Proof.
  eapply returns_all_mono; [| apply hybridRetrieval_spec].
  intros results [u [_ [Hfused _]]].
  eapply Forall_impl; [| exact Hfused].
  intros r [Hv [Hb _]]. split; assumption.
Qed.

(* ================================================================= *)
(** * The top-K contract *)

(** C4 (as amended).  Whatever the query, the stored corpus, [topK] and
    the answers of the providers, the results of [hybridRetrieval] are in
    descending order of [combinedScore], two results of equal score
    standing in the order of their chunks in the corpus; and when [topK]
    is not negative, there are at most [topK] of them. *)
Theorem hybridRetrieval_topK_ranked
  (host : Host) (st : MemStorage) (query : string) (topK : Z) :
  returns_all
    (fun results =>
       ((0 <= topK)%Z -> (Z.of_nat (length results) <= topK)%Z) /\
       forall r1 r2,
         precedes r1 r2 results ->
         combinedScore r2 <= combinedScore r1 /\
         (combinedScore r1 == combinedScore r2 ->
          precedes (r_id r1) (r_id r2) (map id (getChunks st))))
    (hybridRetrieval st query topK).
Proof.
  eapply returns_all_mono; [| apply hybridRetrieval_spec].
  intros results [u [_ [_ [Hlen Hrank]]]].
  split; [exact Hlen | exact Hrank].
Qed.

Lemma hybridRetrieval_topK_ranked_witness :
  returns_all
    (fun results =>
       (Z.of_nat (length results) <= 2)%Z /\
       forall r1 r2,
         precedes r1 r2 results ->
         combinedScore r2 <= combinedScore r1 /\
         (combinedScore r1 == combinedScore r2 ->
          precedes (r_id r1) (r_id r2) (map id (getChunks sampleStorage))))
    (hybridRetrieval (host := sampleHost) sampleStorage "pit stop" 2) /\
  returns_all
    (fun results =>
       forall r1 r2,
         precedes r1 r2 results ->
         combinedScore r2 <= combinedScore r1 /\
         (combinedScore r1 == combinedScore r2 ->
          precedes (r_id r1) (r_id r2) (map id (getChunks sampleStorage))))
    (hybridRetrieval (host := sampleHost) sampleStorage "pit stop" (-1)).
Proof.
  split.
  - eapply returns_all_mono;
      [| apply (hybridRetrieval_topK_ranked sampleHost sampleStorage "pit stop" 2)].
    intros results [Hlen Hrank]. split; [apply Hlen; lia | exact Hrank].
  - eapply returns_all_mono;
      [| apply (hybridRetrieval_topK_ranked sampleHost sampleStorage "pit stop" (-1))].
    intros results [_ Hrank]. exact Hrank.
Defined.

(** C4 as stated fails for a negative [topK]: with [topK = -1] the slice
    drops the last of the three candidates and two results are returned. *)
Lemma hybridRetrieval_negative_topK :
  exists results,
    run failingProviders
      (hybridRetrieval (host := sampleHost) sampleStorage "pit stop" (-1)) = inr results /\
    length results = 2%nat /\
    ~ (Z.of_nat (length results) <= -1)%Z.
Proof.
  eexists. split; [vm_compute; reflexivity |].
  split; [reflexivity | simpl; lia].
Qed.

(* ================================================================= *)
(** * The keyword-only fallback *)

Lemma Qmin_1_compat (x y : Q) : x == y -> Qmin x 1.0 == Qmin y 1.
Proof.
  intros Hxy.
  destruct (Q.min_spec x 1.0) as [[H1 ->] | [H1 ->]];
  destruct (Q.min_spec y 1) as [[H2 ->] | [H2 ->]]; lra.
Qed.

(** C5 (as amended).  When no stored chunk has a non-empty embedding,
    every chunk [hybridRetrieval] returns has [vectorScore] 0, the fusion
    weights are 0 for the vector score and 1.0 for the keyword score, so
    that [combinedScore] is [min(bm25Score * boost, 1)]; the results are
    ranked by that boosted score. *)
Theorem hybridRetrieval_keyword_fallback
  (host : Host) (st : MemStorage) (query : string) (topK : Z) :
  noEmbeddings st ->
  returns_all
    (fun results =>
       Forall (fun r =>
         vectorScore r = 0 /\
         combinedScore r =
           Qmin ((0 * vectorScore r + 1.0 * bm25Score r)
                 * boostOf query (r_metadata r)) 1.0 /\
         combinedScore r == Qmin (bm25Score r * boostOf query (r_metadata r)) 1)
         results /\
       forall r1 r2, precedes r1 r2 results -> combinedScore r2 <= combinedScore r1)
    (hybridRetrieval st query topK).
Proof.
  intros Hno.
  assert (Hex : existsb hasEmbedding (getChunks st) = false).
  { unfold noEmbeddings in Hno. induction Hno as [| c cs Hc _ IH]; simpl.
    - reflexivity.
    - rewrite Hc, IH. reflexivity. }
  eapply returns_all_mono; [| apply hybridRetrieval_spec].
  intros results [u [Hu [Hfused [_ Hrank]]]].
  rewrite (Hu Hex) in Hfused. split.
  - eapply Forall_impl; [| exact Hfused].
    intros r [_ [_ [_ [Heq Hzero]]]].
    unfold vectorWeightOf, bm25WeightOf in Heq.
    split; [apply Hzero; reflexivity |].
    split; [exact Heq |].
    rewrite Heq. apply Qmin_1_compat. ring.
  - intros r1 r2 Hp. apply (Hrank r1 r2 Hp).
Qed.

Lemma hybridRetrieval_keyword_fallback_witness :
  noEmbeddings sampleStorage /\
  returns_all
    (fun results =>
       Forall (fun r =>
         vectorScore r = 0 /\
         combinedScore r =
           Qmin ((0 * vectorScore r + 1.0 * bm25Score r)
                 * boostOf "pit stop" (r_metadata r)) 1.0 /\
         combinedScore r == Qmin (bm25Score r * boostOf "pit stop" (r_metadata r)) 1)
         results /\
       forall r1 r2, precedes r1 r2 results -> combinedScore r2 <= combinedScore r1)
    (hybridRetrieval (host := sampleHost) sampleStorage "pit stop" 5).
Proof.
  assert (Hno : noEmbeddings sampleStorage).
  { unfold noEmbeddings. simpl. repeat constructor. }
  split; [exact Hno |].
  apply (hybridRetrieval_keyword_fallback sampleHost sampleStorage "pit stop" 5 Hno).
Defined.

(** C5 as stated fails where it says that the ranking follows
    [bm25Score] alone.  No chunk of the sample corpus has an embedding;
    for the query "pit stop" the chunk "b", whose stored keyword
    "pit stop" occurs in the query, is returned before the chunk "a",
    which has no keyword but the larger [bm25Score].  (Both query terms
    occur in all three chunks, so they share one idf, which cancels in the
    normalization: the scores do not depend on the logarithm.) *)
Lemma boost_outranks_bm25Score :
  noEmbeddings sampleStorage /\
  exists rm rb ra,
    run failingProviders
      (hybridRetrieval (host := sampleHost) sampleStorage "pit stop" 5)
    = inr [rm; rb; ra] /\
    r_id rb = "b" /\ r_id ra = "a" /\
    bm25Score rb < bm25Score ra /\
    ~ StronglySorted (fun r1 r2 => bm25Score r2 <= bm25Score r1) [rm; rb; ra].
Proof.
  split; [unfold noEmbeddings; simpl; repeat constructor |].
  do 3 eexists. split; [vm_compute; reflexivity |].
  split; [reflexivity |]. split; [reflexivity |].
  split.
  - simpl. unfold Qlt. simpl. lia.
  - intros Hs. inversion Hs as [| ? ? Hs' _]; subst.
    inversion Hs' as [| ? ? _ Hall]; subst.
    inversion Hall as [| ? ? Hle _]; subst.
    simpl in Hle. unfold Qle in Hle. simpl in Hle. lia.
Qed.

(* ================================================================= *)
(** * The empty corpus *)

(** C9.  When the storage holds no chunk, [hybridRetrieval] is the
    program that returns the empty list at once: it awaits no provider
    (no query expansion, no embedding), scores nothing and does not
    throw. *)
Theorem hybridRetrieval_empty_corpus
  (host : Host) (st : MemStorage) (query : string) (topK : Z) :
  getChunks st = [] ->
  hybridRetrieval st query topK = Ret [] /\
  never_throws (hybridRetrieval st query topK) /\
  forall env,
    run env (hybridRetrieval st query topK) = inr [] /\
    calls env (hybridRetrieval st query topK) = [].
Proof.
  intros Hempty.
  assert (E : hybridRetrieval st query topK = Ret []).
  { unfold hybridRetrieval. rewrite Hempty. reflexivity. }
  rewrite E. simpl. auto.
Qed.

Lemma hybridRetrieval_empty_corpus_witness :
  getChunks emptyStorage = [] /\
  hybridRetrieval (host := sampleHost) emptyStorage "anything" 5 = Ret [].
Proof.
  split; [reflexivity |].
  apply (hybridRetrieval_empty_corpus sampleHost emptyStorage "anything" 5).
  reflexivity.
Defined.

(* ================================================================= *)
(** * Cosine similarity *)

Lemma Qmult_comm_eq (x y : Q) : x * y = y * x.
Proof.
  unfold Qmult. rewrite (Z.mul_comm (Qnum x)), (Pos.mul_comm (Qden x)). reflexivity.
Qed.

Lemma cosine_fold_swap (a b : list Q) (dot na nb : Q) :
  fold_left cosineStep (combine b a) (dot, nb, na) =
  (let '(dot', na', nb') := fold_left cosineStep (combine a b) (dot, na, nb) in
   (dot', nb', na')).
Proof.
  revert b dot na nb. induction a as [| x a IH]; intros [| y b] dot na nb; simpl;
    try reflexivity.
  rewrite (Qmult_comm_eq y x). apply IH.
Qed.

(** C7.  [cosineSimilarity] is a total function; it is exactly 0 when the
    lengths differ or one of the vectors is empty, and it is symmetric. *)
Theorem cosineSimilarity_zero_symmetric (host : Host) (a b : list Q) :
  (length a <> length b \/ a = [] \/ b = [] -> cosineSimilarity a b = 0) /\
  cosineSimilarity a b = cosineSimilarity b a.
Proof.
  split.
  - intros H. unfold cosineSimilarity.
    destruct (Nat.eqb_spec (length a) (length b)) as [Hlen | Hlen]; [| reflexivity].
    destruct H as [H | [-> | ->]].
    + contradiction.
    + reflexivity.
    + simpl in Hlen. rewrite Hlen. reflexivity.
  - unfold cosineSimilarity.
    rewrite (Nat.eqb_sym (length b) (length a)).
    destruct (Nat.eqb_spec (length a) (length b)) as [Hlen | Hlen]; [| reflexivity].
    rewrite <- Hlen. simpl.
    destruct (length a =? 0)%nat; [reflexivity |].
    rewrite (cosine_fold_swap a b 0 0 0).
    destruct (fold_left cosineStep (combine a b) (0, 0, 0)) as [[dot na] nb].
    rewrite (Qmult_comm_eq (Math_sqrt nb) (Math_sqrt na)). reflexivity.
Qed.

Lemma cosineSimilarity_zero_symmetric_witness :
  (length [1; 2] <> length [3] \/ [1; 2] = [] \/ [3] = []) /\
  cosineSimilarity (host := sampleHost) [1; 2] [3] = 0 /\
  cosineSimilarity (host := sampleHost) [3; 4] [4; 3]
  = cosineSimilarity (host := sampleHost) [4; 3] [3; 4].
Proof.
  assert (H : length [1; 2] <> length [3] \/ [1; 2] = [] \/ [3] = [])
    by (left; simpl; lia).
  split; [exact H |].
  split.
  - apply (proj1 (cosineSimilarity_zero_symmetric sampleHost [1; 2] [3]) H).
  - apply (proj2 (cosineSimilarity_zero_symmetric sampleHost [3; 4] [4; 3])).
Defined.

(* ================================================================= *)
(** * Deleting a document *)

Lemma JSMap_get_delete_other {V : Type} (k k' : string) (m : JSMap.t V) :
  k <> k' -> JSMap.get k (JSMap.delete k' m) = JSMap.get k m.
Proof.
  intros Hne. induction m as [| [k0 v0] m IH]; simpl; [reflexivity |].
  destruct (String.eqb_spec k' k0) as [-> | Hk'].
  - destruct (String.eqb_spec k k0); [contradiction | reflexivity].
  - simpl. rewrite IH. reflexivity.
Qed.


Lemma JSMap_delete_app {V : Type} (k : string) (v : V) (m1 m2 : JSMap.t V) :
  ~ In k (JSMap.keys m1) -> JSMap.delete k (m1 ++ (k, v) :: m2) = m1 ++ m2.
Proof.
  induction m1 as [| [k0 v0] m1 IH]; simpl; intros Hnot.
  - rewrite String.eqb_refl. reflexivity.
  - destruct (String.eqb_spec k k0) as [-> | Hne].
    + exfalso. apply Hnot. left. reflexivity.
    + rewrite IH; [reflexivity |]. intros Hin. apply Hnot. right. exact Hin.
Qed.

Lemma JSMap_get_filter {V : Type} (keep : string * V -> bool) (k : string) (v : V)
  (m : JSMap.t V) :
  JSMap.get k m = Some v -> keep (k, v) = true -> JSMap.get k (filter keep m) = Some v.
Proof.
  induction m as [| [k0 v0] m IH]; simpl; intros Hget Hkeep; [discriminate |].
  destruct (String.eqb_spec k k0) as [-> | Hne].
  - injection Hget as ->. rewrite Hkeep. simpl. rewrite String.eqb_refl. reflexivity.
  - destruct (keep (k0, v0)); simpl.
    + destruct (String.eqb_spec k k0); [contradiction | auto].
    + auto.
Qed.

(** The entries of the chunks of other documents. *)
Lemma deleteDocument_chunks (st : MemStorage) (docId : string) :
  JSMap.wf (chunks st) ->
  chunks (deleteDocument st docId)
  = filter (fun entry => negb (String.eqb (documentId (snd entry)) docId)) (chunks st).
Proof.
  unfold deleteDocument; simpl. intros Hwf.
  set (keep := fun entry : string * Chunk =>
                 negb (String.eqb (documentId (snd entry)) docId)).
  assert (H : forall suffix prefix,
             NoDup (JSMap.keys (prefix ++ suffix)) ->
             fold_left (deleteIfOwned docId) suffix (filter keep prefix ++ suffix)
             = filter keep prefix ++ filter keep suffix).
  { induction suffix as [| [k c] suffix IH]; intros prefix Hnd; simpl.
    - reflexivity.
    - assert (Hk : ~ In k (JSMap.keys (filter keep prefix))).
      { unfold JSMap.keys in *. rewrite map_app in Hnd. simpl in Hnd.
        apply NoDup_remove_2 in Hnd. intros Hin. apply Hnd.
        apply in_or_app. left.
        apply in_map_iff in Hin. destruct Hin as [e [He Hin]].
        apply filter_In in Hin. apply in_map_iff. exists e. tauto. }
      assert (Hnd' : NoDup (JSMap.keys ((prefix ++ [(k, c)]) ++ suffix))).
      { rewrite <- app_assoc. exact Hnd. }
      specialize (IH (prefix ++ [(k, c)]) Hnd').
      rewrite filter_app in IH.
      assert (Ekeep : keep (k, c) = negb (String.eqb (documentId c) docId))
        by reflexivity.
      cbn [filter] in IH. rewrite Ekeep in *.
      destruct (String.eqb (documentId c) docId); cbn [negb] in *.
      + rewrite app_nil_r in IH.
        rewrite JSMap_delete_app by exact Hk. exact IH.
      + rewrite <- !app_assoc in IH. exact IH. }
  apply (H (chunks st) []). exact Hwf.
Qed.

Lemma values_filter_snd {V : Type} (f : V -> bool) (m : JSMap.t V) :
  JSMap.values (filter (fun entry => f (snd entry)) m) = filter f (JSMap.values m).
Proof.
  induction m as [| [k v] m IH]; simpl; [reflexivity |].
  destruct (f v); simpl; rewrite IH; reflexivity.
Qed.

Lemma getChunks_deleteDocument (st : MemStorage) (docId : string) :
  JSMap.wf (chunks st) ->
  getChunks (deleteDocument st docId)
  = filter (fun c => negb (String.eqb (documentId c) docId)) (getChunks st).
Proof.
  intros Hwf. unfold getChunks. rewrite deleteDocument_chunks by exact Hwf.
  apply (values_filter_snd (fun c => negb (String.eqb (documentId c) docId))).
Qed.

(** C10.  After [deleteDocument(id)] no stored chunk belongs to the
    document; every other document and every chunk of another document is
    stored as before, under the same key, and no chunk is added. *)
Theorem deleteDocument_cascades (st : MemStorage) (docId : string) :
  JSMap.wf (chunks st) ->
  getChunksByDocumentId (deleteDocument st docId) docId = [] /\
  (forall d, d <> docId ->
     getDocument (deleteDocument st docId) d = getDocument st d) /\
  (forall k c, JSMap.get k (chunks st) = Some c -> documentId c <> docId ->
     JSMap.get k (chunks (deleteDocument st docId)) = Some c) /\
  (forall d, d <> docId ->
     getChunksByDocumentId (deleteDocument st docId) d = getChunksByDocumentId st d) /\
  (forall c, In c (getChunks (deleteDocument st docId)) ->
     In c (getChunks st) /\ documentId c <> docId).
Proof.
  intros Hwf.
  assert (Hchunks := getChunks_deleteDocument st docId Hwf).
  unfold getChunksByDocumentId. fold (getChunks (deleteDocument st docId)).
  fold (getChunks st). rewrite Hchunks. clear Hchunks.
  split; [| split; [| split; [| split]]].
  - induction (getChunks st) as [| c cs IH]; simpl; [reflexivity |].
    destruct (String.eqb (documentId c) docId) eqn:E; simpl; [exact IH |].
    rewrite E. exact IH.
  - intros d Hd. unfold getDocument, deleteDocument; simpl.
    apply JSMap_get_delete_other, Hd.
  - intros k c Hget Hdoc. rewrite deleteDocument_chunks by exact Hwf.
    apply JSMap_get_filter; [exact Hget |]. simpl.
    destruct (String.eqb_spec (documentId c) docId); [contradiction | reflexivity].
  - intros d Hd.
    induction (getChunks st) as [| c cs IH]; simpl; [reflexivity |].
    destruct (String.eqb_spec (documentId c) docId) as [E | E]; simpl.
    + destruct (String.eqb_spec (documentId c) d) as [E' | E']; [congruence | exact IH].
    + rewrite IH. reflexivity.
  - intros c Hin. apply filter_In in Hin. destruct Hin as [Hin Hkeep].
    split; [exact Hin |].
    destruct (String.eqb_spec (documentId c) docId); [discriminate | assumption].
Qed.

Lemma deleteDocument_cascades_witness :
  JSMap.wf (chunks sampleStorage) /\
  getChunksByDocumentId (deleteDocument sampleStorage "d1") "d1" = [] /\
  getChunksByDocumentId (deleteDocument sampleStorage "d1") "d2" = [chunkM] /\
  getDocument (deleteDocument sampleStorage "d1") "d2" = Some (sampleDocument "d2").
Proof.
  assert (Hwf : JSMap.wf (chunks sampleStorage)).
  { unfold JSMap.wf. simpl.
    repeat constructor; simpl; intuition discriminate. }
  split; [exact Hwf |].
  destruct (deleteDocument_cascades sampleStorage "d1" Hwf) as [H1 [H2 [_ [H4 _]]]].
  split; [exact H1 |].
  split.
  - rewrite H4 by discriminate. reflexivity.
  - rewrite H2 by discriminate. reflexivity.
Defined.

(* ================================================================= *)
(** * The chunker *)

Lemma strlen_append (s1 s2 : string) :
  strlen (s1 ++ s2) = (strlen s1 + strlen s2)%Z.
Proof.
  unfold strlen. induction s1 as [| c s1 IH]; simpl String.length.
  - reflexivity.
  - rewrite !Nat2Z.inj_succ. lia.
Qed.

Lemma strlen_nonneg (s : string) : (0 <= strlen s)%Z.
Proof.
  unfold strlen. lia.
Qed.

Lemma strlen_sliceFrom (n : nat) (s : string) :
  (n <= String.length s)%nat ->
  strlen (JSString.sliceFrom n s) = (strlen s - Z.of_nat n)%Z.
Proof.
  unfold strlen. revert s. induction n as [| n IH]; intros s Hn.
  - destruct s; cbn [JSString.sliceFrom]; lia.
  - destruct s as [| c s]; cbn [JSString.sliceFrom String.length] in *; [lia |].
    rewrite IH by lia. lia.
Qed.

Lemma chunkStep_invariant (document : Document) (st : ChunkerState) (sentence : string) :
  chunkerInvariant st -> chunkerInvariant (chunkStep document st sentence).
Proof.
  intros Hinv. unfold chunkStep.
  assert (Hlen := strlen_nonneg (cs_currentChunk st)).
  assert (Hsen := strlen_nonneg sentence).
  destruct ((strlen (cs_currentChunk st) + strlen sentence >? CHUNK_SIZE)%Z
            && (strlen (cs_currentChunk st) >? 0)%Z)%bool.
  - set (overlapStart := Z.max 0 (strlen (cs_currentChunk st) - CHUNK_OVERLAP)).
    assert (Hov : (0 <= overlapStart <= strlen (cs_currentChunk st))%Z).
    { unfold overlapStart, CHUNK_OVERLAP. lia. }
    assert (Hnew : strlen (JSString.sliceFrom (Z.to_nat overlapStart) (cs_currentChunk st)
                           ++ sentence)
                   = (strlen (cs_currentChunk st) - overlapStart + strlen sentence)%Z).
    { rewrite strlen_append, strlen_sliceFrom; [lia |].
      unfold strlen in Hov. lia. }
    right. unfold chunkerInvariant; simpl. rewrite Hnew.
    exists (cs_startPosition st + strlen (cs_currentChunk st))%Z.
    rewrite map_app. simpl. unfold span at 2. simpl.
    destruct Hinv as [[Hnil Hstart] | [reached [Hchain [H0 [H1 H2]]]]].
    + rewrite Hnil, Hstart. simpl.
      split; [apply chain_first; lia | lia].
    + split; [eapply chain_next; eauto | lia].
  - destruct Hinv as [[Hnil Hstart] | [reached [Hchain [H0 [H1 H2]]]]].
    + left. simpl. auto.
    + right. unfold chunkerInvariant; simpl.
      exists reached. rewrite !strlen_append.
      assert (Hsep := strlen_nonneg
                        (if JSString.truthy (cs_currentChunk st) then " " else "")).
      repeat split; try assumption. lia.
Qed.

(** The part of C2 that holds: the spans of the chunks of any document
    start at 0 and chain without a gap between consecutive chunks. *)
Lemma chunkDocument_spans_chain (document : Document) :
  chunkDocument document = [] \/
  exists reached, chain (map span (chunkDocument document)) reached.
Proof.
  unfold chunkDocument.
  set (start := {| cs_chunks := []; cs_currentChunk := "";
                   cs_chunkIndex := 0; cs_startPosition := 0 |}).
  assert (Hinv : chunkerInvariant
                   (fold_left (chunkStep document)
                      (JSString.splitSentences (doc_content document)) start)).
  { assert (Hstart : chunkerInvariant start) by (left; auto).
    revert Hstart. generalize start.
    induction (JSString.splitSentences (doc_content document)) as [| s l IH];
      simpl; intros st Hst; [exact Hst |].
    apply IH, chunkStep_invariant, Hst. }
  revert Hinv.
  generalize (fold_left (chunkStep document)
                (JSString.splitSentences (doc_content document)) start).
  intros st Hinv.
  assert (Hlen := strlen_nonneg (cs_currentChunk st)).
  destruct (JSString.truthy (JSString.trim (cs_currentChunk st))).
  - right. rewrite map_app. simpl. unfold span at 2. simpl.
    exists (cs_startPosition st + strlen (cs_currentChunk st))%Z.
    destruct Hinv as [[Hnil Hstart] | [reached [Hchain [H0 [H1 H2]]]]].
    + rewrite Hnil, Hstart. simpl. apply chain_first. lia.
    + eapply chain_next; eauto.
  - destruct Hinv as [[Hnil Hstart] | [reached [Hchain _]]].
    + left. exact Hnil.
    + right. exists reached. exact Hchain.
Qed.

(** C2 fails on the code.  For two sentences of 300 characters separated
    by one space (601 characters) the chunker emits the spans [0, 300)
    and [200, 600): the separator is dropped when the overlap is joined to
    the sentence that closed the chunk, and the last span ends one
    character before the end of the content.  For "A.  B." (6 characters)
    the only span is [0, 5): the buffer joins sentences with one space
    whatever separated them. *)
Theorem chunkDocument_spans_fall_short :
  (strlen (doc_content twoSentenceDocument) = 601%Z /\
   map span (chunkDocument twoSentenceDocument) = [(0, 300); (200, 600)]%Z) /\
  (strlen (doc_content doubleSpaceDocument) = 6%Z /\
   map span (chunkDocument doubleSpaceDocument) = [(0, 5)]%Z).
Proof.
  split; split; vm_compute; reflexivity.
Qed.

(* ================================================================= *)
(** * Query expansion *)


Section ExpanderProperties.
Context {host : Host}.


(** The fallbacks of [enhanceQuery]: a response without a first choice,
    unparseable content, a [null] result, and a selected [variations]
    value that is neither an array nor a string all give the original
    query alone; so does the empty array, which is what an object with
    neither key selects. *)
Lemma enhanceQuery_falls_back (env : Providers) (query : string)
  (response : list (option string)) :
  chatAnswer env query = inr response ->
  (contentText response = inl TypeError \/
   (exists text, contentText response = inr text /\ JSON_parse text = None) \/
   (exists text result,
      contentText response = inr text /\ JSON_parse text = Some result /\
      (selectVariations result = inl TypeError \/
       selectVariations result = inr (JArr []) \/
       exists v, selectVariations result = inr v /\
                 (forall elements, v <> JArr elements) /\ (forall s, v <> JStr s)))) ->
  run env (enhanceQuery query) = inr [JStr query].
Proof.
  intros Hchat Hcases. unfold enhanceQuery. simpl. rewrite Hchat.
  unfold parseVariations.
  destruct Hcases as [-> | [[text [-> ->]] | [text [result [-> [-> Hsel]]]]]];
    try reflexivity.
  destruct Hsel as [-> | [-> | [v [-> [Harr Hstr]]]]]; try reflexivity.
  destruct v; simpl; try reflexivity.
  - exfalso. eapply Hstr. reflexivity.
  - exfalso. eapply Harr. reflexivity.
Qed.

End ExpanderProperties.

(** C6 fails on the code.  When the provider answers the object
    [{"variations":"ab"}], whose [variations] is a string and not a list,
    [enhanceQuery] does not fall back to the original query alone: the
    string has a [slice] method and spreads into its characters. *)
Theorem enhanceQuery_spreads_string (host : Host) (env : Providers) (query : string) :
  JSON_parse textVariationsString = Some (JObj [("variations", JStr "ab")]) ->
  chatAnswer env query = inr [Some textVariationsString] ->
  run env (enhanceQuery query) = inr [JStr query; JStr "a"; JStr "b"].
Proof.
  intros Hparse Hchat. unfold enhanceQuery. simpl. rewrite Hchat.
  unfold parseVariations, contentText.
  change (JSString.truthy textVariationsString) with true. cbv iota.
  rewrite Hparse. reflexivity.
Qed.

Lemma enhanceQuery_spreads_string_witness :
  JSON_parse (Host := sampleHost) textVariationsString
    = Some (JObj [("variations", JStr "ab")]) /\
  chatAnswer stringVariationProviders "undercut" = inr [Some textVariationsString] /\
  run stringVariationProviders (enhanceQuery (host := sampleHost) "undercut")
    = inr [JStr "undercut"; JStr "a"; JStr "b"].
Proof.
  assert (Hparse : JSON_parse (Host := sampleHost) textVariationsString
                   = Some (JObj [("variations", JStr "ab")])) by reflexivity.
  assert (Hchat : chatAnswer stringVariationProviders "undercut"
                  = inr [Some textVariationsString]) by reflexivity.
  split; [exact Hparse |]. split; [exact Hchat |].
  apply (enhanceQuery_spreads_string sampleHost stringVariationProviders "undercut"
           Hparse Hchat).
Defined.

(* ================================================================= *)
(** * The keys of the BM25 score map *)

Lemma JSMap_get_set_same {V : Type} (k : string) (v : V) (m : JSMap.t V) :
  JSMap.get k (JSMap.set k v m) = Some v.
Proof.
  induction m as [| [k' v'] m IH]; simpl.
  - rewrite String.eqb_refl. reflexivity.
  - destruct (String.eqb_spec k k') as [-> | Hne]; simpl.
    + rewrite String.eqb_refl. reflexivity.
    + destruct (String.eqb_spec k k'); [contradiction | exact IH].
Qed.

Lemma JSMap_get_set_other {V : Type} (k k' : string) (v : V) (m : JSMap.t V) :
  k <> k' -> JSMap.get k (JSMap.set k' v m) = JSMap.get k m.
Proof.
  intros Hne. induction m as [| [k0 v0] m IH]; simpl.
  - destruct (String.eqb_spec k k'); [contradiction | reflexivity].
  - destruct (String.eqb_spec k' k0) as [-> | Hk']; simpl.
    + destruct (String.eqb_spec k k0); [contradiction | reflexivity].
    + rewrite IH. reflexivity.
Qed.

Lemma NoDup_map_eq {A B : Type} (f : A -> B) (l : list A) (x y : A) :
  NoDup (map f l) -> In x l -> In y l -> f x = f y -> x = y.
Proof.
  induction l as [| a l IH]; simpl; intros Hnd Hx Hy Hf; [contradiction |].
  inversion Hnd as [| ? ? Hnot Hnd']; subst.
  destruct Hx as [-> | Hx], Hy as [-> | Hy].
  - reflexivity.
  - exfalso. apply Hnot. rewrite Hf. apply in_map, Hy.
  - exfalso. apply Hnot. rewrite <- Hf. apply in_map, Hx.
  - auto.
Qed.

Section ScorerProperties.
Context {host : Host}.

Lemma bm25Step_thrown (idf : JSMap.t Q) (avgDL : Q) (queryTerms : list string)
  (cs : list Chunk) (e : Exn) :
  fold_left (bm25Step idf avgDL queryTerms) cs (inl e) = inl e.
Proof.
  induction cs as [| c cs IH]; simpl; [reflexivity | exact IH].
Qed.

Lemma bm25Step_keys (idf : JSMap.t Q) (avgDL : Q) (queryTerms : list string)
  (cs : list Chunk) (acc m : JSMap.t Q) (k : string) :
  fold_left (bm25Step idf avgDL queryTerms) cs (inr acc) = inr m ->
  (exists s, JSMap.get k m = Some s) <->
  ((exists s, JSMap.get k acc = Some s) \/
   exists c score,
     In c cs /\ id c = k /\
     chunkScore idf avgDL queryTerms c = inr score /\ positive score = true).
Proof.
  revert acc. induction cs as [| c cs IH]; simpl; intros acc Hfold.
  - injection Hfold as <-. split; [auto |].
    intros [H | [c [score [[] _]]]]. exact H.
  - destruct (chunkScore idf avgDL queryTerms c) as [e | score] eqn:Hscore.
    + rewrite bm25Step_thrown in Hfold. discriminate.
    + rewrite (IH _ Hfold). clear IH Hfold.
      destruct (positive score) eqn:Hpos.
      * destruct (String.eqb_spec k (id c)) as [-> | Hne].
        -- rewrite JSMap_get_set_same. split; intros _.
           ++ right. exists c, score. auto.
           ++ left. eauto.
        -- rewrite JSMap_get_set_other by exact Hne. split.
           ++ intros [H | [c' [score' [Hin H]]]]; [auto |].
              right. exists c', score'. auto.
           ++ intros [H | [c' [score' [[-> | Hin] [Hid H]]]]]; [auto | |].
              ** exfalso. apply Hne. symmetry. exact Hid.
              ** right. exists c', score'. auto.
      * split.
        -- intros [H | [c' [score' [Hin H]]]]; [auto |].
           right. exists c', score'. auto.
        -- intros [H | [c' [score' [[-> | Hin] [Hid [Hs Hp]]]]]]; [auto | |].
           ++ rewrite Hscore in Hs. injection Hs as <-. congruence.
           ++ right. exists c', score'. auto.
Qed.

(** The first half of C8: in a corpus of distinct chunk ids, a chunk is
    a key of the result map exactly when its summed term contribution is
    strictly positive. *)
Lemma bm25Search_key_iff (query : string) (cs : list Chunk) (topK : Z)
  (m : JSMap.t Q) (c : Chunk) :
  NoDup (map id cs) ->
  bm25Search query cs topK = inr m ->
  In c cs ->
  (exists s, JSMap.get (id c) m = Some s) <->
  (exists score, summedContribution query cs c = inr score /\ positive score = true).
Proof.
  intros Hnd Hsearch Hin. unfold bm25Search in Hsearch.
  rewrite (bm25Step_keys _ _ _ _ _ _ (id c) Hsearch). unfold summedContribution.
  split.
  - intros [[s Hs] | [c' [score [Hin' [Hid H]]]]]; [discriminate |].
    assert (c' = c) by (eapply NoDup_map_eq; eauto). subst c'.
    exists score. exact H.
  - intros [score H]. right. exists c, score. auto.
Qed.

Lemma termContribution_no_match (idfValue ratio : Q) :
  termContribution idfValue 0 ratio == 0.
Proof.
  unfold termContribution, ofNat. simpl inject_Z. unfold Qdiv. ring.
Qed.

Lemma chunkScore_no_match (idf : JSMap.t Q) (avgDL : Q) (text : string)
  (queryTerms : list string) (acc : option Q) :
  (forall term, In term queryTerms -> RegExp_matchCount term text = Some 0%nat) ->
  positive acc = false ->
  exists score,
    fold_left (scoreStep idf avgDL text) queryTerms (inr acc) = inr score /\
    positive score = false.
Proof.
  revert acc. induction queryTerms as [| term queryTerms IH]; simpl; intros acc Hno Hacc.
  - exists acc. auto.
  - rewrite (Hno term) by (left; reflexivity).
    apply IH; [intros t Ht; apply Hno; right; exact Ht |].
    destruct acc as [s |]; [| reflexivity].
    destruct (lengthRatio _ avgDL) as [ratio |]; [| reflexivity].
    simpl in *. apply Qlt_bool_false_iff. apply Qlt_bool_false_iff in Hacc.
    rewrite termContribution_no_match. lra.
Qed.

(** The second half of C8 as the code has it: a chunk in which no query
    term has a regular-expression match is never a key. *)
Lemma bm25Search_no_match_no_key (query : string) (cs : list Chunk) (topK : Z)
  (m : JSMap.t Q) (c : Chunk) :
  NoDup (map id cs) ->
  bm25Search query cs topK = inr m ->
  In c cs ->
  (forall term, In term (queryTermsOf query) ->
     RegExp_matchCount term (JSString.toLowerCase (content c)) = Some 0%nat) ->
  JSMap.get (id c) m = None.
Proof.
  intros Hnd Hsearch Hin Hno.
  destruct (JSMap.get (id c) m) as [s |] eqn:Hget; [| reflexivity].
  assert (Hkey : exists s, JSMap.get (id c) m = Some s) by eauto.
  apply (bm25Search_key_iff query cs topK m c Hnd Hsearch Hin) in Hkey.
  destruct Hkey as [score [Hscore Hpos]].
  unfold summedContribution, chunkScore in Hscore.
  destruct (chunkScore_no_match (idfOf (queryTermsOf query) cs) (avgDLOf cs)
              (JSString.toLowerCase (content c)) (queryTermsOf query) (Some 0) Hno)
    as [score' [Hscore' Hneg]]; [reflexivity |].
  rewrite Hscore' in Hscore. injection Hscore as <-. congruence.
Qed.

End ScorerProperties.

Lemma sampleHost_log_positive : log_positive sampleHost.
Proof.
  intros x Hx. simpl. unfold sampleLog.
  assert (H0 : 0 < x) by lra.
  assert (H : / x < / 1) by (apply (Qinv_lt_contravar 1 x); [lra | exact H0 | exact Hx]).
  assert (E : / 1 == 1) by reflexivity.
  lra.
Qed.

(** C8 fails on the code.  The only term of the query "Tires." is
    "tires."; the chunk "Tires wear" does not contain it.  The term
    frequency is counted with [new RegExp(term, "gi")], in which the full
    stop matches any character, so that "tires " is a match: the chunk has
    a positive score and is a key of the result map. *)
Theorem bm25Search_scores_uncontained_term (host : Host) :
  log_positive host ->
  RegExp_matchCount "tires." "tires wear" = Some 1%nat ->
  queryTermsOf tiresQuery = ["tires."] /\
  containsTerm "tires." tiresChunk = false /\
  exists m s,
    bm25Search tiresQuery [tiresChunk] 10 = inr m /\
    JSMap.get (id tiresChunk) m = Some s /\ 0 < s.
Proof.
  intros Hlog Hre.
  split; [reflexivity |]. split; [reflexivity |].
  unfold bm25Search.
  change (queryTermsOf tiresQuery) with ["tires."].
  cbn [fold_left].
  unfold bm25Step at 1. unfold chunkScore. cbn [fold_left].
  change (JSString.toLowerCase (content tiresChunk)) with "tires wear".
  unfold scoreStep. rewrite Hre.
  destruct (lengthRatio (ofNat (String.length "tires wear")) (avgDLOf [tiresChunk]))
    as [ratio |] eqn:Hratio; [| vm_compute in Hratio; discriminate].
  vm_compute in Hratio. injection Hratio as <-.
  unfold idfOf, idfStep, JSMap.empty.
  cbn [fold_left JSMap.set JSMap.get].
  rewrite String.eqb_refl.
  set (idfValue := Math_log _).
  assert (Hidf : 0 < idfValue).
  { apply Hlog. vm_compute. reflexivity. }
  unfold termContribution.
  set (c := _ / _).
  assert (Hc : 0 < c) by (vm_compute; reflexivity).
  assert (Hpos : 0 < 0 + idfValue * c).
  { assert (H := Qmult_lt_0_compat _ _ Hidf Hc). lra. }
  unfold positive. rewrite (proj2 (Qlt_bool_iff _ _) Hpos).
  do 2 eexists. split; [reflexivity |].
  split; [| exact Hpos].
  change (id tiresChunk) with "t". cbn [JSMap.set]. cbn [JSMap.get].
  rewrite String.eqb_refl. reflexivity.
Qed.

Lemma bm25Search_scores_uncontained_term_witness :
  log_positive sampleHost /\
  RegExp_matchCount (Host := sampleHost) "tires." "tires wear" = Some 1%nat /\
  exists m s,
    bm25Search (host := sampleHost) tiresQuery [tiresChunk] 10 = inr m /\
    JSMap.get (id tiresChunk) m = Some s /\ 0 < s.
Proof.
  assert (Hre : RegExp_matchCount (Host := sampleHost) "tires." "tires wear"
                = Some 1%nat) by reflexivity.
  split; [exact sampleHost_log_positive |]. split; [exact Hre |].
  apply (bm25Search_scores_uncontained_term sampleHost sampleHost_log_positive Hre).
Defined.

(* ================================================================= *)
(** * Keyword extraction *)

Lemma setAdd_In (term kw : string) (kws : list string) :
  In kw (setAdd term kws) <-> In kw kws \/ kw = term.
Proof.
  unfold setAdd. destruct (existsb (String.eqb term) kws) eqn:E.
  - split; [auto |]. intros [H | ->]; [exact H |].
    apply existsb_exists in E. destruct E as [x [Hin Hx]].
    apply String.eqb_eq in Hx. subst x. exact Hin.
  - rewrite in_app_iff. simpl. intuition.
Qed.

Lemma setAdd_NoDup (term : string) (kws : list string) :
  NoDup kws -> NoDup (setAdd term kws).
Proof.
  intros Hnd. unfold setAdd. destruct (existsb (String.eqb term) kws) eqn:E.
  - exact Hnd.
  - apply NoDup_app; [exact Hnd | constructor; [intros [] | constructor] |].
    intros x Hin [Heq | []]. subst x.
    assert (Hex : existsb (String.eqb term) kws = true).
    { apply existsb_exists. exists term. split; [exact Hin | apply String.eqb_refl]. }
    congruence.
Qed.

Lemma addIncluded_In (p : string -> bool) (terms acc : list string) (kw : string) :
  In kw (fold_left (fun kws term => if p term then setAdd term kws else kws) terms acc)
  <-> In kw acc \/ (In kw terms /\ p kw = true).
Proof.
  revert acc. induction terms as [| t terms IH]; simpl; intros acc.
  - intuition.
  - rewrite IH. destruct (p t) eqn:Ht.
    + rewrite setAdd_In. split.
      * intros [[H | ->] | [H Hp]]; auto.
      * intros [H | [[<- | H] Hp]]; auto.
    + split.
      * intros [H | [H Hp]]; auto.
      * intros [H | [[<- | H] Hp]]; auto. congruence.
Qed.

Lemma addIncluded_NoDup (p : string -> bool) (terms acc : list string) :
  NoDup acc ->
  NoDup (fold_left (fun kws term => if p term then setAdd term kws else kws) terms acc).
Proof.
  revert acc. induction terms as [| t terms IH]; simpl; intros acc Hnd; [exact Hnd |].
  apply IH. destruct (p t); [apply setAdd_NoDup, Hnd | exact Hnd].
Qed.

Lemma firstn_NoDup {A : Type} (n : nat) (l : list A) : NoDup l -> NoDup (firstn n l).
Proof.
  revert l. induction n as [| n IH]; intros [| a l] Hnd; simpl; try constructor.
  - inversion Hnd as [| ? ? Hnot Hnd']; subst.
    intros Hin. apply Hnot. eapply firstn_In; eauto.
  - inversion Hnd; subst. auto.
Qed.

Lemma firstn_short {A : Type} (n : nat) (l : list A) :
  (length (firstn n l) < n)%nat -> firstn n l = l.
Proof.
  intros H. rewrite length_firstn in H. apply firstn_all2. lia.
Qed.

Lemma extractKeywords_unfold (text : string) :
  extractKeywords text =
  firstn 10
    (fold_left (fun kws term =>
                  if JSString.includes (JSString.toLowerCase text) term
                  then setAdd term kws else kws) entities
       (fold_left (fun kws term =>
                     if JSString.includes (JSString.toLowerCase text) term
                     then setAdd term kws else kws) f1Terms [])).
Proof.
  reflexivity.
Qed.

(** What [extractKeywords] returns: at most ten distinct terms of the
    two vocabularies, each of which occurs in the lowercased text; and
    when fewer than ten are returned, every vocabulary term that occurs
    in the lowercased text is among them. *)
Theorem extractKeywords_sound (text : string) :
  (length (extractKeywords text) <= 10)%nat /\
  NoDup (extractKeywords text) /\
  (forall kw, In kw (extractKeywords text) ->
     In kw (f1Terms ++ entities) /\
     JSString.includes (JSString.toLowerCase text) kw = true) /\
  ((length (extractKeywords text) < 10)%nat ->
   forall kw, In kw (f1Terms ++ entities) ->
     JSString.includes (JSString.toLowerCase text) kw = true ->
     In kw (extractKeywords text)).
Proof.
  rewrite extractKeywords_unfold.
  set (p := JSString.includes (JSString.toLowerCase text)).
  set (all := fold_left _ entities _).
  assert (Hall : forall kw, In kw all <-> In kw (f1Terms ++ entities) /\ p kw = true).
  { intros kw. unfold all. rewrite !addIncluded_In. rewrite in_app_iff.
    split.
    - intros [[[] | [H Hp]] | [H Hp]]; auto.
    - intros [[H | H] Hp]; auto. }
  split; [rewrite length_firstn; apply Nat.le_min_l |].
  split.
  { apply firstn_NoDup. unfold all. apply addIncluded_NoDup, addIncluded_NoDup.
    constructor. }
  split.
  - intros kw Hin. apply (proj1 (Hall kw)). apply (firstn_In 10 all kw Hin).
  - intros Hshort kw Hin Hp. rewrite (firstn_short _ _ Hshort).
    apply (proj2 (Hall kw)). split; assumption.
Qed.

Lemma lowerChar_idempotent (c : ascii) :
  JSString.lowerChar (JSString.lowerChar c) = JSString.lowerChar c.
Proof.
  destruct c as [[] [] [] [] [] [] [] []]; reflexivity.
Qed.

Lemma toLowerCase_idempotent (s : string) :
  JSString.toLowerCase (JSString.toLowerCase s) = JSString.toLowerCase s.
Proof.
  induction s as [| c s IH]; simpl; [reflexivity |].
  rewrite lowerChar_idempotent, IH. reflexivity.
Qed.

Lemma prefix_lower (t s : string) :
  prefix t s = true -> JSString.toLowerCase s = s -> JSString.toLowerCase t = t.
Proof.
  revert s. induction t as [| a t IH]; intros s Hp Hs; [reflexivity |].
  destruct s as [| c s]; simpl in Hp; [discriminate |].
  destruct (ascii_dec a c) as [-> | Hne]; [| discriminate].
  simpl in Hs. injection Hs as Hc Hs'.
  simpl. rewrite Hc. rewrite (IH s Hp Hs'). reflexivity.
Qed.

Lemma includes_lower (s t : string) :
  JSString.includes s t = true -> JSString.toLowerCase s = s ->
  JSString.toLowerCase t = t.
Proof.
  induction s as [| c s IH]; cbn [JSString.includes]; intros Hi Hs.
  - rewrite orb_false_r in Hi. apply (prefix_lower t EmptyString Hi Hs).
  - apply orb_true_iff in Hi. destruct Hi as [Hp | Hi].
    + apply (prefix_lower t (String c s) Hp Hs).
    + cbn [JSString.toLowerCase] in Hs. injection Hs as _ Hs'. auto.
Qed.

(** [extractKeywords] never returns a term with an upper-case letter:
    the text is lowercased before the search and the terms are not.  The
    vocabulary terms DRS, VSC and ERS are therefore never extracted,
    whatever the text. *)
Theorem extractKeywords_lowercase_only (text kw : string) :
  In kw (extractKeywords text) ->
  JSString.toLowerCase kw = kw /\ kw <> "DRS" /\ kw <> "VSC" /\ kw <> "ERS".
Proof.
  intros Hin.
  assert (Hlow : JSString.toLowerCase kw = kw).
  { destruct (extractKeywords_sound text) as [_ [_ [Hsound _]]].
    destruct (Hsound kw Hin) as [_ Hinc].
    eapply includes_lower; [exact Hinc | apply toLowerCase_idempotent]. }
  split; [exact Hlow |].
  split; [| split]; intros E; rewrite E in Hlow; vm_compute in Hlow; discriminate Hlow.
Qed.

Lemma extractKeywords_lowercase_only_witness :
  In "tire" (extractKeywords "DRS and tire wear") /\
  JSString.toLowerCase "tire" = "tire" /\
  ~ In "DRS" (extractKeywords "DRS and tire wear").
Proof.
  assert (Hin : In "tire" (extractKeywords "DRS and tire wear"))
    by (vm_compute; left; reflexivity).
  split; [exact Hin |].
  split; [exact (proj1 (extractKeywords_lowercase_only _ _ Hin)) |].
  intros H.
  exact (proj1 (proj2 (extractKeywords_lowercase_only _ _ H)) eq_refl).
Defined.

(* ================================================================= *)
(** * The chunks of a document *)

#[local] Arguments extractKeywords : simpl never.
#[local] Arguments JSString.trim : simpl never.

Lemma fold_left_invariant {A B : Type} (I : A -> Prop) (f : A -> B -> A)
  (l : list B) (a : A) :
  I a -> (forall a' x, In x l -> I a' -> I (f a' x)) -> I (fold_left f l a).
Proof.
  revert a. induction l as [| x l IH]; simpl; intros a Ha Hstep; [exact Ha |].
  apply IH.
  - apply Hstep; [left; reflexivity | exact Ha].
  - intros a' y Hy. apply Hstep. right. exact Hy.
Qed.

Lemma length_string_of_list_ascii (l : list ascii) :
  String.length (string_of_list_ascii l) = length l.
Proof.
  induction l as [| c l IH]; simpl; [reflexivity | rewrite IH; reflexivity].
Qed.

Lemma length_list_ascii_of_string (s : string) :
  length (list_ascii_of_string s) = String.length s.
Proof.
  induction s as [| c s IH]; simpl; [reflexivity | rewrite IH; reflexivity].
Qed.

Lemma length_reverse (s : string) :
  String.length (JSString.reverse s) = String.length s.
Proof.
  unfold JSString.reverse.
  rewrite length_string_of_list_ascii, length_rev. apply length_list_ascii_of_string.
Qed.

Lemma length_trimStart (s : string) :
  (String.length (JSString.trimStart s) <= String.length s)%nat.
Proof.
  induction s as [| c s IH]; simpl; [lia |].
  destruct (JSString.isWhitespace c); simpl; lia.
Qed.

Lemma strlen_trim (s : string) : (strlen (JSString.trim s) <= strlen s)%Z.
Proof.
  unfold strlen, JSString.trim. rewrite length_reverse.
  assert (H1 := length_trimStart (JSString.reverse (JSString.trimStart s))).
  rewrite length_reverse in H1.
  assert (H2 := length_trimStart s). lia.
Qed.

Lemma extractKeywords_length (text : string) :
  (length (extractKeywords text) <= 10)%nat.
Proof.
  unfold extractKeywords. rewrite length_firstn. lia.
Qed.

(** Every chunk [chunkDocument] emits belongs to the document, has no
    embedding, carries the title and the type of the document and at most
    ten keywords, and its content is not longer than its span; the
    chunks are numbered 0, 1, 2, ... in the order of emission. *)
Theorem chunkDocument_chunks_wellformed (document : Document) :
  map ins_chunkIndex (chunkDocument document)
  = map Z.of_nat (seq 0 (length (chunkDocument document))) /\
  Forall (fun c =>
    ins_documentId c = doc_id document /\
    ins_embedding c = None /\
    exists m,
      ins_metadata c = Some m /\
      documentTitle m = doc_title document /\
      documentType m = doc_type document /\
      (length (keywords m) <= 10)%nat /\
      (strlen (ins_content c) <= endPosition m - startPosition m)%Z)
    (chunkDocument document).
Proof.
  set (P := fun c : InsertChunk =>
    ins_documentId c = doc_id document /\
    ins_embedding c = None /\
    exists m,
      ins_metadata c = Some m /\
      documentTitle m = doc_title document /\
      documentType m = doc_type document /\
      (length (keywords m) <= 10)%nat /\
      (strlen (ins_content c) <= endPosition m - startPosition m)%Z).
  set (I := fun st : ChunkerState =>
    cs_chunkIndex st = Z.of_nat (length (cs_chunks st)) /\
    map ins_chunkIndex (cs_chunks st) = map Z.of_nat (seq 0 (length (cs_chunks st))) /\
    Forall P (cs_chunks st)).
  assert (Hemit : forall st, P (emitChunk document st)).
  { intros st. unfold P, emitChunk.
    cbn [ins_documentId ins_embedding ins_metadata ins_content].
    split; [reflexivity |]. split; [reflexivity |].
    eexists. split; [reflexivity |].
    cbn [documentTitle documentType keywords endPosition startPosition].
    split; [reflexivity |]. split; [reflexivity |].
    split; [apply extractKeywords_length |].
    assert (H := strlen_trim (cs_currentChunk st)). lia. }
  assert (Hpush : forall st, I st ->
            I {| cs_chunks := cs_chunks st ++ [emitChunk document st];
                 cs_currentChunk := cs_currentChunk st;
                 cs_chunkIndex := cs_chunkIndex st + 1;
                 cs_startPosition := cs_startPosition st |}).
  { intros st [Hidx [Hmap HP]]. unfold I.
    cbn [cs_chunks cs_chunkIndex].
    rewrite length_app, Nat.add_1_r, seq_S, !map_app.
    cbn [map length Nat.add].
    split; [lia |]. split.
    - change (ins_chunkIndex (emitChunk document st)) with (cs_chunkIndex st).
      rewrite Hmap, Hidx. reflexivity.
    - apply Forall_app. split; [exact HP | constructor; [apply Hemit | constructor]]. }
  assert (Hfold : I (fold_left (chunkStep document)
                       (JSString.splitSentences (doc_content document))
                       {| cs_chunks := []; cs_currentChunk := "";
                          cs_chunkIndex := 0; cs_startPosition := 0 |})).
  { apply fold_left_invariant.
    - unfold I. cbn [cs_chunks cs_chunkIndex length map seq].
      split; [reflexivity |]. split; [reflexivity | constructor].
    - intros st sentence _ Hst. unfold chunkStep.
      destruct ((strlen (cs_currentChunk st) + strlen sentence >? CHUNK_SIZE)%Z
                && (strlen (cs_currentChunk st) >? 0)%Z)%bool.
      + destruct (Hpush st Hst) as [H1 [H2 H3]]. unfold I.
        cbn [cs_chunks cs_chunkIndex] in *. auto.
      + exact Hst. }
  unfold chunkDocument.
  set (st := fold_left _ _ _) in *.
  destruct (JSString.truthy (JSString.trim (cs_currentChunk st))).
  - destruct (Hpush st Hfold) as [_ [H2 H3]]. cbn [cs_chunks] in *. auto.
  - destruct Hfold as [_ [H2 H3]]. auto.
Qed.

(** The size of a chunk.  When every sentence of the document has at
    most [L] characters, the span and the content of every chunk have at
    most [max(CHUNK_SIZE + 1, CHUNK_OVERLAP + L)] characters: the size
    check does not count the space that joins two sentences, and a chunk
    that follows another starts with up to [CHUNK_OVERLAP] characters of
    overlap. *)
Theorem chunkDocument_size_bound (document : Document) (L : Z) :
  Forall (fun sentence => (strlen sentence <= L)%Z)
    (JSString.splitSentences (doc_content document)) ->
  Forall (fun c =>
    (snd (span c) - fst (span c) <= Z.max (CHUNK_SIZE + 1) (CHUNK_OVERLAP + L))%Z /\
    (strlen (ins_content c) <= Z.max (CHUNK_SIZE + 1) (CHUNK_OVERLAP + L))%Z)
    (chunkDocument document).
Proof.
  intros Hsentences.
  set (B := Z.max (CHUNK_SIZE + 1) (CHUNK_OVERLAP + L)).
  set (P := fun c : InsertChunk =>
    (snd (span c) - fst (span c) <= B)%Z /\ (strlen (ins_content c) <= B)%Z).
  set (I := fun st : ChunkerState =>
    (strlen (cs_currentChunk st) <= B)%Z /\ Forall P (cs_chunks st)).
  assert (Hemit : forall st, (strlen (cs_currentChunk st) <= B)%Z ->
                             P (emitChunk document st)).
  { intros st Hlen. unfold P, emitChunk, span.
    cbn [ins_metadata ins_content startPosition endPosition fst snd].
    assert (H := strlen_trim (cs_currentChunk st)). lia. }
  assert (Hfold : I (fold_left (chunkStep document)
                       (JSString.splitSentences (doc_content document))
                       {| cs_chunks := []; cs_currentChunk := "";
                          cs_chunkIndex := 0; cs_startPosition := 0 |})).
  { apply fold_left_invariant.
    - unfold I. cbn [cs_currentChunk cs_chunks]. split; [| constructor].
      unfold B, CHUNK_SIZE. change (strlen "") with 0%Z. lia.
    - intros st sentence Hin [Hlen HP].
      rewrite Forall_forall in Hsentences. specialize (Hsentences sentence Hin).
      assert (Hcur := strlen_nonneg (cs_currentChunk st)).
      assert (Hsen := strlen_nonneg sentence).
      unfold chunkStep.
      destruct ((strlen (cs_currentChunk st) + strlen sentence >? CHUNK_SIZE)%Z
                && (strlen (cs_currentChunk st) >? 0)%Z)%bool eqn:Hcond.
      + unfold I. cbn [cs_currentChunk cs_chunks]. split.
        * rewrite strlen_append, strlen_sliceFrom.
          -- unfold B, CHUNK_OVERLAP. lia.
          -- unfold strlen, CHUNK_OVERLAP in *. lia.
        * apply Forall_app. split; [exact HP |].
          constructor; [apply Hemit, Hlen | constructor].
      + unfold I. cbn [cs_currentChunk cs_chunks]. split; [| exact HP].
        rewrite !strlen_append.
        apply andb_false_iff in Hcond. destruct Hcond as [Hc | Hc].
        * rewrite Z.gtb_ltb in Hc. apply Z.ltb_ge in Hc.
          destruct (JSString.truthy (cs_currentChunk st));
            [change (strlen " ") with 1%Z | change (strlen "") with 0%Z];
            unfold B; lia.
        * rewrite Z.gtb_ltb in Hc. apply Z.ltb_ge in Hc.
          assert (E : cs_currentChunk st = "").
          { destruct (cs_currentChunk st) as [| c0 s0]; [reflexivity |].
            unfold strlen in Hc. cbn [String.length] in Hc. lia. }
          rewrite E. cbn [JSString.truthy].
          change (strlen "") with 0%Z. unfold B, CHUNK_OVERLAP. lia. }
  unfold chunkDocument.
  set (st := fold_left _ _ _) in *.
  destruct Hfold as [Hlen HP].
  destruct (JSString.truthy (JSString.trim (cs_currentChunk st))).
  - apply Forall_app. split; [exact HP |].
    constructor; [apply Hemit, Hlen | constructor].
  - exact HP.
Qed.

Lemma chunkDocument_size_bound_witness :
  Forall (fun sentence => (strlen sentence <= 300)%Z)
    (JSString.splitSentences (doc_content twoSentenceDocument)) /\
  Forall (fun c =>
    (snd (span c) - fst (span c) <= Z.max (CHUNK_SIZE + 1) (CHUNK_OVERLAP + 300))%Z /\
    (strlen (ins_content c) <= Z.max (CHUNK_SIZE + 1) (CHUNK_OVERLAP + 300))%Z)
    (chunkDocument twoSentenceDocument).
Proof.
  assert (H : Forall (fun sentence => (strlen sentence <= 300)%Z)
                (JSString.splitSentences (doc_content twoSentenceDocument))).
  { vm_compute. repeat constructor; discriminate. }
  split; [exact H |].
  apply (chunkDocument_size_bound twoSentenceDocument 300 H).
Defined.

Lemma string_of_list_ascii_snoc (l : list ascii) (c : ascii) (s : string) :
  (string_of_list_ascii (l ++ [c]) ++ s)%string
  = (string_of_list_ascii l ++ String c s)%string.
Proof.
  induction l as [| a l IH]; simpl; [reflexivity | rewrite IH; reflexivity].
Qed.

Lemma splitSentFrom_unbroken (cur : list ascii) (s : string) :
  (forall c, In c (list_ascii_of_string s) -> JSString.isSentenceEnd c = false) ->
  JSString.splitSentFrom false false cur s = [(JSString.ofRev cur ++ s)%string].
Proof.
  revert cur. induction s as [| c s IH]; intros cur Hno; simpl.
  - unfold JSString.ofRev.
    induction (string_of_list_ascii (rev cur)) as [| a t IHt]; simpl;
      [reflexivity | congruence].
  - assert (Hc : JSString.isSentenceEnd c = false) by (apply Hno; left; reflexivity).
    assert (Hs : forall c', In c' (list_ascii_of_string s) ->
                            JSString.isSentenceEnd c' = false)
      by (intros c' Hc'; apply Hno; right; exact Hc').
    rewrite Hc.
    assert (E : JSString.splitSentFrom false false (c :: cur) s
                = [(JSString.ofRev cur ++ String c s)%string]).
    { rewrite (IH (c :: cur) Hs). unfold JSString.ofRev. simpl rev.
      rewrite string_of_list_ascii_snoc. reflexivity. }
    destruct (JSString.isWhitespace c); exact E.
Qed.

(** A text without [.], [!] and [?] is never split, whatever its length:
    it is one chunk that spans the whole content, or no chunk at all when
    the text is empty or white space. *)
Theorem chunkDocument_unbroken_text (document : Document) :
  (forall c, In c (list_ascii_of_string (doc_content document)) ->
             JSString.isSentenceEnd c = false) ->
  chunkDocument document
  = (if JSString.truthy (JSString.trim (doc_content document))
     then [emitChunk document
             {| cs_chunks := []; cs_currentChunk := doc_content document;
                cs_chunkIndex := 0; cs_startPosition := 0 |}]
     else []) /\
  map span (chunkDocument document)
  = (if JSString.truthy (JSString.trim (doc_content document))
     then [(0, strlen (doc_content document))%Z] else []).
Proof.
  intros Hno.
  assert (E : chunkDocument document
    = if JSString.truthy (JSString.trim (doc_content document))
      then [emitChunk document
              {| cs_chunks := []; cs_currentChunk := doc_content document;
                 cs_chunkIndex := 0; cs_startPosition := 0 |}]
      else []).
  { unfold chunkDocument, JSString.splitSentences.
    rewrite (splitSentFrom_unbroken [] _ Hno).
    change (JSString.ofRev [] ++ doc_content document)%string
      with (doc_content document).
    cbn [fold_left]. unfold chunkStep.
    change (strlen (cs_currentChunk
              {| cs_chunks := []; cs_currentChunk := "";
                 cs_chunkIndex := 0; cs_startPosition := 0 |})) with 0%Z.
    change (0 >? 0)%Z with false. rewrite andb_false_r.
    reflexivity. }
  split; [exact E |].
  rewrite E. destruct (JSString.truthy (JSString.trim (doc_content document)));
    reflexivity.
Qed.

Lemma chunkDocument_unbroken_text_witness :
  (forall c, In c (list_ascii_of_string "soft tires wear quickly") ->
             JSString.isSentenceEnd c = false) /\
  map span (chunkDocument
              {| doc_id := "d6"; doc_title := "Tires";
                 doc_content := "soft tires wear quickly";
                 doc_type := article; doc_source := None; doc_url := None |})
  = [(0, 23)%Z].
Proof.
  assert (H : forall c, In c (list_ascii_of_string "soft tires wear quickly") ->
                        JSString.isSentenceEnd c = false).
  { intros c Hin. simpl in Hin.
    repeat (destruct Hin as [<- | Hin]; [reflexivity |]). contradiction. }
  split; [exact H |].
  exact (proj2 (chunkDocument_unbroken_text
                  {| doc_id := "d6"; doc_title := "Tires";
                     doc_content := "soft tires wear quickly";
                     doc_type := article; doc_source := None; doc_url := None |} H)).
Defined.

(* ================================================================= *)
(** * Provider calls, retries and failures *)

Lemma callsAtMost_mono {A : Type} (p : Prog A) (n n' : nat) :
  callsAtMost n p -> (n <= n')%nat -> callsAtMost n' p.
Proof.
  revert n n'. induction p as [a | e | q k IH | x k IH | d k IH]; simpl; intros n n' H Hle;
    auto.
  - destruct n as [| n]; [contradiction |]. destruct n' as [| n']; [lia |].
    intros r. apply (IH r n n' (H r)). lia.
  - destruct n as [| n]; [contradiction |]. destruct n' as [| n']; [lia |].
    intros r. apply (IH r n n' (H r)). lia.
  - eapply IH; eauto.
Qed.

Lemma callsAtMost_bind {A B : Type} (Q : A -> Prop) (p : Prog A) (f : A -> Prog B)
  (n m : nat) :
  callsAtMost n p -> returns_all Q p -> (forall a, Q a -> callsAtMost m (f a)) ->
  callsAtMost (n + m) (Prog_bind p f).
Proof.
  revert n. induction p as [a | e | q k IH | x k IH | d k IH]; simpl; intros n Hn HQ Hf.
  - apply (callsAtMost_mono _ m); [apply Hf, HQ | lia].
  - exact I.
  - destruct n as [| n]; [contradiction |]. simpl. intros r. apply IH; auto.
  - destruct n as [| n]; [contradiction |]. simpl. intros r. apply IH; auto.
  - apply IH; auto.
Qed.

Lemma callsAtMost_tryCatch {A : Type} (p : Prog A) (h : Exn -> Prog A) (n m : nat) :
  callsAtMost n p -> (forall e, callsAtMost m (h e)) ->
  callsAtMost (n + m) (tryCatch p h).
Proof.
  revert n. induction p as [a | e | q k IH | x k IH | d k IH]; simpl; intros n Hn Hh.
  - exact I.
  - apply (callsAtMost_mono _ m); [apply Hh | lia].
  - destruct n as [| n]; [contradiction |]. simpl. intros r. apply IH; auto.
  - destruct n as [| n]; [contradiction |]. simpl. intros r. apply IH; auto.
  - apply IH; auto.
Qed.



Lemma throws_all_bind {A B : Type} (P : Exn -> Prop) (p : Prog A) (f : A -> Prog B) :
  throws_all P p -> (forall a, throws_all P (f a)) -> throws_all P (Prog_bind p f).
Proof.
  intros Hp Hf. induction p as [a | e | q k IH | x k IH | d k IH]; simpl in *; auto.
Qed.

Lemma throws_all_tryCatch {A : Type} (P : Exn -> Prop) (p : Prog A) (h : Exn -> Prog A) :
  (forall e, throws_all P (h e)) -> throws_all P (tryCatch p h).
Proof.
  intros Hh. induction p as [a | e | q k IH | x k IH | d k IH]; simpl in *; auto.
Qed.

Lemma throws_all_never {A : Type} (P : Exn -> Prop) (p : Prog A) :
  throws_all P p -> (forall e, ~ P e) -> never_throws p.
Proof.
  intros Hp Hno. induction p as [a | e | q k IH | x k IH | d k IH]; simpl in *; auto.
  eapply Hno; eauto.
Qed.

Lemma generateEmbedding_calls (text : JSON) : callsAtMost 3 (generateEmbedding text).
Proof.
  unfold generateEmbedding.
  simpl. intros [e1 | v1]; [| exact I].
  destruct (match statusOf e1 with Some s => (s =? 429)%Z | None => false end);
    simpl; [| exact I].
  intros [e2 | v2]; [| exact I].
  destruct (match statusOf e2 with Some s => (s =? 429)%Z | None => false end);
    simpl; [| exact I].
  intros [e3 | v3]; [| exact I].
  destruct (match statusOf e3 with Some s => (s =? 429)%Z | None => false end);
    simpl; exact I.
Qed.

(** The retry budget of [generateEmbedding]: whatever the provider
    answers, and in whatever order, it is called at most three times and
    the back-off timers add up to at most 3000 ms. *)
Theorem generateEmbedding_retry_budget (text : JSON) :
  callsAtMost 3 (generateEmbedding text) /\
  waitsAtMost 3000 (generateEmbedding text).
Proof.
  split; [apply generateEmbedding_calls |].
  unfold generateEmbedding.
  - simpl. intros [e1 | v1]; simpl; [| lia].
    destruct (match statusOf e1 with Some s => (s =? 429)%Z | None => false end);
      simpl; [| lia].
    intros [e2 | v2]; simpl; [| lia].
    destruct (match statusOf e2 with Some s => (s =? 429)%Z | None => false end);
      simpl; [| lia].
    intros [e3 | v3]; simpl; [| lia].
    destruct (match statusOf e3 with Some s => (s =? 429)%Z | None => false end);
      simpl; lia.
Qed.

(** With a provider that answers a text always in the same way,
    [generateEmbedding] returns or throws exactly what the provider
    answers: an error that is not a rate limit after one call, a rate
    limit after three calls and waits of 1000 and 2000 ms.  The error
    "Failed to generate embedding after retries" is never reached. *)
Theorem generateEmbedding_consistent_provider (env : Providers) (text : JSON) :
  run env (generateEmbedding text) = embeddingAnswer env text /\
  calls env (generateEmbedding text)
  = match embeddingAnswer env text with
    | inr _ => [CallEmbedding text]
    | inl e =>
        if match statusOf e with Some s => (s =? 429)%Z | None => false end
        then [CallEmbedding text; CallTimer 1000; CallEmbedding text;
              CallTimer 2000; CallEmbedding text]
        else [CallEmbedding text]
    end.
Proof.
  unfold generateEmbedding. simpl.
  destruct (embeddingAnswer env text) as [e | v] eqn:E; simpl; [| auto].
  destruct (match statusOf e with Some s => (s =? 429)%Z | None => false end) eqn:Hs;
    simpl; [| auto].
  rewrite E. simpl. rewrite Hs. simpl. rewrite E. simpl. rewrite Hs. simpl. auto.
Qed.

(* ================================================================= *)
(** * More on hybridRetrieval *)

Lemma JSMap_set_In_keys {V : Type} (k x : string) (v : V) (m : JSMap.t V) :
  In x (JSMap.keys (JSMap.set k v m)) -> x = k \/ In x (JSMap.keys m).
Proof.
  induction m as [| [k' v'] m IH]; simpl.
  - intros [<- | []]. left. reflexivity.
  - destruct (String.eqb_spec k k') as [-> | Hne]; simpl.
    + intros [<- | H]; auto.
    + intros [<- | H]; [auto |]. destruct (IH H); auto.
Qed.

Lemma JSMap_set_wf {V : Type} (k : string) (v : V) (m : JSMap.t V) :
  JSMap.wf m -> JSMap.wf (JSMap.set k v m).
Proof.
  unfold JSMap.wf. induction m as [| [k' v'] m IH]; simpl; intros Hnd.
  - constructor; [intros [] | constructor].
  - inversion Hnd as [| ? ? Hnot Hnd']; subst.
    destruct (String.eqb_spec k k') as [-> | Hne]; simpl.
    + constructor; assumption.
    + constructor; [| apply IH, Hnd'].
      intros Hin. apply JSMap_set_In_keys in Hin. destruct Hin as [-> | Hin];
        [apply Hne; reflexivity | contradiction].
Qed.

Lemma subseq_NoDup {A : Type} (l1 l2 : list A) :
  subseq l1 l2 -> NoDup l2 -> NoDup l1.
Proof.
  induction 1 as [| a l1 l2 Hs IH | a l1 l2 Hs IH]; intros Hnd.
  - constructor.
  - inversion Hnd; subst. auto.
  - inversion Hnd as [| ? ? Hnot Hnd']; subst. constructor; [| auto].
    intros Hin. apply Hnot. eapply subseq_In; eauto.
Qed.

Section MoreRetrievalProperties.
Context {host : Host}.

Lemma bm25Step_thrown_from (idf : JSMap.t Q) (avgDL : Q) (queryTerms : list string)
  (cs : list Chunk) (acc : JSMap.t Q) (e : Exn) :
  fold_left (bm25Step idf avgDL queryTerms) cs (inr acc) = inl e ->
  exists c, In c cs /\ chunkScore idf avgDL queryTerms c = inl e.
Proof.
  revert acc. induction cs as [| c cs IH]; simpl; intros acc Hfold; [discriminate |].
  destruct (chunkScore idf avgDL queryTerms c) as [e' | score] eqn:Hscore.
  - rewrite bm25Step_thrown in Hfold. injection Hfold as ->.
    exists c. auto.
  - destruct (IH _ Hfold) as [c' [Hin H]]. exists c'. auto.
Qed.

Lemma scoreStep_thrown (idf : JSMap.t Q) (avgDL : Q) (text : string)
  (queryTerms : list string) (acc : Exn + option Q) (e : Exn) :
  fold_left (scoreStep idf avgDL text) queryTerms acc = inl e ->
  acc = inl e \/
  (e = SyntaxError /\ exists term, In term queryTerms /\
                                   RegExp_matchCount term text = None).
Proof.
  revert acc. induction queryTerms as [| term queryTerms IH]; simpl; intros acc Hfold.
  - left. exact Hfold.
  - destruct (IH _ Hfold) as [Hstep | [He [t [Hin Hre]]]].
    + unfold scoreStep in Hstep. destruct acc as [e' | score]; [left; exact Hstep |].
      destruct (RegExp_matchCount term text) eqn:Hre; [discriminate |].
      injection Hstep as <-. right. split; [reflexivity |]. exists term. auto.
    + right. split; [exact He |]. exists t. auto.
Qed.

Lemma scoreStep_returned (idf : JSMap.t Q) (avgDL : Q) (text : string)
  (queryTerms : list string) (acc : Exn + option Q) (score : option Q) :
  fold_left (scoreStep idf avgDL text) queryTerms acc = inr score ->
  forall term, In term queryTerms -> RegExp_matchCount term text <> None.
Proof.
  revert acc. induction queryTerms as [| t queryTerms IH]; simpl; intros acc Hfold term Hin.
  - contradiction.
  - destruct Hin as [-> | Hin]; [| eapply IH; eauto].
    intros Hre. unfold scoreStep in Hfold. rewrite Hre in Hfold.
    destruct acc as [e | s].
    + assert (H : forall l e0, fold_left (scoreStep idf avgDL text) l (inl e0) = inl e0).
      { induction l as [| x l IHl]; simpl; auto. }
      rewrite H in Hfold. discriminate.
    + assert (H : forall l e0, fold_left (scoreStep idf avgDL text) l (inl e0) = inl e0).
      { induction l as [| x l IHl]; simpl; auto. }
      rewrite H in Hfold. discriminate.
Qed.

Lemma bm25Step_returned (idf : JSMap.t Q) (avgDL : Q) (queryTerms : list string)
  (cs : list Chunk) (acc m : JSMap.t Q) (c : Chunk) :
  In c cs ->
  fold_left (bm25Step idf avgDL queryTerms) cs (inr acc) = inr m ->
  exists score, chunkScore idf avgDL queryTerms c = inr score.
Proof.
  revert acc. induction cs as [| c0 cs IH]; simpl; intros acc Hin Hfold; [contradiction |].
  destruct (chunkScore idf avgDL queryTerms c0) as [e | score] eqn:Hs.
  - rewrite bm25Step_thrown in Hfold. discriminate.
  - destruct Hin as [-> | Hin]; [eauto |]. eapply IH; eauto.
Qed.

Lemma bm25Search_errors (query : string) (cs : list Chunk) (topK : Z) (e : Exn) :
  bm25Search query cs topK = inl e ->
  e = SyntaxError /\
  exists c term,
    In c cs /\ In term (queryTermsOf query) /\
    RegExp_matchCount term (JSString.toLowerCase (content c)) = None.
Proof.
  intros H. unfold bm25Search in H.
  apply bm25Step_thrown_from in H. destruct H as [c [Hin Hscore]].
  unfold chunkScore in Hscore. apply scoreStep_thrown in Hscore.
  destruct Hscore as [Habs | [He [term [Hterm Hre]]]]; [discriminate |].
  split; [exact He |]. exists c, term. auto.
Qed.

(** [bm25Search] throws only the SyntaxError of [new RegExp(term)], and
    it throws exactly when some query term is not a regular expression
    for some chunk of the corpus. *)
Theorem bm25Search_throws_iff (query : string) (cs : list Chunk) (topK : Z) :
  (forall e, bm25Search query cs topK = inl e -> e = SyntaxError) /\
  ((exists e, bm25Search query cs topK = inl e) <->
   exists c term,
     In c cs /\ In term (queryTermsOf query) /\
     RegExp_matchCount term (JSString.toLowerCase (content c)) = None).
Proof.
  split; [intros e H; apply (bm25Search_errors query cs topK e H) |].
  split.
  - intros [e H]. apply (bm25Search_errors query cs topK e H).
  - intros [c [term [Hin [Hterm Hre]]]].
    destruct (bm25Search query cs topK) as [e | m] eqn:Hsearch; [eauto |].
    exfalso. unfold bm25Search in Hsearch.
    destruct (bm25Step_returned _ _ _ _ _ _ c Hin Hsearch) as [score Hscore].
    unfold chunkScore in Hscore.
    apply (scoreStep_returned _ _ _ _ _ _ Hscore term Hterm Hre).
Qed.



(** Provider failures never make [hybridRetrieval] throw.  The only
    exception it throws is the SyntaxError of a query term that is not a
    regular expression; when every query term is one for every stored
    chunk, it never throws. *)
Theorem hybridRetrieval_throws_only_SyntaxError
  (st : MemStorage) (query : string) (topK : Z) :
  throws_all
    (fun e =>
       e = SyntaxError /\
       exists c term,
         In c (getChunks st) /\ In term (queryTermsOf query) /\
         RegExp_matchCount term (JSString.toLowerCase (content c)) = None)
    (hybridRetrieval st query topK) /\
  ((forall c term,
      In c (getChunks st) -> In term (queryTermsOf query) ->
      RegExp_matchCount term (JSString.toLowerCase (content c)) <> None) ->
   never_throws (hybridRetrieval st query topK)).
Proof.
  assert (H : throws_all
    (fun e =>
       e = SyntaxError /\
       exists c term,
         In c (getChunks st) /\ In term (queryTermsOf query) /\
         RegExp_matchCount term (JSString.toLowerCase (content c)) = None)
    (hybridRetrieval st query topK)).
  { unfold hybridRetrieval.
    destruct (length (getChunks st) =? 0)%nat; [exact I |].
    cbn [bind ret Monad_Prog].
    apply throws_all_bind; [apply throws_all_tryCatch; intros e; exact I |].
    intros variations.
    apply throws_all_bind.
    - unfold vectorSearch. destruct (existsb hasEmbedding (getChunks st)); [| exact I].
      apply throws_all_tryCatch. intros e. exact I.
    - intros vectorScores.
      apply throws_all_bind; [| intros bm25Scores; exact I].
      destruct (bm25Search query (getChunks st) (topK * 2)) as [e | m] eqn:Hsearch;
        [| exact I].
      simpl.
      destruct (bm25Search_errors query (getChunks st) (topK * 2) e Hsearch) as [He Hex].
      split; assumption. }
  split; [exact H |].
  intros Hvalid. apply (throws_all_never _ _ H).
  intros e [_ [c [term [Hin [Hterm Hre]]]]].
  apply (Hvalid c term Hin Hterm Hre).
Qed.

Lemma subseq_map {A B : Type} (f : A -> B) (l1 l2 : list A) :
  subseq l1 l2 -> subseq (map f l1) (map f l2).
Proof.
  induction 1 as [| a l1 l2 Hs IH | a l1 l2 Hs IH]; simpl.
  - constructor.
  - apply subseq_skip, IH.
  - apply subseq_keep, IH.
Qed.

Lemma combined_wf (vectorScores bm25Scores : JSMap.t Q) (cs : list Chunk)
  (acc : JSMap.t Scores) :
  JSMap.wf acc ->
  JSMap.wf (fold_left (combineStep vectorScores bm25Scores) cs acc).
Proof.
  revert acc. induction cs as [| c cs IH]; simpl; intros acc Hwf; [exact Hwf |].
  apply IH. unfold combineStep.
  match goal with |- context [if ?t then _ else _] => destruct t end;
    [apply JSMap_set_wf, Hwf | exact Hwf].
Qed.

Lemma rerank_ids_NoDup (vectorScores bm25Scores : JSMap.t Q) (allChunks : list Chunk)
  (query : string) :
  NoDup (map r_id (rerank vectorScores bm25Scores allChunks query)).
Proof.
  unfold rerank.
  destruct (reranked_ids allChunks query
              (fold_left (combineStep vectorScores bm25Scores) allChunks JSMap.empty) [])
    as [extra [-> Hs]].
  simpl. apply (subseq_NoDup _ _ Hs).
  apply (combined_wf vectorScores bm25Scores allChunks JSMap.empty). constructor.
Qed.

Lemma rerank_from_corpus (vectorScores bm25Scores : JSMap.t Q) (allChunks : list Chunk)
  (query : string) :
  Forall (fun r =>
    exists c, In c allChunks /\
              r_id r = id c /\ r_content r = content c /\
              r_documentId r = documentId c /\ r_metadata r = metadata c)
    (rerank vectorScores bm25Scores allChunks query).
Proof.
  unfold rerank. apply fold_left_invariant; [constructor |].
  intros results [chunkId scores] _ Hres. unfold rerankStep.
  destruct (find (fun c => String.eqb (id c) chunkId) allChunks) as [chunk |] eqn:Hfind;
    [| exact Hres].
  apply Forall_app. split; [exact Hres |].
  constructor; [| constructor].
  apply find_some in Hfind. destruct Hfind as [Hin _].
  exists chunk. simpl. auto.
Qed.

(** Every result of [hybridRetrieval] is a stored chunk, with its id,
    content, document and metadata, and no chunk is returned twice. *)
Theorem hybridRetrieval_results_are_stored_chunks
  (st : MemStorage) (query : string) (topK : Z) :
  returns_all
    (fun results =>
       NoDup (map r_id results) /\
       Forall (fun r =>
         exists c, In c (getChunks st) /\
                   r_id r = id c /\ r_content r = content c /\
                   r_documentId r = documentId c /\ r_metadata r = metadata c)
         results)
    (hybridRetrieval st query topK).
Proof.
  unfold hybridRetrieval.
  destruct (length (getChunks st) =? 0)%nat; [simpl; split; constructor |].
  cbn [bind ret Monad_Prog].
  apply returns_all_bind, returns_all_any. intros variations.
  apply returns_all_bind, returns_all_any. intros vectorScores.
  apply returns_all_bind.
  destruct (bm25Search query (getChunks st) (topK * 2)) as [e | bm25Scores];
    simpl; [exact I |].
  split.
  - apply (subseq_NoDup _ _ (subseq_map r_id _ _ (slice0_subseq topK _))).
    eapply Permutation_NoDup.
    + apply Permutation_map, Permutation_sym, sortDesc_Permutation.
    + apply rerank_ids_NoDup.
  - apply sorted_sliced_Forall, rerank_from_corpus.
Qed.

(** [hybridRetrieval] returns no chunk that matched nothing: every
    result has a positive [combinedScore] and a positive [vectorScore] or
    a positive [bm25Score]. *)
Theorem hybridRetrieval_results_matched (st : MemStorage) (query : string) (topK : Z) :
  returns_all
    (Forall (fun r =>
       0 < combinedScore r /\ (0 < vectorScore r \/ 0 < bm25Score r)))
    (hybridRetrieval st query topK).
Proof.
  eapply returns_all_mono; [| apply hybridRetrieval_spec].
  intros results [u [_ [Hfused _]]].
  eapply Forall_impl; [| exact Hfused].
  intros r [[Hv0 Hv1] [[Hb0 Hb1] [Hpos [Heq _]]]].
  assert (Hboost := boostOf_ge_1 query (r_metadata r)).
  split.
  - rewrite Heq. apply Q.min_glb_lt; [| reflexivity].
    apply Qmult_lt_0_compat; lra.
  - destruct (Qlt_le_dec 0 (vectorScore r)) as [Hv | Hv]; [left; exact Hv |].
    right. unfold vectorWeightOf, bm25WeightOf in Hpos.
    destruct u; nra.
Qed.

End MoreRetrievalProperties.

(** The calls of a retrieval whose embedding requests are all rejected.
    Each of the three calls of [generateEmbedding] makes its own
    requests although the first one already rejects: four provider calls
    on a status 500, and the whole budget of ten on a rate limit. *)
Lemma hybridRetrieval_calls_on_rejection :
  calls (rejectingProviders 500)
    (hybridRetrieval (host := sampleHost) embeddedStorage "pit stop" 5)
  = [CallChat "pit stop"; CallEmbedding (JStr "pit stop");
     CallEmbedding (JStr "p1"); CallEmbedding (JStr "p2")] /\
  calls (rejectingProviders 429)
    (hybridRetrieval (host := sampleHost) embeddedStorage "pit stop" 5)
  = [CallChat "pit stop";
     CallEmbedding (JStr "pit stop"); CallTimer 1000;
     CallEmbedding (JStr "pit stop"); CallTimer 2000;
     CallEmbedding (JStr "pit stop");
     CallEmbedding (JStr "p1"); CallTimer 1000;
     CallEmbedding (JStr "p1"); CallTimer 2000;
     CallEmbedding (JStr "p1");
     CallEmbedding (JStr "p2"); CallTimer 1000;
     CallEmbedding (JStr "p2"); CallTimer 2000;
     CallEmbedding (JStr "p2")].
Proof.
  split; vm_compute; reflexivity.
Qed.

(* ================================================================= *)
(** * Writing and deleting in the storage *)

Lemma JSMap_set_fresh {V : Type} (k : string) (v : V) (m : JSMap.t V) :
  ~ In k (JSMap.keys m) -> JSMap.set k v m = m ++ [(k, v)].
Proof.
  induction m as [| [k' v'] m IH]; simpl; intros Hnot; [reflexivity |].
  destruct (String.eqb_spec k k') as [-> | Hne].
  - exfalso. apply Hnot. left. reflexivity.
  - rewrite IH; [reflexivity |]. intros Hin. apply Hnot. right. exact Hin.
Qed.

Lemma JSMap_keys_set_present {V : Type} (k : string) (v v' : V) (m : JSMap.t V) :
  JSMap.get k m = Some v' -> JSMap.keys (JSMap.set k v m) = JSMap.keys m.
Proof.
  induction m as [| [k0 v0] m IH]; simpl; intros Hget; [discriminate |].
  destruct (String.eqb_spec k k0) as [-> | Hne]; simpl; [reflexivity |].
  rewrite IH by exact Hget. reflexivity.
Qed.

Lemma JSMap_get_None {V : Type} (k : string) (m : JSMap.t V) :
  JSMap.get k m = None <-> ~ In k (JSMap.keys m).
Proof.
  induction m as [| [k0 v0] m IH]; simpl.
  - split; [intros _ [] | reflexivity].
  - destruct (String.eqb_spec k k0) as [-> | Hne].
    + split; [discriminate | intros H; exfalso; apply H; left; reflexivity].
    + rewrite IH. split.
      * intros H [E | Hin]; [apply Hne; symmetry; exact E | exact (H Hin)].
      * intros H Hin. apply H. right. exact Hin.
Qed.

Lemma JSMap_delete_absent {V : Type} (k : string) (m : JSMap.t V) :
  ~ In k (JSMap.keys m) -> JSMap.delete k m = m.
Proof.
  induction m as [| [k0 v0] m IH]; simpl; intros Hnot; [reflexivity |].
  destruct (String.eqb_spec k k0) as [-> | Hne].
  - exfalso. apply Hnot. left. reflexivity.
  - rewrite IH; [reflexivity |]. intros Hin. apply Hnot. right. exact Hin.
Qed.

Lemma JSMap_delete_removes {V : Type} (k : string) (m : JSMap.t V) :
  JSMap.wf m -> ~ In k (JSMap.keys (JSMap.delete k m)).
Proof.
  unfold JSMap.wf. induction m as [| [k0 v0] m IH]; simpl; intros Hnd; [intros [] |].
  inversion Hnd as [| ? ? Hnot Hnd']; subst.
  destruct (String.eqb_spec k k0) as [-> | Hne]; [exact Hnot |].
  simpl. intros [E | Hin]; [apply Hne; symmetry; exact E | exact (IH Hnd' Hin)].
Qed.

Lemma filter_keys_NoDup {V : Type} (keep : string * V -> bool) (m : JSMap.t V) :
  JSMap.wf m -> JSMap.wf (filter keep m).
Proof.
  unfold JSMap.wf, JSMap.keys. intros Hnd.
  apply (subseq_NoDup _ _ (subseq_map fst _ _ (subseq_filter keep m)) Hnd).
Qed.

Lemma filter_idempotent {A : Type} (p : A -> bool) (l : list A) :
  filter p (filter p l) = filter p l.
Proof.
  induction l as [| a l IH]; simpl; [reflexivity |].
  destruct (p a) eqn:E; simpl; [rewrite E, IH |]; auto.
Qed.

Lemma filter_all {A : Type} (p : A -> bool) (l : list A) :
  (forall x, In x l -> p x = true) -> filter p l = l.
Proof.
  induction l as [| a l IH]; simpl; intros H; [reflexivity |].
  rewrite (H a) by (left; reflexivity). rewrite IH; [reflexivity |].
  intros x Hx. apply H. right. exact Hx.
Qed.

(** [createChunk] with an identifier that is not in use stores the chunk
    after all the others, under that identifier, and keeps the keys of
    the map distinct; the documents are not touched. *)
Theorem createChunk_appends (st : MemStorage) (uuid : string) (chunk : InsertChunk) :
  JSMap.wf (chunks st) ->
  ~ In uuid (JSMap.keys (chunks st)) ->
  let (created, st') := createChunk st uuid chunk in
  getChunks st' = getChunks st ++ [created] /\
  JSMap.get uuid (chunks st') = Some created /\
  id created = uuid /\
  (forall k, k <> uuid -> JSMap.get k (chunks st') = JSMap.get k (chunks st)) /\
  JSMap.wf (chunks st') /\
  documents st' = documents st.
Proof.
  intros Hwf Hfresh. unfold createChunk, getChunks. cbn [chunks documents].
  split; [| split; [| split; [| split; [| split]]]].
  - rewrite JSMap_set_fresh by exact Hfresh.
    unfold JSMap.values. rewrite map_app. reflexivity.
  - apply JSMap_get_set_same.
  - reflexivity.
  - intros k Hk. apply JSMap_get_set_other, Hk.
  - apply JSMap_set_wf, Hwf.
  - reflexivity.
Qed.

Lemma createChunk_appends_witness :
  JSMap.wf (chunks sampleStorage) /\
  ~ In "u1" (JSMap.keys (chunks sampleStorage)) /\
  getChunks (snd (createChunk sampleStorage "u1"
                    (mkInsertChunk "d1" "soft tires" 2 None None)))
  = [chunkA; chunkB; chunkM; mkChunk "u1" "d1" "soft tires" 2 None None] /\
  JSMap.get "u1" (chunks (snd (createChunk sampleStorage "u1"
                                 (mkInsertChunk "d1" "soft tires" 2 None None))))
  = Some (mkChunk "u1" "d1" "soft tires" 2 None None) /\
  JSMap.get "b" (chunks (snd (createChunk sampleStorage "u1"
                                (mkInsertChunk "d1" "soft tires" 2 None None))))
  = Some chunkB /\
  JSMap.wf (chunks (snd (createChunk sampleStorage "u1"
                           (mkInsertChunk "d1" "soft tires" 2 None None)))) /\
  documents (snd (createChunk sampleStorage "u1"
                    (mkInsertChunk "d1" "soft tires" 2 None None)))
  = documents sampleStorage.
Proof.
  assert (Hwf : JSMap.wf (chunks sampleStorage)).
  { unfold JSMap.wf. vm_compute. repeat constructor; simpl; intuition discriminate. }
  assert (Hfresh : ~ In "u1" (JSMap.keys (chunks sampleStorage))).
  { simpl. intuition discriminate. }
  split; [exact Hwf |]. split; [exact Hfresh |].
  assert (H := createChunk_appends sampleStorage "u1"
                 (mkInsertChunk "d1" "soft tires" 2 None None) Hwf Hfresh).
  destruct (createChunk sampleStorage "u1" (mkInsertChunk "d1" "soft tires" 2 None None))
    as [created st'] eqn:E.
  destruct H as [H1 [H2 [H3 [H4 [H5 H6]]]]]. cbn [snd].
  assert (Hcreated : created = mkChunk "u1" "d1" "soft tires" 2 None None).
  { unfold createChunk in E. injection E as <- _. reflexivity. }
  split; [rewrite H1, Hcreated; reflexivity |].
  split; [rewrite H2, Hcreated; reflexivity |].
  split; [rewrite (H4 "b"%string) by discriminate; reflexivity |].
  split; [exact H5 | exact H6].
Defined.

(** [updateChunkEmbedding] on an identifier that is not stored changes
    nothing.  On a stored one it replaces the embedding of that chunk and
    nothing else: no chunk is added, removed or moved, and every other
    chunk and every document is as before. *)
Theorem updateChunkEmbedding_spec (st : MemStorage) (chunkId : string) (e : list Q) :
  (JSMap.get chunkId (chunks st) = None -> updateChunkEmbedding st chunkId e = st) /\
  (forall chunk,
     JSMap.get chunkId (chunks st) = Some chunk ->
     JSMap.get chunkId (chunks (updateChunkEmbedding st chunkId e))
     = Some (withEmbedding chunk e)) /\
  JSMap.keys (chunks (updateChunkEmbedding st chunkId e)) = JSMap.keys (chunks st) /\
  (forall k, k <> chunkId ->
     JSMap.get k (chunks (updateChunkEmbedding st chunkId e)) = JSMap.get k (chunks st)) /\
  documents (updateChunkEmbedding st chunkId e) = documents st.
Proof.
  unfold updateChunkEmbedding.
  destruct (JSMap.get chunkId (chunks st)) as [chunk |] eqn:Hget; cbn [chunks documents].
  - split; [discriminate |].
    split; [intros c Hc; injection Hc as <-; apply JSMap_get_set_same |].
    split; [eapply JSMap_keys_set_present; eauto |].
    split; [intros k Hk; apply JSMap_get_set_other, Hk | reflexivity].
  - split; [reflexivity |].
    split; [discriminate |].
    split; [reflexivity |]. split; reflexivity.
Qed.

Lemma updateChunkEmbedding_spec_witness :
  JSMap.get "zz" (chunks sampleStorage) = None /\
  updateChunkEmbedding sampleStorage "zz" [1; 0] = sampleStorage /\
  JSMap.get "a" (chunks sampleStorage) = Some chunkA /\
  JSMap.get "a" (chunks (updateChunkEmbedding sampleStorage "a" [1; 0]))
  = Some (withEmbedding chunkA [1; 0]).
Proof.
  assert (H1 : JSMap.get "zz" (chunks sampleStorage) = None) by reflexivity.
  assert (H2 : JSMap.get "a" (chunks sampleStorage) = Some chunkA) by reflexivity.
  split; [exact H1 |].
  split; [exact (proj1 (updateChunkEmbedding_spec sampleStorage "zz" [1; 0]) H1) |].
  split; [exact H2 |].
  exact (proj1 (proj2 (updateChunkEmbedding_spec sampleStorage "a" [1; 0])) chunkA H2).
Defined.

(** [deleteDocument] keeps the keys of the chunk map distinct, deleting
    twice is deleting once, and deleting an identifier that no document
    and no chunk carries changes nothing. *)
Theorem deleteDocument_idempotent (st : MemStorage) (docId : string) :
  JSMap.wf (documents st) ->
  JSMap.wf (chunks st) ->
  JSMap.wf (chunks (deleteDocument st docId)) /\
  deleteDocument (deleteDocument st docId) docId = deleteDocument st docId /\
  (~ In docId (JSMap.keys (documents st)) ->
   (forall c, In c (getChunks st) -> documentId c <> docId) ->
   deleteDocument st docId = st).
Proof.
  intros Hdocs Hwf.
  assert (Hwf' : JSMap.wf (chunks (deleteDocument st docId))).
  { rewrite deleteDocument_chunks by exact Hwf. apply filter_keys_NoDup, Hwf. }
  split; [exact Hwf' |]. split.
  - assert (Hc : chunks (deleteDocument (deleteDocument st docId) docId)
                 = chunks (deleteDocument st docId)).
    { rewrite (deleteDocument_chunks (deleteDocument st docId)) by exact Hwf'.
      rewrite (deleteDocument_chunks st) by exact Hwf. apply filter_idempotent. }
    assert (Hd : documents (deleteDocument (deleteDocument st docId) docId)
                 = documents (deleteDocument st docId)).
    { unfold deleteDocument at 1. cbn [documents].
      apply JSMap_delete_absent. unfold deleteDocument. cbn [documents].
      apply JSMap_delete_removes, Hdocs. }
    destruct (deleteDocument (deleteDocument st docId) docId) as [d1 c1].
    destruct (deleteDocument st docId) as [d2 c2].
    cbn [chunks documents] in *. subst. reflexivity.
  - intros Hnodoc Hnochunk.
    assert (Hc : chunks (deleteDocument st docId) = chunks st).
    { rewrite deleteDocument_chunks by exact Hwf. apply filter_all.
      intros [k c] Hin. simpl.
      destruct (String.eqb_spec (documentId c) docId) as [E | E]; [| reflexivity].
      exfalso. apply (Hnochunk c); [| exact E].
      unfold getChunks, JSMap.values. apply in_map_iff. exists (k, c). auto. }
    assert (Hd : documents (deleteDocument st docId) = documents st).
    { unfold deleteDocument. cbn [documents]. apply JSMap_delete_absent, Hnodoc. }
    destruct (deleteDocument st docId) as [d1 c1]. destruct st as [d0 c0].
    cbn [chunks documents] in *. subst. reflexivity.
Qed.

Lemma deleteDocument_idempotent_witness :
  JSMap.wf (documents sampleStorage) /\
  JSMap.wf (chunks sampleStorage) /\
  deleteDocument (deleteDocument sampleStorage "d1") "d1"
  = deleteDocument sampleStorage "d1".
Proof.
  assert (Hd : JSMap.wf (documents sampleStorage)).
  { unfold JSMap.wf. simpl. repeat constructor; simpl; intuition discriminate. }
  assert (Hc : JSMap.wf (chunks sampleStorage)).
  { unfold JSMap.wf. simpl. repeat constructor; simpl; intuition discriminate. }
  split; [exact Hd |]. split; [exact Hc |].
  exact (proj1 (proj2 (deleteDocument_idempotent sampleStorage "d1" Hd Hc))).
Defined.

(* ================================================================= *)
(** * Vector search *)

Lemma slice0_exact {A : Type} (k : Z) (l : list A) :
  (0 <= k)%Z -> length (slice0 k l) = Nat.min (Z.to_nat k) (length l).
Proof.
  intros Hk. unfold slice0.
  destruct (k <? 0)%Z eqn:E; [apply Z.ltb_lt in E; lia |].
  apply length_firstn.
Qed.

Section VectorProperties.
Context {host : Host}.

(** What [searchChunksByEmbedding] returns: the chunks that have a
    non-empty embedding, scored by the cosine similarity with the query
    embedding, in descending order of that score and, for a non-negative
    [topK], the first [topK] of them (all of them when there are fewer);
    the keyword score of a result is 0 and its combined score is its
    vector score. *)
Theorem searchChunksByEmbedding_spec (st : MemStorage) (queryEmbedding : list Q)
  (topK : Z) :
  Forall (fun r =>
    bm25Score r = 0 /\ combinedScore r = vectorScore r /\
    exists c e,
      In c (getChunks st) /\ embedding c = Some e /\ e <> [] /\
      r_id r = id c /\ vectorScore r = cosineSimilarity queryEmbedding e)
    (searchChunksByEmbedding st queryEmbedding topK) /\
  (forall r1 r2,
     precedes r1 r2 (searchChunksByEmbedding st queryEmbedding topK) ->
     vectorScore r2 <= vectorScore r1) /\
  ((0 <= topK)%Z ->
   length (searchChunksByEmbedding st queryEmbedding topK)
   = Nat.min (Z.to_nat topK) (length (filter hasEmbedding (getChunks st)))).
Proof.
  unfold searchChunksByEmbedding. fold (getChunks st).
  set (scored := map (scoreChunk queryEmbedding) (filter hasEmbedding (getChunks st))).
  assert (Hscored : Forall (fun r =>
    bm25Score r = 0 /\ combinedScore r = vectorScore r /\
    exists c e,
      In c (getChunks st) /\ embedding c = Some e /\ e <> [] /\
      r_id r = id c /\ vectorScore r = cosineSimilarity queryEmbedding e) scored).
  { unfold scored. rewrite Forall_map. rewrite Forall_forall.
    intros c Hin. apply filter_In in Hin. destruct Hin as [Hin Hemb].
    unfold hasEmbedding in Hemb.
    destruct (embedding c) as [e |] eqn:He; [| discriminate].
    split; [reflexivity |]. split; [reflexivity |].
    exists c, e. unfold scoreChunk; simpl. rewrite He.
    repeat split; auto.
    intros ->. discriminate. }
  split; [apply sorted_sliced_Forall, Hscored |].
  split.
  - intros r1 r2 Hp.
    apply (precedes_subseq _ _ _ _ (slice0_subseq _ _)) in Hp.
    assert (Hle := sorted_precedes _ _ _ _ (sortDesc_sorted combinedScore scored) Hp).
    simpl in Hle.
    assert (H1 : In r1 scored /\ In r2 scored).
    { destruct Hp as [l1 [l2 [l3 E]]].
      assert (Hperm := sortDesc_Permutation combinedScore scored).
      rewrite E in Hperm. split.
      - eapply Permutation_in; [exact Hperm |].
        apply in_or_app. right. left. reflexivity.
      - eapply Permutation_in; [exact Hperm |].
        apply in_or_app. right. right. apply in_or_app. right. left. reflexivity. }
    rewrite Forall_forall in Hscored.
    destruct (Hscored r1 (proj1 H1)) as [_ [E1 _]].
    destruct (Hscored r2 (proj2 H1)) as [_ [E2 _]].
    rewrite <- E1, <- E2. exact Hle.
  - intros Hk. rewrite (slice0_exact _ _ Hk).
    rewrite (Permutation_length (sortDesc_Permutation combinedScore scored)).
    unfold scored. rewrite length_map. reflexivity.
Qed.

Lemma cosine_fold_zero_left (a b : list Q) (dot na nb : Q) :
  Forall (fun x => x == 0) a -> na == 0 ->
  snd (fst (fold_left cosineStep (combine a b) (dot, na, nb))) == 0.
Proof.
  revert b dot na nb. induction a as [| x a IH]; intros [| y b] dot na nb Ha Hna;
    simpl; try exact Hna.
  inversion Ha as [| ? ? Hx Ha']; subst.
  apply IH; [exact Ha' |]. rewrite Hna, Hx. ring.
Qed.

Lemma cosine_fold_zero_right (a b : list Q) (dot na nb : Q) :
  Forall (fun y => y == 0) b -> nb == 0 ->
  snd (fold_left cosineStep (combine a b) (dot, na, nb)) == 0.
Proof.
  revert b dot na nb. induction a as [| x a IH]; intros [| y b] dot na nb Hb Hnb;
    simpl; try exact Hnb.
  inversion Hb as [| ? ? Hy Hb']; subst.
  apply IH; [exact Hb' |]. rewrite Hnb, Hy. ring.
Qed.

(** No division by zero: when the square root of zero is zero, the
    similarity with a vector of zeros is exactly 0. *)
Theorem cosineSimilarity_zero_vector (a b : list Q) :
  (forall x, x == 0 -> Math_sqrt x == 0) ->
  Forall (fun x => x == 0) a \/ Forall (fun y => y == 0) b ->
  cosineSimilarity a b = 0.
Proof.
  intros Hsqrt Hzero. unfold cosineSimilarity.
  destruct (negb (length a =? length b)%nat || (length a =? 0)%nat); [reflexivity |].
  assert (Hl := fun H => cosine_fold_zero_left a b 0 0 0 H (Qeq_refl 0)).
  assert (Hr := fun H => cosine_fold_zero_right a b 0 0 0 H (Qeq_refl 0)).
  destruct (fold_left cosineStep (combine a b) (0, 0, 0)) as [[dot na] nb].
  simpl in Hl, Hr.
  assert (Hden : Math_sqrt na * Math_sqrt nb == 0).
  { destruct Hzero as [Ha | Hb].
    - rewrite (Hsqrt na (Hl Ha)). ring.
    - rewrite (Hsqrt nb (Hr Hb)). ring. }
  apply Qeq_bool_iff in Hden. rewrite Hden. reflexivity.
Qed.

End VectorProperties.

Lemma sampleSqrt_zero (x : Q) : x == 0 -> sampleSqrt x == 0.
Proof.
  unfold sampleSqrt, Qeq. simpl. intros H.
  assert (E : Qnum x = 0%Z) by lia. rewrite E. reflexivity.
Qed.

Lemma cosineSimilarity_zero_vector_witness :
  (forall x, x == 0 -> Math_sqrt (Host := sampleHost) x == 0) /\
  (Forall (fun x => x == 0) [0; 0] \/ Forall (fun y => y == 0) [3; 4]) /\
  cosineSimilarity (host := sampleHost) [0; 0] [3; 4] = 0.
Proof.
  assert (Hs : forall x, x == 0 -> Math_sqrt (Host := sampleHost) x == 0)
    by exact sampleSqrt_zero.
  assert (Hz : Forall (fun x => x == 0) [0; 0] \/ Forall (fun y => y == 0) [3; 4]).
  { left. repeat constructor; reflexivity. }
  split; [exact Hs |]. split; [exact Hz |].
  apply (cosineSimilarity_zero_vector (host := sampleHost) [0; 0] [3; 4] Hs Hz).
Defined.

(* ================================================================= *)
(** * Response generation *)

Lemma length_sliceTo (n : nat) (s : string) :
  String.length (JSString.sliceTo n s) = Nat.min n (String.length s).
Proof.
  revert s. induction n as [| n IH]; intros [| c s]; simpl; try reflexivity.
  rewrite IH. reflexivity.
Qed.

Lemma sliceTo_all (n : nat) (s : string) :
  (String.length s <= n)%nat -> JSString.sliceTo n s = s.
Proof.
  revert s. induction n as [| n IH]; intros [| c s]; simpl; intros H;
    try reflexivity; try lia.
  rewrite IH by lia. reflexivity.
Qed.

Lemma string_length_append (s1 s2 : string) :
  String.length (s1 ++ s2) = (String.length s1 + String.length s2)%nat.
Proof.
  induction s1 as [| c s1 IH]; simpl; [reflexivity | rewrite IH; reflexivity].
Qed.

Lemma string_append_empty (s : string) : (s ++ "")%string = s.
Proof.
  induction s as [| c s IH]; simpl; [reflexivity | rewrite IH; reflexivity].
Qed.

Lemma excerptOf_cases (text : string) :
  ((String.length text <= 200)%nat -> excerptOf text = text) /\
  ((200 < String.length text)%nat ->
   excerptOf text = (JSString.sliceTo 200 text ++ "...")%string /\
   String.length (excerptOf text) = 203%nat) /\
  (String.length (excerptOf text) <= 203)%nat.
Proof.
  unfold excerptOf.
  destruct (Nat.ltb_spec 200 (String.length text)) as [Hlong | Hshort].
  - split; [lia |].
    assert (Hlen : String.length (JSString.sliceTo 200 text ++ "...") = 203%nat).
    { rewrite string_length_append, length_sliceTo.
      change (String.length "...") with 3%nat. lia. }
    split; [intros _; split; [reflexivity | exact Hlen] | lia].
  - rewrite string_append_empty, (sliceTo_all 200 text Hshort).
    split; [reflexivity |]. split; [lia | lia].
Qed.

Lemma sourcesOf_inr (retrievedChunks : list RetrievedChunk) (citations : list SourceCitation) :
  sourcesOf retrievedChunks = inr citations ->
  map sc_chunkId citations = map r_id retrievedChunks /\
  map sc_documentId citations = map r_documentId retrievedChunks /\
  map sc_relevanceScore citations = map combinedScore retrievedChunks /\
  map sc_excerpt citations = map (fun r => excerptOf (r_content r)) retrievedChunks.
Proof.
  revert citations. induction retrievedChunks as [| r rs IH]; simpl; intros citations H.
  - injection H as <-. repeat split.
  - unfold citationOf in H. destruct (r_metadata r) as [m |]; [| discriminate].
    destruct (sourcesOf rs) as [e | cs]; [discriminate |].
    injection H as <-. destruct (IH cs eq_refl) as [H1 [H2 [H3 H4]]].
    simpl. rewrite H1, H2, H3, H4. repeat split.
Qed.

Lemma sourcesOf_error (retrievedChunks : list RetrievedChunk) (e : Exn) :
  sourcesOf retrievedChunks = inl e ->
  e = TypeError /\ exists r, In r retrievedChunks /\ r_metadata r = None.
Proof.
  induction retrievedChunks as [| r rs IH]; simpl; [discriminate |].
  unfold citationOf. destruct (r_metadata r) as [m |] eqn:Hm.
  - destruct (sourcesOf rs) as [e' | cs]; [| discriminate].
    intros H. injection H as <-. destruct (IH eq_refl) as [He [r' [Hin Hr']]].
    split; [exact He |]. exists r'. auto.
  - intros H. injection H as <-. split; [reflexivity |]. exists r. auto.
Qed.

Lemma sourcesOf_null_metadata (retrievedChunks : list RetrievedChunk) (r : RetrievedChunk) :
  In r retrievedChunks -> r_metadata r = None ->
  sourcesOf retrievedChunks = inl TypeError.
Proof.
  induction retrievedChunks as [| r' rs IH]; simpl; [intros [] |].
  intros [-> | Hin] Hr.
  - unfold citationOf. rewrite Hr. reflexivity.
  - unfold citationOf. destruct (r_metadata r') as [m |]; [| reflexivity].
    rewrite (IH Hin Hr). reflexivity.
Qed.

Lemma responseText_nonempty (contentOfFirstChoice : option string) :
  responseText contentOfFirstChoice <> EmptyString.
Proof.
  unfold responseText. destruct contentOfFirstChoice as [[| c s] |]; simpl;
    discriminate.
Qed.

(** generateResponse reads the metadata of every retrieved chunk before
    it calls the provider: when one of them has no metadata, it throws a
    TypeError and the provider is never called. *)
Theorem generateResponse_null_metadata
  (query : string) (retrievedChunks : list RetrievedChunk) (r : RetrievedChunk) :
  In r retrievedChunks -> r_metadata r = None ->
  generateResponse query retrievedChunks = Throw TypeError /\
  forall env, calls env (generateResponse query retrievedChunks) = [].
Proof.
  intros Hin Hr. unfold generateResponse.
  rewrite (sourcesOf_null_metadata retrievedChunks r Hin Hr).
  split; [reflexivity | intros env; reflexivity].
Qed.

(** generateResponse calls the chat provider at most once, with the
    query as the user content.  What it returns has a non-empty response
    text (the apology when the provider's text is missing or empty) and
    one citation per retrieved chunk, in the order of the chunks, each
    with the chunk's identifiers and score and an excerpt of at most 203
    characters (the first 200 of the content, then three dots when
    something was cut). *)
Theorem generateResponse_returns
  (query : string) (retrievedChunks : list RetrievedChunk) :
  callsAtMost 1 (generateResponse query retrievedChunks) /\
  (forall env, calls env (generateResponse query retrievedChunks) = [] \/
               calls env (generateResponse query retrievedChunks) = [CallChat query]) /\
  returns_all
    (fun g =>
       response g <> EmptyString /\
       map sc_chunkId (sources g) = map r_id retrievedChunks /\
       map sc_documentId (sources g) = map r_documentId retrievedChunks /\
       map sc_relevanceScore (sources g) = map combinedScore retrievedChunks /\
       map sc_excerpt (sources g) = map (fun r => excerptOf (r_content r)) retrievedChunks /\
       Forall (fun c => (String.length (sc_excerpt c) <= 203)%nat) (sources g))
    (generateResponse query retrievedChunks).
Proof.
  unfold generateResponse.
  destruct (sourcesOf retrievedChunks) as [e | citations] eqn:Hs.
  - simpl. split; [exact I |]. split; [intros env; left; reflexivity | exact I].
  - destruct (sourcesOf_inr retrievedChunks citations Hs) as [H1 [H2 [H3 H4]]].
    split; [| split].
    + simpl. intros [e | [| c cs]]; exact I.
    + intros env. right. simpl.
      destruct (chatAnswer env query) as [e | [| c cs]]; reflexivity.
    + simpl. intros [e | [| c cs]]; simpl; try exact I.
      split; [apply responseText_nonempty |].
      repeat (split; [assumption |]).
      apply Forall_forall. intros c' Hin.
      apply (in_map sc_excerpt) in Hin. rewrite H4 in Hin.
      apply in_map_iff in Hin. destruct Hin as [r [<- _]].
      apply excerptOf_cases.
Qed.

Lemma generateResponse_null_metadata_witness :
  generateResponse "tires" [chunkWithoutMetadata] = Throw TypeError /\
  forall env, calls env (generateResponse "tires" [chunkWithoutMetadata]) = [].
Proof.
  apply (generateResponse_null_metadata "tires" [chunkWithoutMetadata] chunkWithoutMetadata).
  - simpl. left. reflexivity.
  - reflexivity.
Defined.

(* ================================================================= *)
(** * Storing and embedding the chunks of a document *)

Lemma never_throws_bind {A B : Type} (p : Prog A) (f : A -> Prog B) :
  never_throws p -> (forall a, never_throws (f a)) -> never_throws (Prog_bind p f).
Proof.
  intros Hp Hf. induction p as [a | e | q k IH | x k IH | d k IH]; simpl in *; auto.
Qed.

Lemma never_throws_tryCatch {A : Type} (p : Prog A) (h : Exn -> Prog A) :
  (forall e, never_throws (h e)) -> never_throws (tryCatch p h).
Proof.
  intros Hh. induction p as [a | e | q k IH | x k IH | d k IH]; simpl in *; auto.
Qed.

Lemma embedChunk_never_throws (st : MemStorage) (chunkId text : string) :
  never_throws (embedChunk st chunkId text).
Proof.
  unfold embedChunk. apply never_throws_tryCatch. intros e. exact I.
Qed.

Lemma embedChunk_calls (st : MemStorage) (chunkId text : string) :
  callsAtMost 3 (embedChunk st chunkId text).
Proof.
  unfold embedChunk.
  change 3%nat with ((3 + 0) + 0)%nat.
  apply callsAtMost_tryCatch; [| intros e; exact I].
  apply (callsAtMost_bind (fun _ => True));
    [apply generateEmbedding_calls | apply returns_all_any; auto |].
  intros a _. exact I.
Qed.

Lemma embedChunk_returns (st : MemStorage) (chunkId text : string) :
  returns_all
    (fun st' => st' = st \/ exists e, st' = updateChunkEmbedding st chunkId e)
    (embedChunk st chunkId text).
Proof.
  unfold embedChunk. apply returns_all_tryCatch.
  - apply returns_all_bind. apply returns_all_any. intros e. simpl. right.
    exists e. reflexivity.
  - intros e. simpl. left. reflexivity.
Qed.

Lemma JSMap_set_set {V : Type} (k : string) (v v' : V) (m : JSMap.t V) :
  JSMap.set k v' (JSMap.set k v m) = JSMap.set k v' m.
Proof.
  induction m as [| [k0 v0] m IH]; simpl.
  - rewrite String.eqb_refl. reflexivity.
  - destruct (String.eqb_spec k k0) as [-> | Hne]; simpl.
    + rewrite String.eqb_refl. reflexivity.
    + destruct (String.eqb_spec k k0); [contradiction |]. rewrite IH. reflexivity.
Qed.

Lemma storeChunks_never_throws (uuids : nat -> string) (pending : list InsertChunk) :
  forall n st, never_throws (storeChunks uuids n st pending).
Proof.
  induction pending as [| chunk pending IH]; intros n st;
    cbn [storeChunks createChunk]; [exact I |].
  apply never_throws_bind; [apply embedChunk_never_throws |].
  intros st2. apply IH.
Qed.

Lemma storeChunks_calls (uuids : nat -> string) (pending : list InsertChunk) :
  forall n st, callsAtMost (3 * length pending) (storeChunks uuids n st pending).
Proof.
  induction pending as [| chunk pending IH]; intros n st;
    cbn [storeChunks createChunk length]; [exact I |].
  replace (3 * S (length pending))%nat with (3 + 3 * length pending)%nat by lia.
  apply (callsAtMost_bind (fun _ => True) _ _ 3 (3 * length pending));
    [apply embedChunk_calls | apply returns_all_any; auto |].
  intros st2 _. apply IH.
Qed.

Lemma storeChunks_returns (uuids : nat -> string) (pending : list InsertChunk) :
  forall n st,
    NoDup (map uuids (seq n (length pending))) ->
    (forall i, In i (seq n (length pending)) ->
       ~ In (uuids i) (JSMap.keys (chunks st))) ->
    returns_all
      (fun st' =>
         documents st' = documents st /\
         exists stored,
           chunks st' = chunks st ++ stored /\
           JSMap.keys stored = map uuids (seq n (length pending)) /\
           Forall2 storedAs pending stored)
      (storeChunks uuids n st pending).
Proof.
  induction pending as [| chunk pending IH]; intros n st Hnd Hfresh.
  - simpl. split; [reflexivity |]. exists []. rewrite app_nil_r.
    split; [reflexivity |]. split; [reflexivity | constructor].
  - cbn [storeChunks createChunk]. cbn [length seq map] in Hnd, Hfresh.
    apply returns_all_bind. cbn [id content].
    assert (Hn : ~ In (uuids n) (JSMap.keys (chunks st))).
    { apply Hfresh. left. reflexivity. }
    set (newChunk := {| id := uuids n;
                        documentId := ins_documentId chunk;
                        content := ins_content chunk;
                        chunkIndex := ins_chunkIndex chunk;
                        embedding := ins_embedding chunk;
                        metadata := ins_metadata chunk |}).
    set (st1 := {| documents := documents st;
                   chunks := JSMap.set (uuids n) newChunk (chunks st) |}).
    assert (Hstep : forall st2,
               st2 = st1 \/ (exists e, st2 = updateChunkEmbedding st1 (uuids n) e) ->
               documents st2 = documents st /\
               exists c, chunks st2 = chunks st ++ [(uuids n, c)] /\
                         storedAs chunk (uuids n, c)).
    { intros st2 [-> | [e ->]].
      - split; [reflexivity |]. exists newChunk. subst st1. cbn [chunks].
        rewrite JSMap_set_fresh by exact Hn. split; [reflexivity |].
        repeat split.
      - unfold updateChunkEmbedding. subst st1. cbn [chunks documents].
        rewrite JSMap_get_set_same. cbn [chunks documents].
        split; [reflexivity |]. exists (withEmbedding newChunk e).
        rewrite JSMap_set_set, JSMap_set_fresh by exact Hn.
        split; [reflexivity |]. repeat split. }
    generalize (returns_all_mono _ _ _ Hstep
                  (embedChunk_returns st1 (uuids n) (ins_content chunk))).
    apply returns_all_mono.
    intros st2 [Hdocs [c [Hchunks Hstored]]].
    inversion Hnd as [| ? ? Hnotin Hnd']; subst.
    assert (Hfresh2 : forall i, In i (seq (S n) (length pending)) ->
                                ~ In (uuids i) (JSMap.keys (chunks st2))).
    { intros i Hi. rewrite Hchunks. unfold JSMap.keys. rewrite map_app.
      intros Hin. apply in_app_or in Hin. destruct Hin as [Hin | [Heq | []]].
      - apply (Hfresh i); [right; exact Hi | exact Hin].
      - simpl in Heq. apply Hnotin. rewrite Heq. apply in_map. exact Hi. }
    generalize (IH (S n) st2 Hnd' Hfresh2). apply returns_all_mono.
    intros st' [Hdocs' [stored [Hchunks' [Hkeys Hall]]]].
    split; [congruence |]. exists ((uuids n, c) :: stored).
    split; [rewrite Hchunks', Hchunks, <- app_assoc; reflexivity |].
    split; [simpl; rewrite Hkeys; reflexivity |].
    constructor; assumption.
Qed.

(** processDocument never throws, and calls the embedding provider at
    most three times per chunk of the document.  When the identifiers it
    draws are new to the store and differ from each other, it leaves the
    documents and the chunks already stored as they are and appends, in
    the order of chunkDocument, one chunk per chunk of the document: each
    under its own identifier and with the text, index, document and
    metadata that chunkDocument produced.  processExistingDocument is the
    same program. *)
Theorem processDocument_appends_chunks
  (uuids : nat -> string) (st : MemStorage) (document : Document) :
  NoDup (map uuids (seq 0 (length (chunkDocument document)))) ->
  (forall i, (i < length (chunkDocument document))%nat ->
     ~ In (uuids i) (JSMap.keys (chunks st))) ->
  never_throws (processDocument uuids st document) /\
  callsAtMost (3 * length (chunkDocument document)) (processDocument uuids st document) /\
  returns_all
    (fun st' =>
       documents st' = documents st /\
       exists stored,
         chunks st' = chunks st ++ stored /\
         JSMap.keys stored = map uuids (seq 0 (length (chunkDocument document))) /\
         Forall2 storedAs (chunkDocument document) stored)
    (processDocument uuids st document) /\
  processExistingDocument uuids st document = processDocument uuids st document.
Proof.
  intros Hnd Hfresh. unfold processExistingDocument, processDocument.
  split; [apply storeChunks_never_throws |].
  split; [apply storeChunks_calls |].
  split; [| reflexivity].
  apply storeChunks_returns; [exact Hnd |].
  intros i Hi. apply Hfresh. apply in_seq in Hi. lia.
Qed.

Lemma processDocument_appends_chunks_witness :
  never_throws (processDocument sampleUuids sampleStorage twoSentenceDocument) /\
  callsAtMost (3 * length (chunkDocument twoSentenceDocument))
    (processDocument sampleUuids sampleStorage twoSentenceDocument) /\
  returns_all
    (fun st' =>
       documents st' = documents sampleStorage /\
       exists stored,
         chunks st' = chunks sampleStorage ++ stored /\
         JSMap.keys stored
         = map sampleUuids (seq 0 (length (chunkDocument twoSentenceDocument))) /\
         Forall2 storedAs (chunkDocument twoSentenceDocument) stored)
    (processDocument sampleUuids sampleStorage twoSentenceDocument) /\
  processExistingDocument sampleUuids sampleStorage twoSentenceDocument
  = processDocument sampleUuids sampleStorage twoSentenceDocument.
Proof.
  apply (processDocument_appends_chunks sampleUuids sampleStorage twoSentenceDocument).
  - vm_compute. repeat constructor; simpl; intuition discriminate.
  - vm_compute. intros i Hi [H | [H | [H | []]]];
      destruct i as [| [| [| i]]]; try discriminate H;
      repeat apply le_S_n in Hi; inversion Hi.
Defined.

(* ================================================================= *)
(** * Embedding the chunks that have no embedding *)

Lemma reembedded_refl (touched : string -> Prop) (m : JSMap.t Chunk) :
  Forall2 (reembedded touched) m m.
Proof.
  induction m as [| entry m IH]; constructor; [| exact IH].
  split; [reflexivity | left; reflexivity].
Qed.

Lemma reembedded_update (touched : string -> Prop) (k : string) (e : list Q)
  (m0 m : JSMap.t Chunk) :
  touched k ->
  Forall2 (reembedded touched) m0 m ->
  Forall2 (reembedded touched) m0
    (match JSMap.get k m with
     | Some chunk => JSMap.set k (withEmbedding chunk e) m
     | None => m
     end).
Proof.
  intros Hk H. induction H as [| [k0 c0] [k1 c1] m0 m [Hfst Hsnd] Hrest IH].
  - simpl. constructor.
  - cbn [JSMap.get JSMap.set]. simpl in Hfst. subst k1.
    destruct (String.eqb_spec k k0) as [-> | Hne].
    + constructor; [| exact Hrest]. split; [reflexivity |]. right.
      split; [exact Hk |]. simpl in *.
      destruct Hsnd as [-> | [_ [e0 ->]]]; [exists e | exists e]; reflexivity.
    + destruct (JSMap.get k m) as [chunk |].
      * constructor; [split; [reflexivity | exact Hsnd] | exact IH].
      * constructor; [split; [reflexivity | exact Hsnd] | exact Hrest].
Qed.

Lemma embedChunks_never_throws (pending : list Chunk) :
  forall st, never_throws (embedChunks st pending).
Proof.
  induction pending as [| chunk pending IH]; intros st; cbn [embedChunks]; [exact I |].
  apply never_throws_bind; [apply embedChunk_never_throws |].
  intros st'. apply IH.
Qed.

Lemma embedChunks_calls (pending : list Chunk) :
  forall st, callsAtMost (3 * length pending) (embedChunks st pending).
Proof.
  induction pending as [| chunk pending IH]; intros st; cbn [embedChunks length];
    [exact I |].
  replace (3 * S (length pending))%nat with (3 + 3 * length pending)%nat by lia.
  apply (callsAtMost_bind (fun _ => True) _ _ 3 (3 * length pending));
    [apply embedChunk_calls | apply returns_all_any; auto |].
  intros st2 _. apply IH.
Qed.

Lemma embedChunks_returns (touched : string -> Prop) (st0 : MemStorage)
  (pending : list Chunk) :
  forall st,
    (forall c, In c pending -> touched (id c)) ->
    documents st = documents st0 ->
    Forall2 (reembedded touched) (chunks st0) (chunks st) ->
    returns_all
      (fun st' =>
         documents st' = documents st0 /\
         Forall2 (reembedded touched) (chunks st0) (chunks st'))
      (embedChunks st pending).
Proof.
  induction pending as [| chunk pending IH]; intros st Htouched Hdocs Hrel;
    cbn [embedChunks].
  - simpl. split; assumption.
  - apply returns_all_bind.
    generalize (embedChunk_returns st (id chunk) (content chunk)).
    apply returns_all_mono. intros st2 Hst2.
    apply IH.
    + intros c Hc. apply Htouched. right. exact Hc.
    + destruct Hst2 as [-> | [e ->]]; [exact Hdocs |].
      unfold updateChunkEmbedding.
      destruct (JSMap.get (id chunk) (chunks st)); exact Hdocs.
    + destruct Hst2 as [-> | [e ->]]; [exact Hrel |].
      assert (Hk : touched (id chunk)) by (apply Htouched; left; reflexivity).
      generalize (reembedded_update touched (id chunk) e _ _ Hk Hrel).
      unfold updateChunkEmbedding.
      destruct (JSMap.get (id chunk) (chunks st)); auto.
Qed.

Lemma JSMap_In_get {V : Type} (k : string) (v : V) (m : JSMap.t V) :
  JSMap.wf m -> In (k, v) m -> JSMap.get k m = Some v.
Proof.
  unfold JSMap.wf, JSMap.keys.
  induction m as [| [k0 v0] m IH]; simpl; intros Hnd Hin; [contradiction |].
  inversion Hnd as [| ? ? Hnot Hnd']; subst.
  destruct Hin as [E | Hin].
  - injection E as -> ->. rewrite String.eqb_refl. reflexivity.
  - destruct (String.eqb_spec k k0) as [-> | Hne]; [| apply IH; assumption].
    exfalso. apply Hnot. apply (in_map fst) in Hin. exact Hin.
Qed.

Lemma Forall2_weaken_In {A B : Type} (R R' : A -> B -> Prop) (l : list A) (l' : list B) :
  (forall x y, In x l -> R x y -> R' x y) -> Forall2 R l l' -> Forall2 R' l l'.
Proof.
  intros HRR' H. induction H as [| x y l l' Hxy Hrest IH]; constructor.
  - apply HRR'; [left; reflexivity | exact Hxy].
  - apply IH. intros x' y' Hin. apply HRR'. right. exact Hin.
Qed.

(** initializeEmbeddings never throws, and calls the embedding provider
    at most three times per stored chunk without a non-empty embedding.
    In a store that keeps every chunk under its own identifier, it leaves
    the documents, the keys and their order as they are; a chunk with a
    non-empty embedding is left as it is, and any other chunk changes at
    most in its embedding. *)
Theorem initializeEmbeddings_only_embeds (st : MemStorage) :
  JSMap.wf (chunks st) ->
  keyedById (chunks st) ->
  never_throws (initializeEmbeddings st) /\
  callsAtMost
    (3 * length (filter (fun c => negb (hasEmbedding c)) (getChunks st)))
    (initializeEmbeddings st) /\
  returns_all
    (fun st' =>
       documents st' = documents st /\
       Forall2 embeddingAdded (chunks st) (chunks st'))
    (initializeEmbeddings st).
Proof.
  intros Hwf Hkeyed. unfold initializeEmbeddings.
  split; [apply embedChunks_never_throws |].
  split; [apply embedChunks_calls |].
  set (touched := fun k => exists c, JSMap.get k (chunks st) = Some c /\
                                     hasEmbedding c = false).
  assert (Htouched : forall c,
             In c (filter (fun c => negb (hasEmbedding c)) (getChunks st)) ->
             touched (id c)).
  { intros c Hc. apply filter_In in Hc. destruct Hc as [Hin Hno].
    exists c. split; [| destruct (hasEmbedding c); [discriminate | reflexivity]].
    unfold getChunks, JSMap.values in Hin. apply in_map_iff in Hin.
    destruct Hin as [[k c'] [Hsnd Hin]]. simpl in Hsnd. subst c'.
    unfold keyedById in Hkeyed. rewrite Forall_forall in Hkeyed.
    specialize (Hkeyed (k, c) Hin). simpl in Hkeyed. rewrite Hkeyed.
    apply JSMap_In_get; assumption. }
  generalize (embedChunks_returns touched st _ st Htouched eq_refl
                (reembedded_refl touched (chunks st))).
  apply returns_all_mono. intros st' [Hdocs Hrel]. split; [exact Hdocs |].
  revert Hrel. apply Forall2_weaken_In.
  intros [k c] [k' c'] Hin [Hfst Hsnd]. split; [exact Hfst |].
  destruct Hsnd as [Hsame | [[c0 [Hget Hno]] Hnew]]; [left; exact Hsame |].
  right. split; [| exact Hnew]. simpl in *.
  rewrite (JSMap_In_get k c (chunks st) Hwf Hin) in Hget.
  injection Hget as <-. exact Hno.
Qed.

Lemma initializeEmbeddings_only_embeds_witness :
  never_throws (initializeEmbeddings sampleStorage) /\
  callsAtMost
    (3 * length (filter (fun c => negb (hasEmbedding c)) (getChunks sampleStorage)))
    (initializeEmbeddings sampleStorage) /\
  returns_all
    (fun st' =>
       documents st' = documents sampleStorage /\
       Forall2 embeddingAdded (chunks sampleStorage) (chunks st'))
    (initializeEmbeddings sampleStorage).
Proof.
  apply (initializeEmbeddings_only_embeds sampleStorage).
  - unfold JSMap.wf. vm_compute. repeat constructor; simpl; intuition discriminate.
  - unfold keyedById. repeat constructor.
Defined.

(* ================================================================= *)
(** * Conversations and messages *)

(** ** The stable sort by a comparator *)

Lemma insertBy_Permutation {A : Type} (compare : A -> A -> Z) (x : A) (l : list A) :
  Permutation (insertBy compare x l) (x :: l).
Proof.
  induction l as [| y l IH]; simpl; [apply Permutation_refl |].
  destruct (0 <? compare x y)%Z; [| apply Permutation_refl].
  eapply Permutation_trans; [apply perm_skip, IH | apply perm_swap].
Qed.

Lemma sortBy_Permutation {A : Type} (compare : A -> A -> Z) (l : list A) :
  Permutation (sortBy compare l) l.
Proof.
  induction l as [| x l IH]; simpl; [constructor |].
  eapply Permutation_trans; [apply insertBy_Permutation | apply perm_skip, IH].
Qed.

Lemma insertBy_ext {A : Type} (compare compare' : A -> A -> Z) (x : A) (l : list A) :
  (forall a c, compare a c = compare' a c) ->
  insertBy compare x l = insertBy compare' x l.
Proof.
  intros Hext. induction l as [| y l IH]; simpl; [reflexivity |].
  rewrite Hext, IH. reflexivity.
Qed.

Lemma sortBy_ext {A : Type} (compare compare' : A -> A -> Z) (l : list A) :
  (forall a c, compare a c = compare' a c) -> sortBy compare l = sortBy compare' l.
Proof.
  intros Hext. induction l as [| x l IH]; simpl; [reflexivity |].
  rewrite IH. apply insertBy_ext, Hext.
Qed.

Lemma insertBy_sorted {A : Type} (key : A -> Z) (x : A) (l : list A) :
  StronglySorted (fun a c => (key a <= key c)%Z) l ->
  StronglySorted (fun a c => (key a <= key c)%Z)
    (insertBy (fun a c => (key a - key c)%Z) x l).
Proof.
  induction l as [| y l IH]; simpl; intros Hs.
  - constructor; constructor.
  - inversion Hs as [| ? ? Hl Hy]; subst.
    destruct (Z.ltb_spec 0 (key x - key y)) as [E | E].
    + constructor; [apply IH, Hl |].
      eapply Permutation_Forall.
      * apply Permutation_sym, insertBy_Permutation.
      * constructor; [lia | exact Hy].
    + constructor; [exact Hs |].
      constructor; [lia |].
      eapply Forall_impl; [| exact Hy]. intros z Hz. simpl in Hz. lia.
Qed.

Lemma sortBy_sorted {A : Type} (key : A -> Z) (l : list A) :
  StronglySorted (fun a c => (key a <= key c)%Z)
    (sortBy (fun a c => (key a - key c)%Z) l).
Proof.
  induction l as [| x l IH]; simpl; [constructor |].
  apply insertBy_sorted, IH.
Qed.

(** Stability: the elements of any one key keep their order. *)
Lemma insertBy_stable {A : Type} (key : A -> Z) (t : Z) (x : A) (l : list A) :
  filter (fun a => (key a =? t)%Z) (insertBy (fun a c => (key a - key c)%Z) x l) =
  filter (fun a => (key a =? t)%Z) (x :: l).
Proof.
  induction l as [| y l IH]; [reflexivity |].
  cbn [insertBy]. destruct (Z.ltb_spec 0 (key x - key y)) as [E | E]; [| reflexivity].
  cbn [filter] in *. rewrite IH.
  destruct (Z.eqb_spec (key x) t) as [Ex | Ex]; [| reflexivity].
  destruct (Z.eqb_spec (key y) t) as [Ey | Ey]; [lia | reflexivity].
Qed.

Lemma sortBy_stable {A : Type} (key : A -> Z) (t : Z) (l : list A) :
  filter (fun a => (key a =? t)%Z) (sortBy (fun a c => (key a - key c)%Z) l) =
  filter (fun a => (key a =? t)%Z) l.
Proof.
  induction l as [| x l IH]; [reflexivity |].
  cbn [sortBy fold_right]. fold (sortBy (fun a c => (key a - key c)%Z) l).
  rewrite insertBy_stable. cbn [filter]. rewrite IH. reflexivity.
Qed.

Lemma insertBy_snoc {A : Type} (compare : A -> A -> Z) (x y : A) (l : list A) :
  (0 <? compare y x)%Z = false ->
  insertBy compare y (l ++ [x]) = insertBy compare y l ++ [x].
Proof.
  intros Hyx. induction l as [| z l IH]; simpl.
  - rewrite Hyx. reflexivity.
  - destruct (0 <? compare y z)%Z; [rewrite IH |]; reflexivity.
Qed.

Lemma sortBy_snoc {A : Type} (compare : A -> A -> Z) (x : A) (l : list A) :
  (forall y, In y l -> (0 <? compare y x)%Z = false) ->
  sortBy compare (l ++ [x]) = sortBy compare l ++ [x].
Proof.
  induction l as [| y l IH]; intros H; [reflexivity |].
  cbn [sortBy fold_right app]. fold (sortBy compare (l ++ [x])). fold (sortBy compare l).
  rewrite IH by (intros z Hz; apply H; right; exact Hz).
  apply insertBy_snoc. apply H. left. reflexivity.
Qed.

Lemma sortBy_snoc_first {A : Type} (compare : A -> A -> Z) (x : A) (l : list A) :
  (forall y, In y l -> (0 <? compare y x)%Z = true) ->
  sortBy compare (l ++ [x]) = x :: sortBy compare l.
Proof.
  induction l as [| y l IH]; intros H; [reflexivity |].
  cbn [sortBy fold_right app]. fold (sortBy compare (l ++ [x])). fold (sortBy compare l).
  rewrite IH by (intros z Hz; apply H; right; exact Hz).
  cbn [insertBy]. rewrite (H y) by (left; reflexivity). reflexivity.
Qed.

Lemma values_app {V : Type} (m1 m2 : JSMap.t V) :
  JSMap.values (m1 ++ m2) = JSMap.values m1 ++ JSMap.values m2.
Proof.
  unfold JSMap.values. apply map_app.
Qed.

(** ** Messages *)

(** getMessages returns exactly the stored messages of the conversation,
    oldest first, and the messages of one creation time in the order in
    which they were stored. *)
Theorem getMessages_oldest_first (st : ChatStorage) (conversationId : string) :
  Permutation (getMessages st conversationId)
    (filter (fun msg => String.eqb (msg_conversationId msg) conversationId)
       (JSMap.values (messages st))) /\
  (forall msg, In msg (getMessages st conversationId) ->
     msg_conversationId msg = conversationId /\ In msg (JSMap.values (messages st))) /\
  StronglySorted
    (fun a c => (timeOf (msg_createdAt a) <= timeOf (msg_createdAt c))%Z)
    (getMessages st conversationId) /\
  (forall t,
     filter (fun msg => (timeOf (msg_createdAt msg) =? t)%Z) (getMessages st conversationId)
     = filter (fun msg => (timeOf (msg_createdAt msg) =? t)%Z)
         (filter (fun msg => String.eqb (msg_conversationId msg) conversationId)
            (JSMap.values (messages st)))).
Proof.
  unfold getMessages.
  split; [apply sortBy_Permutation |].
  split; [| split].
  - intros msg Hin.
    apply (Permutation_in _ (sortBy_Permutation _ _)) in Hin.
    apply filter_In in Hin. destruct Hin as [Hin Heq].
    split; [apply String.eqb_eq, Heq | exact Hin].
  - apply (sortBy_sorted (fun msg => timeOf (msg_createdAt msg))).
  - intros t. apply (sortBy_stable (fun msg => timeOf (msg_createdAt msg))).
Qed.

(** A message created under a new identifier, at a time not before those
    of the messages of its conversation, comes last in its conversation;
    the other conversations read as before. *)
Theorem createMessage_appends_last
  (st : ChatStorage) (uuid : string) (now : Z) (message : InsertMessage) :
  ~ In uuid (JSMap.keys (messages st)) ->
  (forall msg, In msg (getMessages st (im_conversationId message)) ->
     (timeOf (msg_createdAt msg) <= now)%Z) ->
  getMessages (snd (createMessage st uuid now message)) (im_conversationId message)
  = getMessages st (im_conversationId message) ++ [fst (createMessage st uuid now message)] /\
  (forall other, other <> im_conversationId message ->
     getMessages (snd (createMessage st uuid now message)) other = getMessages st other) /\
  conversations (snd (createMessage st uuid now message)) = conversations st.
Proof.
  intros Hfresh Hlast. unfold createMessage. cbn [fst snd].
  set (msg := {| msg_id := uuid;
                 msg_conversationId := im_conversationId message;
                 msg_role := im_role message;
                 msg_content := im_content message;
                 msg_sources := im_sources message;
                 msg_createdAt := Some now |}).
  unfold getMessages in *. cbn [messages conversations].
  rewrite (JSMap_set_fresh uuid msg (messages st) Hfresh), values_app.
  split; [| split; [| reflexivity]].
  - rewrite filter_app. cbn [JSMap.values map snd filter msg_conversationId msg].
    rewrite String.eqb_refl. apply sortBy_snoc.
    intros y Hy. cbn [msg_createdAt msg timeOf].
    apply Z.ltb_ge.
    assert (Hle := Hlast y (Permutation_in _ (Permutation_sym (sortBy_Permutation _ _)) Hy)).
    simpl in Hle. lia.
  - intros other Hother. rewrite filter_app.
    cbn [JSMap.values map snd filter msg_conversationId msg].
    destruct (String.eqb_spec (im_conversationId message) other) as [E | E];
      [exfalso; apply Hother; symmetry; exact E |].
    rewrite app_nil_r. reflexivity.
Qed.

Lemma createMessage_appends_last_witness :
  getMessages
    (snd (createMessage sampleChat "m4" 30
            {| im_conversationId := "k1"; im_role := roleAssistant;
               im_content := "Intermediates."; im_sources := Some [] |})) "k1"
  = getMessages sampleChat "k1" ++
    [fst (createMessage sampleChat "m4" 30
            {| im_conversationId := "k1"; im_role := roleAssistant;
               im_content := "Intermediates."; im_sources := Some [] |})] /\
  (forall other, other <> "k1"%string ->
     getMessages
       (snd (createMessage sampleChat "m4" 30
               {| im_conversationId := "k1"; im_role := roleAssistant;
                  im_content := "Intermediates."; im_sources := Some [] |})) other
     = getMessages sampleChat other) /\
  conversations
    (snd (createMessage sampleChat "m4" 30
            {| im_conversationId := "k1"; im_role := roleAssistant;
               im_content := "Intermediates."; im_sources := Some [] |}))
  = conversations sampleChat.
Proof.
  apply (createMessage_appends_last sampleChat "m4" 30
           {| im_conversationId := "k1"; im_role := roleAssistant;
              im_content := "Intermediates."; im_sources := Some [] |}).
  - simpl. intuition discriminate.
  - vm_compute. intros msg [<- | [<- | []]]; discriminate.
Defined.

(** The messages of the other conversations, under their keys. *)
Lemma deleteConversation_messages (st : ChatStorage) (conversationId : string) :
  JSMap.wf (messages st) ->
  messages (deleteConversation st conversationId)
  = filter (fun entry => negb (String.eqb (msg_conversationId (snd entry)) conversationId))
      (messages st).
Proof.
  unfold deleteConversation; cbn [messages]. intros Hwf.
  set (keep := fun entry : string * Message =>
                 negb (String.eqb (msg_conversationId (snd entry)) conversationId)).
  assert (H : forall suffix prefix,
             NoDup (JSMap.keys (prefix ++ suffix)) ->
             fold_left (deleteIfInConversation conversationId) suffix
               (filter keep prefix ++ suffix)
             = filter keep prefix ++ filter keep suffix).
  { induction suffix as [| [k c] suffix IH]; intros prefix Hnd; simpl.
    - reflexivity.
    - assert (Hk : ~ In k (JSMap.keys (filter keep prefix))).
      { unfold JSMap.keys in *. rewrite map_app in Hnd. simpl in Hnd.
        apply NoDup_remove_2 in Hnd. intros Hin. apply Hnd.
        apply in_or_app. left.
        apply in_map_iff in Hin. destruct Hin as [e [He Hin]].
        apply filter_In in Hin. apply in_map_iff. exists e. tauto. }
      assert (Hnd' : NoDup (JSMap.keys ((prefix ++ [(k, c)]) ++ suffix))).
      { rewrite <- app_assoc. exact Hnd. }
      specialize (IH (prefix ++ [(k, c)]) Hnd').
      rewrite filter_app in IH.
      assert (Ekeep : keep (k, c)
                      = negb (String.eqb (msg_conversationId c) conversationId))
        by reflexivity.
      cbn [filter] in IH. rewrite Ekeep in *.
      destruct (String.eqb (msg_conversationId c) conversationId); cbn [negb] in *.
      + rewrite app_nil_r in IH.
        rewrite JSMap_delete_app by exact Hk. exact IH.
      + rewrite <- !app_assoc in IH. exact IH. }
  apply (H (messages st) []). exact Hwf.
Qed.

Lemma JSMap_get_In_entry {V : Type} (k : string) (m : JSMap.t V) (v : V) :
  JSMap.get k m = Some v -> In (k, v) m.
Proof.
  induction m as [| [k' v'] m IH]; simpl; intros H; [discriminate |].
  destruct (String.eqb_spec k k') as [-> | Hne].
  - left. congruence.
  - right. auto.
Qed.

Lemma JSMap_get_delete_same {V : Type} (k : string) (m : JSMap.t V) :
  JSMap.wf m -> JSMap.get k (JSMap.delete k m) = None.
Proof.
  intros Hwf. apply JSMap_get_None. apply JSMap_delete_removes. exact Hwf.
Qed.

(** After deleteConversation the conversation is gone and has no message;
    every other conversation is stored as before and reads the same
    messages in the same order. *)
Theorem deleteConversation_cascades (st : ChatStorage) (conversationId : string) :
  JSMap.wf (conversations st) ->
  JSMap.wf (messages st) ->
  getConversation (deleteConversation st conversationId) conversationId = None /\
  getMessages (deleteConversation st conversationId) conversationId = [] /\
  (forall other, other <> conversationId ->
     getConversation (deleteConversation st conversationId) other
     = getConversation st other /\
     getMessages (deleteConversation st conversationId) other = getMessages st other) /\
  (forall k msg, JSMap.get k (messages (deleteConversation st conversationId)) = Some msg ->
     msg_conversationId msg <> conversationId /\ In (k, msg) (messages st)).
Proof.
  intros Hconv Hmsg.
  assert (Hvalues :
            JSMap.values (messages (deleteConversation st conversationId))
            = filter (fun msg => negb (String.eqb (msg_conversationId msg) conversationId))
                (JSMap.values (messages st))).
  { rewrite deleteConversation_messages by exact Hmsg.
    apply (values_filter_snd
             (fun msg => negb (String.eqb (msg_conversationId msg) conversationId))). }
  split; [| split; [| split]].
  - unfold getConversation, deleteConversation; cbn [conversations].
    apply JSMap_get_delete_same, Hconv.
  - unfold getMessages. rewrite Hvalues. clear Hvalues.
    replace (filter _ (filter _ (JSMap.values (messages st)))) with (@nil Message);
      [reflexivity |].
    induction (JSMap.values (messages st)) as [| m ms IH]; simpl; [reflexivity |].
    destruct (String.eqb (msg_conversationId m) conversationId) eqn:E; simpl;
      [exact IH |].
    rewrite E. exact IH.
  - intros other Hother. split.
    + unfold getConversation, deleteConversation; cbn [conversations].
      apply JSMap_get_delete_other, Hother.
    + unfold getMessages. rewrite Hvalues. clear Hvalues. f_equal.
      induction (JSMap.values (messages st)) as [| m ms IH]; simpl; [reflexivity |].
      destruct (String.eqb_spec (msg_conversationId m) conversationId) as [E | E]; simpl.
      * destruct (String.eqb_spec (msg_conversationId m) other) as [E' | E'];
          [congruence | exact IH].
      * rewrite IH. reflexivity.
  - intros k msg Hget. rewrite deleteConversation_messages in Hget by exact Hmsg.
    apply JSMap_get_In_entry in Hget. apply filter_In in Hget.
    destruct Hget as [Hin Hkeep].
    split; [| exact Hin]. simpl in Hkeep.
    destruct (String.eqb_spec (msg_conversationId msg) conversationId);
      [discriminate | assumption].
Qed.

Lemma deleteConversation_cascades_witness :
  getConversation (deleteConversation sampleChat "k1") "k1" = None /\
  getMessages (deleteConversation sampleChat "k1") "k1" = [] /\
  (forall other, other <> "k1"%string ->
     getConversation (deleteConversation sampleChat "k1") other
     = getConversation sampleChat other /\
     getMessages (deleteConversation sampleChat "k1") other = getMessages sampleChat other) /\
  (forall k msg, JSMap.get k (messages (deleteConversation sampleChat "k1")) = Some msg ->
     msg_conversationId msg <> "k1"%string /\ In (k, msg) (messages sampleChat)).
Proof.
  apply (deleteConversation_cascades sampleChat "k1").
  - unfold JSMap.wf. vm_compute. repeat constructor; simpl; intuition discriminate.
  - unfold JSMap.wf. vm_compute. repeat constructor; simpl; intuition discriminate.
Defined.

(** ** Conversations *)

(** getConversations returns exactly the stored conversations, newest
    first, and the conversations of one creation time in the order in
    which they were stored. *)
Theorem getConversations_newest_first (st : ChatStorage) :
  Permutation (getConversations st) (JSMap.values (conversations st)) /\
  StronglySorted
    (fun a c => (timeOf (conv_createdAt c) <= timeOf (conv_createdAt a))%Z)
    (getConversations st) /\
  (forall t,
     filter (fun c => (timeOf (conv_createdAt c) =? t)%Z) (getConversations st)
     = filter (fun c => (timeOf (conv_createdAt c) =? t)%Z)
         (JSMap.values (conversations st))).
Proof.
  unfold getConversations.
  split; [apply sortBy_Permutation |].
  set (key := fun c : Conversation => (- timeOf (conv_createdAt c))%Z).
  assert (Hext : forall a c : Conversation,
             (timeOf (conv_createdAt c) - timeOf (conv_createdAt a))%Z
             = (key a - key c)%Z) by (intros a c; unfold key; lia).
  rewrite (sortBy_ext _ (fun a c => (key a - key c)%Z) _ Hext).
  split.
  - generalize (sortBy_sorted key (JSMap.values (conversations st))).
    apply StronglySorted_ind.
    + constructor.
    + intros a l Hl IH Ha. constructor; [exact IH |].
      eapply Forall_impl; [| exact Ha]. intros c Hc. unfold key in Hc. simpl in Hc. lia.
  - intros t.
    assert (Hfilter : forall l,
               filter (fun c => (timeOf (conv_createdAt c) =? t)%Z) l
               = filter (fun c => (key c =? - t)%Z) l).
    { intros l. apply filter_ext. intros c. unfold key.
      destruct (Z.eqb_spec (timeOf (conv_createdAt c)) t);
        destruct (Z.eqb_spec (- timeOf (conv_createdAt c)) (- t)); auto; lia. }
    rewrite !Hfilter. apply sortBy_stable.
Qed.

(** A conversation created under a new identifier, at a time after those
    of all the stored conversations, is listed first, before the others
    in their earlier order; no message changes. *)
Theorem createConversation_listed_first
  (st : ChatStorage) (uuid : string) (now : Z) (conv : InsertConversation) :
  ~ In uuid (JSMap.keys (conversations st)) ->
  (forall c, In c (getConversations st) -> (timeOf (conv_createdAt c) < now)%Z) ->
  getConversations (snd (createConversation st uuid now conv))
  = fst (createConversation st uuid now conv) :: getConversations st /\
  getConversation (snd (createConversation st uuid now conv)) uuid
  = Some (fst (createConversation st uuid now conv)) /\
  messages (snd (createConversation st uuid now conv)) = messages st.
Proof.
  intros Hfresh Hnewest. unfold createConversation. cbn [fst snd].
  set (conversation := {| conv_id := uuid; conv_title := ic_title conv;
                          conv_createdAt := Some now |}).
  split; [| split; [| reflexivity]].
  - unfold getConversations in *. cbn [conversations].
    rewrite (JSMap_set_fresh uuid conversation (conversations st) Hfresh), values_app.
    cbn [JSMap.values map snd]. apply sortBy_snoc_first.
    intros y Hy. cbn [conv_createdAt conversation timeOf].
    apply Z.ltb_lt.
    assert (Hlt := Hnewest y
                     (Permutation_in _ (Permutation_sym (sortBy_Permutation _ _)) Hy)).
    lia.
  - unfold getConversation. cbn [conversations]. apply JSMap_get_set_same.
Qed.

Lemma createConversation_listed_first_witness :
  getConversations (snd (createConversation sampleChat "k3" 30 {| ic_title := "Rain" |}))
  = fst (createConversation sampleChat "k3" 30 {| ic_title := "Rain" |})
    :: getConversations sampleChat /\
  getConversation (snd (createConversation sampleChat "k3" 30 {| ic_title := "Rain" |})) "k3"
  = Some (fst (createConversation sampleChat "k3" 30 {| ic_title := "Rain" |})) /\
  messages (snd (createConversation sampleChat "k3" 30 {| ic_title := "Rain" |}))
  = messages sampleChat.
Proof.
  apply (createConversation_listed_first sampleChat "k3" 30 {| ic_title := "Rain" |}).
  - simpl. intuition discriminate.
  - vm_compute. intros c [<- | [<- | []]]; reflexivity.
Defined.
